(** * Verifiable secret sharing of DeDiS/crypto: a shallow embedding

    The development follows the two Go packages it verifies:
    - [share] (poly.go): private and public sharing polynomials and the
      Lagrange reconstruction of the secret;
    - [vss] (vss.go): the dealer, the verifier and the aggregator they embed.

    The cryptographic group, the hash, the signature scheme and the
    authenticated encryption are interfaces of the library ([abstract.Suite]
    and friends); they are the fields of the class [Suite] below, and the
    algebra the proofs need is the class [SuiteLaws].  What a few results
    need beyond it is stated apart: [PointLaws], [EqualityLaws],
    [SchnorrLaws] and [ChannelLaws]. *)

From Stdlib Require Import ZArith Field Lia.
From Stdlib.Strings Require Import Byte.
From stdpp Require Import base option list gmap strings pretty relations.

Local Open Scope Z_scope.

(** ** Go values: errors, results, fixed-width integers, byte slices *)

(** A Go [error].  [errors.New] and [fmt.Errorf] build a fresh value from a
    message; [errDealAlreadyProcessed] is the one package-level error value
    the code compares against with [==]. *)
Inductive error : Type :=
  | errorsNew (msg : string)
  | errDealAlreadyProcessed.

Global Instance error_eq_dec : EqDecision error.
Proof. solve_decision. Defined.

(** The outcome of a call: a value, a returned error, or a run-time panic
    (nil dereference, index out of range, [make] with a negative length). *)
Inductive res (A : Type) : Type :=
  | Ok (a : A)
  | Err (e : error)
  | Panic.
Arguments Ok {A} a.
Arguments Err {A} e.
Arguments Panic {A}.

Definition res_bind {A B : Type} (m : res A) (k : A -> res B) : res B :=
  match m with
  | Ok a => k a
  | Err e => Err e
  | Panic => Panic
  end.

(** A call that returns only an [error]: nil or an error value. *)
Definition from_error (e : option error) : res unit :=
  match e with
  | None => Ok ()
  | Some err => Err err
  end.

Definition is_Ok {A : Type} (m : res A) : bool :=
  match m with Ok _ => true | _ => false end.

Global Instance res_mret : MRet res := @Ok.
Global Instance res_mbind : MBind res := fun A B k m => res_bind m k.

Abbreviation bytes := (list byte).

Global Instance byte_eq_dec' : EqDecision byte := byte_eq_dec.

(** [bytes.Equal]: equality of contents; a nil slice equals an empty one. *)
Definition bytes_Equal (a b : bytes) : bool := bool_decide (a = b).

Definition byte_of_Z (z : Z) : byte :=
  match Byte.of_N (Z.to_N (z mod 256)) with
  | Some b => b
  | None => x00
  end.

(** Conversion to [uint32] keeps the low 32 bits. *)
Definition uint32 (z : Z) : N := Z.to_N (z mod 2 ^ 32).

(** Addition on [int64] wraps around. *)
Definition wrap64 (z : Z) : Z := (z + 2 ^ 63) mod 2 ^ 64 - 2 ^ 63.

(** [binary.Write(h, binary.LittleEndian, u)] for a [uint32]. *)
Definition le32 (u : N) : bytes :=
  let z := Z.of_N u in
  [byte_of_Z z; byte_of_Z (z / 2 ^ 8); byte_of_Z (z / 2 ^ 16); byte_of_Z (z / 2 ^ 24)].

(** [binary.Write] of a [bool] is one byte. *)
Definition bool_byte (b : bool) : bytes := [if b then x01 else x00].

(** ** The suite: what the library's interfaces provide *)

Class Suite : Type := {
  Scalar : Type;
  Point : Type;
  Stream : Type;
  (* abstract.Scalar *)
  Zero : Scalar;
  One : Scalar;
  SAdd : Scalar -> Scalar -> Scalar;
  SSub : Scalar -> Scalar -> Scalar;
  SNeg : Scalar -> Scalar;
  SMul : Scalar -> Scalar -> Scalar;
  SDiv : Scalar -> Scalar -> Scalar;
  SInv : Scalar -> Scalar;
  SetInt64 : Z -> Scalar;
  SPick : Stream -> Scalar * Stream;
  (* abstract.Point; the base argument of Mul may be nil: the standard base *)
  Null : Point;
  Base : Point;
  PAdd : Point -> Point -> Point;
  PMul : option Point -> Scalar -> Point;
  PEqual : Point -> Point -> bool;
  PPick : Stream -> Point;
  MarshalTo : Point -> bytes;
  MarshalBinary : Point -> res bytes;
  (* abstract.Suite *)
  Hash : bytes -> bytes;
  Cipher : bytes -> Stream;
  (* package sign *)
  Schnorr : Scalar -> bytes -> res bytes;
  VerifySchnorr : Point -> bytes -> bytes -> option error;
  (* package vss, outside vss.go: key exchange, AEAD and the HKDF context *)
  dhExchange : Scalar -> Point -> Point;
  AEAD : Type;
  newAEAD : Point -> bytes -> res AEAD;
  Open : AEAD -> bytes -> bytes -> bytes -> res bytes;
  context : Point -> list Point -> bytes;
}.

Declare Scope scalar_scope.
Delimit Scope scalar_scope with S.
Notation "0" := Zero : scalar_scope.
Notation "1" := One : scalar_scope.
Infix "+" := SAdd : scalar_scope.
Infix "-" := SSub : scalar_scope.
Infix "*" := SMul : scalar_scope.
Infix "/" := SDiv : scalar_scope.
Notation "- x" := (SNeg x) : scalar_scope.

(** An [abstract.Group] value held by a polynomial: the identity of the
    group object.  Within one suite the operations are those of [Suite]. *)
Abbreviation Group := N.

(** An [abstract.Point] interface value whose identity the code observes:
    every implementation is a pointer type, so [==] on two such values
    compares addresses, not coordinates. *)
Record PointRef `{Suite} : Type := mkPointRef {
  addr : N;
  deref : Point;
}.

(** ** Package share *)

Module share.
Section defs.
Context `{Suite}.

(** [type PriShare struct { I int; V abstract.Scalar }] *)
Record PriShare : Type := mkPriShare {
  I : Z;
  V : Scalar;
}.

(** [type PriPoly struct { g abstract.Group; coeffs []abstract.Scalar }] *)
Record PriPoly : Type := mkPriPoly {
  g : Group;
  coeffs : list Scalar;
}.

(** The loop [for i := 1; i < t; i++ { coeffs[i] = g.Scalar().Pick(rand) }],
    [k] iterations left. *)
Fixpoint pick_coeffs (k : nat) (rand : Stream) : list Scalar * Stream :=
  match k with
  | O => ([], rand)
  | S k' =>
      let '(c, rand1) := SPick rand in
      let '(cs, rand2) := pick_coeffs k' rand1 in
      (c :: cs, rand2)
  end.

(** [NewPriPoly]: [make] panics on a negative [t], [coeffs[0] = s] on [t = 0].
    A nil secret is drawn from the stream first. *)
Definition NewPriPoly (grp : Group) (t : Z) (s : option Scalar) (rand : Stream)
  : res (PriPoly * Stream) :=
  if t <=? 0 then Panic
  else
    let '(c0, rand0) :=
      match s with
      | Some s0 => (s0, rand)
      | None => SPick rand
      end in
    let '(cs, rand1) := pick_coeffs (Z.to_nat (t - 1)) rand0 in
    Ok (mkPriPoly grp (c0 :: cs), rand1).

Definition PriPoly_Threshold (p : PriPoly) : Z := Z.of_nat (length (coeffs p)).

(** [GetSecret] reads [p.coeffs[0]]. *)
Definition GetSecret (p : PriPoly) : res Scalar :=
  match coeffs p with
  | c0 :: _ => Ok c0
  | [] => Panic
  end.

(** The Horner loop of [Eval], [for j := t - 1; j >= 0; j--], as a fold over
    the coefficients from the last one down:
    [sv.Mul(sv, xi); sv.Add(sv, p.coeffs[j])]. *)
Definition horner (cs : list Scalar) (xi : Scalar) : Scalar :=
  foldr (fun c sv => ((sv * xi) + c)%S) 0%S cs.

(** [xi := p.g.Scalar().SetInt64(1 + int64(i))] *)
Definition xcoord (i : Z) : Scalar := SetInt64 (wrap64 (1 + i)).

Definition PriPoly_Eval (p : PriPoly) (i : Z) : PriShare :=
  mkPriShare i (horner (coeffs p) (xcoord i)).

(** [Shares]: [shares[i] = p.Eval(i)] for [0 <= i < n]; [make] panics on a
    negative [n]. *)
Definition PriPoly_Shares (p : PriPoly) (n : Z) : res (list (option PriShare)) :=
  if n <? 0 then Panic
  else Ok ((fun i : nat => Some (PriPoly_Eval p (Z.of_nat i))) <$> seq 0 (Z.to_nat n)).

Definition PriPoly_Add (p q : PriPoly) : res PriPoly :=
  if negb (bool_decide (g p = g q)) then Err (errorsNew "Non-matching groups")
  else if negb (PriPoly_Threshold p =? PriPoly_Threshold q)
  then Err (errorsNew "Non-matching number of coefficients")
  else Ok (mkPriPoly (g p) (zip_with SAdd (coeffs p) (coeffs q))).

(** [type PubPoly struct { g abstract.Group; b abstract.Point;
    commits []abstract.Point }]; [b] is nil for the standard base. *)
Record PubPoly : Type := mkPubPoly {
  pub_g : Group;
  b : option PointRef;
  commits : list Point;
}.

(** The base handed to [Point.Mul]: the point behind the interface value. *)
Definition base_arg (b0 : option PointRef) : option Point := deref <$> b0.

(** [Commit]: [commits[i] = p.g.Point().Mul(b, p.coeffs[i])]. *)
Definition Commit (p : PriPoly) (b0 : option PointRef) : PubPoly :=
  mkPubPoly (g p) b0 ((fun c => PMul (base_arg b0) c) <$> coeffs p).

Definition NewPubPoly (grp : Group) (b0 : option PointRef) (cs : list Point) : PubPoly :=
  mkPubPoly grp b0 cs.

Definition Info (p : PubPoly) : option PointRef * list Point := (b p, commits p).

Definition PubPoly_Threshold (p : PubPoly) : Z := Z.of_nat (length (commits p)).

(** [type PubShare struct { I int; V abstract.Point }] *)
Record PubShare : Type := mkPubShare {
  pub_I : Z;
  pub_V : Point;
}.

(** The Horner loop of [PubPoly.Eval]:
    [pv.Mul(pv, xi); pv.Add(pv, p.commits[j])]. *)
Definition horner_pub (cs : list Point) (xi : Scalar) : Point :=
  foldr (fun c pv => PAdd (PMul (Some pv) xi) c) Null cs.

Definition PubPoly_Eval (p : PubPoly) (i : Z) : PubShare :=
  mkPubShare i (horner_pub (commits p) (xcoord i)).

(** Go's [==] on two [abstract.Point] interface values. *)
Definition iface_eq (x y : option PointRef) : bool :=
  match x, y with
  | None, None => true
  | Some rx, Some ry => (addr rx =? addr ry)%N
  | _, _ => false
  end.

Definition PubPoly_Add (p q : PubPoly) : res PubPoly :=
  if negb (bool_decide (pub_g p = pub_g q)) then Err (errorsNew "Non-matching groups")
  else if negb (iface_eq (b p) (b q)) then Err (errorsNew "Non-matching base points")
  else if negb (PubPoly_Threshold p =? PubPoly_Threshold q)
  then Err (errorsNew "Non-matching number of coefficients")
  else Ok (mkPubPoly (pub_g p) (b p) (zip_with PAdd (commits p) (commits q))).

(** [Check]: [pv := p.Eval(s.I); ps := p.g.Point().Mul(p.b, s.V);
    return pv.V.Equal(ps)]. *)
Definition Check (p : PubPoly) (s : PriShare) : bool :=
  let pv := PubPoly_Eval p (I s) in
  let ps := PMul (base_arg (b p)) (V s) in
  PEqual (pub_V pv) ps.

Definition errNotEnoughShares : error :=
  errorsNew "Not enough shares to reconstruct secret".

(** The loop of [xCoords], [fuel] iterations left, at index [i] with [c]
    coordinates set so far.  The [break] leaves the loop right after the
    [t]-th coordinate is stored. *)
Fixpoint xCoords_loop (t : Z) (isNotNil : Z -> bool) (fuel : nat) (i c : Z)
    (x : list (option Scalar)) : Z * list (option Scalar) :=
  match fuel with
  | O => (c, x)
  | S fuel' =>
      if isNotNil i then
        let x' := <[Z.to_nat i := Some (xcoord i)]> x in
        let c' := c + 1 in
        if c' >=? t then (c', x')
        else xCoords_loop t isNotNil fuel' (i + 1) c' x'
      else xCoords_loop t isNotNil fuel' (i + 1) c x
  end.

Definition xCoords (t n : Z) (isNotNil : Z -> bool) : res (list (option Scalar)) :=
  if n <? 0 then Panic
  else
    let '(c, x) :=
      xCoords_loop t isNotNil (Z.to_nat n) 0 0 (replicate (Z.to_nat n) None) in
    if c <? t then Err errNotEnoughShares else Ok x.

(** The inner loop of [RecoverSecret], [for j := range x], over the rest
    [xs] of [x] from index [j]. *)
Fixpoint lagrange_inner (i : nat) (xi : Scalar) (j : nat) (xs : list (option Scalar))
    (num den : Scalar) : Scalar * Scalar :=
  match xs with
  | [] => (num, den)
  | xj :: xs' =>
      match xj with
      | Some xj' =>
          if (j =? i)%nat then lagrange_inner i xi (S j) xs' num den
          else lagrange_inner i xi (S j) xs' (num * xj')%S (den * (xj' - xi))%S
      | None => lagrange_inner i xi (S j) xs' num den
      end
  end.

(** The outer loop, [for i := range x], over the rest [xs] of [x] from index
    [i]; [shares[i].V] dereferences the share. *)
Fixpoint lagrange_outer (x : list (option Scalar)) (shares : list (option PriShare))
    (i : nat) (xs : list (option Scalar)) (acc : Scalar) : res Scalar :=
  match xs with
  | [] => Ok acc
  | None :: xs' => lagrange_outer x shares (S i) xs' acc
  | Some xi :: xs' =>
      match shares !! i with
      | Some (Some s) =>
          let '(num, den) := lagrange_inner i xi 0 x (V s) 1%S in
          lagrange_outer x shares (S i) xs' (acc + num / den)%S
      | _ => Panic
      end
  end.

(** [isNotNil := func(i int) bool { return i < len(shares) && shares[i] != nil }] *)
Definition isNotNil (shares : list (option PriShare)) (i : Z) : bool :=
  (i <? Z.of_nat (length shares)) &&
  match shares !! Z.to_nat i with
  | Some (Some _) => true
  | _ => false
  end.

Definition RecoverSecret (grp : Group) (shares : list (option PriShare)) (t : Z)
  : res Scalar :=
  x ← xCoords t (Z.of_nat (length shares)) (isNotNil shares);
  lagrange_outer x shares 0 x 0%S.

(** [Shares]: [shares[i] = p.Eval(i)] for [0 <= i < n], as for [PriPoly]. *)
Definition PubPoly_Shares (p : PubPoly) (n : Z) : res (list (option PubShare)) :=
  if n <? 0 then Panic
  else Ok ((fun i : nat => Some (PubPoly_Eval p (Z.of_nat i))) <$> seq 0 (Z.to_nat n)).

(** [GetCommit] reads [p.commits[0]]. *)
Definition GetCommit (p : PubPoly) : res Point :=
  match commits p with
  | c0 :: _ => Ok c0
  | [] => Panic
  end.

(** The loop of both [Equal] methods,
    [for i := 0; i < p.Threshold(); i++ { if !p[i].Equal(q[i]) { return false } }],
    over the rest of the two slices from index [i]: it runs along [p], and
    reading [q[i]] past the end of [q] panics. *)
Fixpoint equal_loop {A : Type} (equal : A -> A -> bool) (ps qs : list A) : res bool :=
  match ps with
  | [] => Ok true
  | c :: ps' =>
      match qs with
      | [] => Panic
      | d :: qs' => if negb (equal c d) then Ok false else equal_loop equal ps' qs'
      end
  end.

(** [abstract.Scalar.Equal] and [abstract.Group.String], which only the
    [Equal] methods use. *)
Class Equality : Type := {
  SEqual : Scalar -> Scalar -> bool;
  GroupString : Group -> string;
}.
Context `{Equality}.

Definition PriPoly_Equal (p q : PriPoly) : res bool :=
  if negb (bool_decide (GroupString (g p) = GroupString (g q))) then Ok false
  else equal_loop SEqual (coeffs p) (coeffs q).

Definition PubPoly_Equal (p q : PubPoly) : res bool :=
  if negb (bool_decide (GroupString (pub_g p) = GroupString (pub_g q))) then Ok false
  else equal_loop PEqual (commits p) (commits q).

(** The outer loop of [RecoverCommit] over the rest [xs] of [x] from index
    [i]: [num.One(); den.One()], the inner loop of [RecoverSecret], then
    [Tmp.Mul(shares[i].V, num.Div(num, den)); Acc.Add(Acc, Tmp)]. *)
Fixpoint commit_outer (x : list (option Scalar)) (shares : list (option PubShare))
    (i : nat) (xs : list (option Scalar)) (Acc : Point) : res Point :=
  match xs with
  | [] => Ok Acc
  | None :: xs' => commit_outer x shares (S i) xs' Acc
  | Some xi :: xs' =>
      match shares !! i with
      | Some (Some s) =>
          let '(num, den) := lagrange_inner i xi 0 x 1%S 1%S in
          commit_outer x shares (S i) xs' (PAdd Acc (PMul (Some (pub_V s)) (num / den)%S))
      | _ => Panic
      end
  end.

(** The closure [isNotNil] of [RecoverCommit], over public shares. *)
Definition isNotNil_pub (shares : list (option PubShare)) (i : Z) : bool :=
  (i <? Z.of_nat (length shares)) &&
  match shares !! Z.to_nat i with
  | Some (Some _) => true
  | _ => false
  end.

Definition RecoverCommit (grp : Group) (shares : list (option PubShare)) (t : Z)
  : res Point :=
  x ← xCoords t (Z.of_nat (length shares)) (isNotNil_pub shares);
  commit_outer x shares 0 x Null.

End defs.
End share.

(** ** Package vss *)

Module vss.
Section defs.
Context `{Suite}.

(** [type Deal struct].  The two share pointers are taken non-nil. *)
Record Deal : Type := mkDeal {
  SessionID : bytes;
  SecShare : share.PriShare;
  RndShare : share.PriShare;
  T : N;
  Commitments : list Point;
}.

(** [type EncryptedDeal struct] *)
Record EncryptedDeal : Type := mkEncryptedDeal {
  DHKey : Point;
  Enc_Signature : bytes;
  Nonce : bytes;
  Enc_Cipher : bytes;
}.

(** [type Response struct] *)
Record Response : Type := mkResponse {
  Resp_SessionID : bytes;
  Resp_Index : N;
  Approved : bool;
  Resp_Signature : bytes;
}.

(** [type Justification struct] *)
Record Justification : Type := mkJustification {
  Just_SessionID : bytes;
  Just_Index : N;
  Just_Deal : Deal;
  Just_Signature : bytes;
}.

(** [Deal.UnmarshalBinary] goes through package protobuf. *)
Class DealCodec : Type := {
  Deal_UnmarshalBinary : bytes -> res Deal;
}.
Context `{DealCodec}.

(** [type aggregator struct]; [responses] is a [map[uint32]*Response]. *)
Record aggregator : Type := mkAggregator {
  agg_dealer : Point;
  agg_verifiers : list Point;
  commits : list Point;
  responses : gmap N Response;
  sid : bytes;
  deal : option Deal;
  agg_t : Z;
  badDealer : bool;
}.

Definition newAggregator (dealer : Point) (verifiers commitments : list Point)
    (t : Z) (sid0 : bytes) : aggregator :=
  mkAggregator dealer verifiers commitments ∅ sid0 None t false.

(** [MinimumT]: [(n + 1) / 2] on [int]; the sum wraps around and the
    division truncates towards zero. *)
Definition MinimumT (n : Z) : Z := Z.quot (wrap64 (n + 1)) 2.

Definition validT (t : Z) (verifiers : list Point) : bool :=
  (t >=? 2) && (t <=? Z.of_nat (length verifiers)) && (Z.of_N (uint32 t) =? t).

Definition deriveH (verifiers : list Point) : Point :=
  let buf := concat (MarshalTo <$> verifiers) in
  let digest := Hash buf in
  PPick (Cipher digest).

Definition findPub (verifiers : list Point) (idx : N) : option Point :=
  let iidx := Z.of_N idx in
  if iidx >=? Z.of_nat (length verifiers) then None
  else verifiers !! Z.to_nat iidx.

(** [sessionID]; the error it returns is always nil. *)
Definition sessionID (dealer : Point) (verifiers commitments : list Point) (t : Z)
  : res bytes :=
  Ok (Hash (MarshalTo dealer ++ concat (MarshalTo <$> verifiers)
            ++ concat (MarshalTo <$> commitments) ++ le32 (uint32 t))).

Definition Response_Hash (r : Response) : bytes :=
  Hash (String.list_byte_of_string "response" ++ Resp_SessionID r
        ++ le32 (Resp_Index r) ++ bool_byte (Approved r)).

(** The checks of [VerifyDeal] that follow the bookkeeping of the deal. *)
Definition VerifyDeal_checks (a : aggregator) (d : Deal) : res unit :=
  if negb (validT (Z.of_N (T d)) (agg_verifiers a))
  then Err (errorsNew "vss: invalid t received in Deal")
  else if negb (bytes_Equal (sid a) (SessionID d))
  then Err (errorsNew "vss: find different sessionIDs from Deal")
  else
    let fi := SecShare d in
    let gi := RndShare d in
    if negb (share.I fi =? share.I gi)
    then Err (errorsNew "vss: not the same index for f and g share in Deal")
    else if (share.I fi <? 0) || (share.I fi >=? Z.of_nat (length (agg_verifiers a)))
    then Err (errorsNew "vss: index out of bounds in Deal")
    else
      let fig := PMul None (share.V fi) in
      let H := deriveH (agg_verifiers a) in
      let gih := PMul (Some H) (share.V gi) in
      let ci := PAdd fig gih in
      let commitPoly := share.NewPubPoly 0%N None (Commitments d) in
      let pubShare := share.PubPoly_Eval commitPoly (share.I fi) in
      if negb (PEqual ci (share.pub_V pubShare))
      then Err (errorsNew "vss: share does not verify against commitments in Deal")
      else Ok ().

(** [VerifyDeal]: a second deal under [inclusion] is refused untouched; the
    first deal seen is recorded, with its commitments and session id, before
    it is checked. *)
Definition VerifyDeal (a : aggregator) (d : Deal) (inclusion : bool)
  : aggregator * res unit :=
  if bool_decide (deal a ≠ None) && inclusion then (a, Err errDealAlreadyProcessed)
  else
    let a1 :=
      match deal a with
      | None =>
          mkAggregator (agg_dealer a) (agg_verifiers a) (Commitments d) (responses a)
            (SessionID d) (Some d) (agg_t a) (badDealer a)
      | Some _ => a
      end in
    (a1, VerifyDeal_checks a1 d).

Definition set_responses (a : aggregator) (m : gmap N Response) : aggregator :=
  mkAggregator (agg_dealer a) (agg_verifiers a) (commits a) m (sid a) (deal a)
    (agg_t a) (badDealer a).

Definition set_badDealer (a : aggregator) (flag : bool) : aggregator :=
  mkAggregator (agg_dealer a) (agg_verifiers a) (commits a) (responses a) (sid a)
    (deal a) (agg_t a) flag.

Definition addResponse (a : aggregator) (r : Response) : aggregator * res unit :=
  match findPub (agg_verifiers a) (Resp_Index r) with
  | None => (a, Err (errorsNew "vss: index out of bounds in Complaint"))
  | Some _ =>
      match responses a !! Resp_Index r with
      | Some _ => (a, Err (errorsNew "vss: already existing response from same origin"))
      | None => (set_responses a (<[Resp_Index r := r]> (responses a)), Ok ())
      end
  end.

Definition verifyResponse (a : aggregator) (r : Response) : aggregator * res unit :=
  if negb (bytes_Equal (Resp_SessionID r) (sid a))
  then (a, Err (errorsNew "vss: receiving inconsistent sessionID in response"))
  else
    match findPub (agg_verifiers a) (Resp_Index r) with
    | None => (a, Err (errorsNew "vss: index out of bounds in response"))
    | Some pub =>
        match VerifySchnorr pub (Response_Hash r) (Resp_Signature r) with
        | Some err => (a, Err err)
        | None => addResponse a r
        end
    end.

Definition approve (r : Response) : Response :=
  mkResponse (Resp_SessionID r) (Resp_Index r) true (Resp_Signature r).

(** [verifyJustification]; [r.Approved = true] writes through the pointer
    stored in the map. *)
Definition verifyJustification (a : aggregator) (j : Justification)
  : aggregator * res unit :=
  match findPub (agg_verifiers a) (Just_Index j) with
  | None => (a, Err (errorsNew "vss: index out of bounds in justification"))
  | Some _ =>
      match responses a !! Just_Index j with
      | None => (a, Err (errorsNew "vss: no complaints received for this justification"))
      | Some r =>
          if Approved r
          then (a, Err (errorsNew "vss: justification received for an approval"))
          else
            match VerifyDeal a (Just_Deal j) false with
            | (a1, Ok _) =>
                (set_responses a1 (<[Just_Index j := approve r]> (responses a1)), Ok ())
            | (a1, Err e) => (set_badDealer a1 true, Err e)
            | (a1, Panic) => (a1, Panic)
            end
      end
  end.

(** The counting loops [for _, r := range a.responses]. *)
Definition count_approvals (m : gmap N Response) : Z :=
  map_fold (fun _ r app => if Approved r then app + 1 else app) 0 m.

Definition count_complaints (m : gmap N Response) : Z :=
  map_fold (fun _ r comps => if negb (Approved r) then comps + 1 else comps) 0 m.

(** Methods on the pointer [*aggregator]; [None] is the nil pointer.
    [EnoughApprovals] reads [a.responses] at once. *)
Definition EnoughApprovals (p : option aggregator) : res bool :=
  match p with
  | None => Panic
  | Some a => Ok (count_approvals (responses a) >=? agg_t a)
  end.

Definition DealCertified (p : option aggregator) : res bool :=
  match p with
  | None => Ok false
  | Some a =>
      let comps := count_complaints (responses a) in
      let tooMuchComplaints := (comps >=? agg_t a) || badDealer a in
      enough ← EnoughApprovals p;
      Ok (enough && negb tooMuchComplaints)
  end.

(** [type Verifier struct]; [agg] is the embedded [*aggregator]. *)
Record Verifier : Type := mkVerifier {
  longterm : Scalar;
  pub : Point;
  dealer : Point;
  index : Z;
  verifiers : list Point;
  hkdfContext : bytes;
  agg : option aggregator;
}.

Definition set_agg (v : Verifier) (p : option aggregator) : Verifier :=
  mkVerifier (longterm v) (pub v) (dealer v) (index v) (verifiers v) (hkdfContext v) p.

(** The search loop of [NewVerifier] from index [i]. *)
Fixpoint find_index (pub0 : Point) (i : Z) (vs : list Point) : option Z :=
  match vs with
  | [] => None
  | v :: vs' => if PEqual v pub0 then Some i else find_index pub0 (i + 1) vs'
  end.

Definition NewVerifier (longterm0 : Scalar) (dealerKey : Point) (verifiers0 : list Point)
  : res Verifier :=
  let pub0 := PMul None longterm0 in
  match find_index pub0 0 verifiers0 with
  | None => Err (errorsNew "vss: public key not found in the list of verifiers")
  | Some i =>
      Ok (mkVerifier longterm0 pub0 dealerKey i verifiers0
            (context dealerKey verifiers0) None)
  end.

Definition decryptDeal (v : Verifier) (e : EncryptedDeal) : res Deal :=
  ephBuff ← MarshalBinary (DHKey e);
  _ ← from_error (VerifySchnorr (dealer v) ephBuff (Enc_Signature e));
  let pre := dhExchange (longterm v) (DHKey e) in
  gcm ← newAEAD pre (hkdfContext v);
  decrypted ← Open gcm (Nonce e) (Enc_Cipher e) (hkdfContext v);
  Deal_UnmarshalBinary decrypted.

Definition ProcessEncryptedDeal (v : Verifier) (e : EncryptedDeal)
  : Verifier * res Response :=
  match decryptDeal v e with
  | Err err => (v, Err err)
  | Panic => (v, Panic)
  | Ok d =>
      if negb (share.I (SecShare d) =? index v)
      then (v, Err (errorsNew "vss: verifier got wrong index from deal"))
      else
        let t := Z.of_N (T d) in
        match sessionID (dealer v) (verifiers v) (Commitments d) t with
        | Err err => (v, Err err)
        | Panic => (v, Panic)
        | Ok sid' =>
            let a0 :=
              match agg v with
              | None =>
                  newAggregator (dealer v) (verifiers v) (Commitments d) t (SessionID d)
              | Some a => a
              end in
            let '(a1, verr) := VerifyDeal a0 d true in
            let r := mkResponse sid' (uint32 (index v)) (is_Ok verr) [] in
            let v1 := set_agg v (Some a1) in
            match verr with
            | Panic => (v1, Panic)
            | Err errDealAlreadyProcessed => (v1, Err errDealAlreadyProcessed)
            | _ =>
                match Schnorr (longterm v) (Response_Hash r) with
                | Err err => (v1, Err err)
                | Panic => (v1, Panic)
                | Ok sig =>
                    let r' := mkResponse sid' (uint32 (index v)) (is_Ok verr) sig in
                    let '(a2, aerr) := addResponse a1 r' in
                    (set_agg v (Some a2), _ ← aerr; Ok r')
                end
            end
        end
  end.

(** A method of the embedded [*aggregator] called through the verifier: a
    nil pointer panics at the first field access. *)
Definition through_agg (v : Verifier) (f : aggregator -> aggregator * res unit)
  : Verifier * res unit :=
  match agg v with
  | None => (v, Panic)
  | Some a => let '(a', r) := f a in (set_agg v (Some a'), r)
  end.

Definition Verifier_ProcessResponse (v : Verifier) (resp : Response)
  : Verifier * res unit :=
  through_agg v (fun a => verifyResponse a resp).

Definition ProcessJustification (v : Verifier) (dr : Justification)
  : Verifier * res unit :=
  through_agg v (fun a => verifyJustification a dr).

(** [v.DealCertified()] and [v.EnoughApprovals()] are the promoted methods of
    the embedded pointer. *)
Definition Verifier_DealCertified (v : Verifier) : res bool := DealCertified (agg v).

Definition Verifier_EnoughApprovals (v : Verifier) : res bool := EnoughApprovals (agg v).

(** [type Dealer struct] *)
Record Dealer : Type := mkDealer {
  long : Scalar;
  d_pub : Point;
  secret : option Scalar;
  secretCommits : list Point;
  d_verifiers : list Point;
  d_hkdfContext : bytes;
  d_t : Z;
  d_sessionID : bytes;
  deals : list Deal;
  d_agg : option aggregator;
}.

(** [suite.Point()]: a fresh point object, at the next free address [heap]. *)
Definition new_point (heap : N) (P : Point) : PointRef * N :=
  (mkPointRef _ heap P, N.succ heap).

Definition errInvalidT (t : Z) : error :=
  errorsNew ("dealer: t " +:+ pretty t +:+ " invalid").

(** Modelled from the spec: [PubPoly.Add] of the revision of package share
    that vss.go imports ([gopkg.in/dedis/crypto.v0/share], whose
    [RecoverSecret] takes four arguments); the poly.go embedded in [share]
    above is another revision, whose [RecoverSecret] takes three.
    "[p.add(q)] requires identical groups and identical [t]; returns a new
    polynomial with coefficient-wise sum.  Fails with a [MismatchedGroup] or
    [MismatchedThreshold] error otherwise", [PubPoly] mirroring [PriPoly]
    with points.  The base of the sum, of which the specification says
    nothing and which [NewDealer] does not read, is the receiver's. *)
Definition linked_PubPoly_Add (p q : share.PubPoly) : res share.PubPoly :=
  if negb (bool_decide (share.pub_g p = share.pub_g q))
  then Err (errorsNew "MismatchedGroup")
  else if negb (share.PubPoly_Threshold p =? share.PubPoly_Threshold q)
  then Err (errorsNew "MismatchedThreshold")
  else Ok (share.mkPubPoly (share.pub_g p) (share.b p)
             (zip_with PAdd (share.commits p) (share.commits q))).

(** [NewDealer].  [H] and the standard base are point objects allocated
    here, by [deriveH] ([suite.Point().Pick]) and by
    [d.suite.Point().Base()].  [F.Add(G)] is the [Add] of the imported
    revision; [NewPriPoly], [Commit], [Info] and [Eval] are those of [share]
    above, where they do what the specification says of them. *)
Definition NewDealer (suite : Group) (longterm0 : Scalar) (secret0 : option Scalar)
    (verifiers0 : list Point) (r : Stream) (t : Z) (heap : N) : res Dealer :=
  if negb (validT t verifiers0) then Err (errInvalidT t)
  else
    let '(H, heap1) := new_point heap (deriveH verifiers0) in
    '(f, r1) ← share.NewPriPoly suite t secret0 r;
    '(g, r2) ← share.NewPriPoly suite t None r1;
    let pub0 := PMul None longterm0 in
    let '(B, heap2) := new_point heap1 Base in
    let F := share.Commit f (Some B) in
    let secretCommits0 := (share.Info F).2 in
    let G := share.Commit g (Some H) in
    C ← linked_PubPoly_Add F G;
    let commitments := (share.Info C).2 in
    sid0 ← sessionID pub0 verifiers0 commitments t;
    let a := newAggregator pub0 verifiers0 commitments t sid0 in
    let deals0 :=
      (fun i : nat =>
         mkDeal sid0 (share.PriPoly_Eval f (Z.of_nat i)) (share.PriPoly_Eval g (Z.of_nat i))
           (uint32 t) commitments) <$> seq 0 (length verifiers0) in
    Ok (mkDealer longterm0 pub0 secret0 secretCommits0 verifiers0
          (context pub0 verifiers0) t sid0 deals0 (Some a)).

Definition set_d_agg (d : Dealer) (p : option aggregator) : Dealer :=
  mkDealer (long d) (d_pub d) (secret d) (secretCommits d) (d_verifiers d)
    (d_hkdfContext d) (d_t d) (d_sessionID d) (deals d) p.

(** [PlaintextDeal]: the bounds check looks at the upper end only; a
    negative [i] reaches [d.deals[i]]. *)
Definition PlaintextDeal (d : Dealer) (i : Z) : res Deal :=
  if i >=? Z.of_nat (length (deals d))
  then Err (errorsNew "dealer: PlaintextDeal given wrong index")
  else if i <? 0 then Panic
  else
    match deals d !! Z.to_nat i with
    | Some dl => Ok dl
    | None => Panic
    end.

(** [d.EnoughApprovals()] and [d.DealCertified()] are the promoted methods
    of the embedded pointer; [||] does not evaluate its second operand when
    the first is true. *)
Definition not_certified (p : option aggregator) : res bool :=
  enough ← EnoughApprovals p;
  if negb enough then Ok true
  else certified ← DealCertified p; Ok (negb certified).



(** [Verifier.Deal]: [v.deal] is the field of the embedded aggregator. *)
Definition Verifier_Deal (v : Verifier) : res (option Deal) :=
  refuse ← not_certified (agg v);
  if refuse : bool then Ok None
  else
    match agg v with
    | Some a => Ok (deal a)
    | None => Panic
    end.

(** [Verifier.SessionID] reads [v.sid] through the embedded pointer. *)
Definition Verifier_SessionID (v : Verifier) : res bytes :=
  match agg v with
  | Some a => Ok (sid a)
  | None => Panic
  end.

(** The sending side, outside vss.go: [Deal.MarshalBinary] (package
    protobuf; the pair Go returns, buffer and error) and the sealing half of
    [cipher.AEAD]. *)
Class Sealing : Type := {
  Deal_MarshalBinary : Deal -> bytes * option error;
  NonceSize : AEAD -> nat;
  Seal : AEAD -> bytes -> bytes -> bytes -> bytes;
}.
Context `{Sealing}.

(** [Justification.Hash]; the error of [MarshalBinary] is dropped. *)
Definition Justification_Hash (j : Justification) : bytes :=
  Hash (String.list_byte_of_string "justification" ++ Just_SessionID j
        ++ le32 (Just_Index j) ++ (Deal_MarshalBinary (Just_Deal j)).1).

(** [Dealer.ProcessResponse]; [d.verifyResponse] goes through the embedded
    aggregator pointer. *)
Definition Dealer_ProcessResponse (d : Dealer) (r : Response)
  : Dealer * res (option Justification) :=
  match d_agg d with
  | None => (d, Panic)
  | Some a =>
      let '(a1, verr) := verifyResponse a r in
      let d1 := set_d_agg d (Some a1) in
      match verr with
      | Err e => (d1, Err e)
      | Panic => (d1, Panic)
      | Ok _ =>
          if Approved r then (d1, Ok None)
          else
            match deals d !! N.to_nat (Resp_Index r) with
            | None => (d1, Panic)
            | Some dl =>
                let j := mkJustification (d_sessionID d) (Resp_Index r) dl [] in
                match Schnorr (long d) (Justification_Hash j) with
                | Err e => (d1, Err e)
                | Panic => (d1, Panic)
                | Ok sig =>
                    (d1, Ok (Some (mkJustification (d_sessionID d) (Resp_Index r) dl sig)))
                end
            end
      end
  end.

(** [Dealer.EncryptedDeal].  The ephemeral key is drawn from the
    package-level [random.Stream], threaded here as [rnd]; the error of
    [dhPublic.MarshalBinary()] is dropped, a failed encoding leaving the nil
    buffer; [d.deals[i]] is indexed by [i] itself, after the bounds check on
    [uint32(i)]. *)
Definition Dealer_EncryptedDeal (d : Dealer) (i : Z) (rnd : Stream)
  : res EncryptedDeal * Stream :=
  match findPub (d_verifiers d) (uint32 i) with
  | None => (Err (errorsNew "dealer: wrong index to generate encrypted deal"), rnd)
  | Some vPub =>
      let '(dhSecret, rnd1) := SPick rnd in
      let dhPublic := PMul None dhSecret in
      (match MarshalBinary dhPublic with
       | Panic => Panic
       | mb =>
           let dhPublicBuff := match mb with Ok buff => buff | _ => [] end in
           signature ← Schnorr (long d) dhPublicBuff;
           let pre := dhExchange dhSecret vPub in
           gcm ← newAEAD pre (d_hkdfContext d);
           let nonce := replicate (NonceSize gcm) x00 in
           if (i <? 0) || (i >=? Z.of_nat (length (deals d))) then Panic
           else
             match deals d !! Z.to_nat i with
             | None => Panic
             | Some dl =>
                 let '(dealBuff, err) := Deal_MarshalBinary dl in
                 _ ← from_error err;
                 let encrypted := Seal gcm nonce dealBuff (d_hkdfContext d) in
                 Ok (mkEncryptedDeal dhPublic signature nonce encrypted)
             end
       end, rnd1)
  end.

(** The loop of [EncryptedDeals], [for i := range d.verifiers], over the
    indices [ixs] still to serve. *)
Fixpoint EncryptedDeals_loop (d : Dealer) (ixs : list nat) (rnd : Stream)
  : res (list EncryptedDeal) * Stream :=
  match ixs with
  | [] => (Ok [], rnd)
  | i :: ixs' =>
      match Dealer_EncryptedDeal d (Z.of_nat i) rnd with
      | (Ok e, rnd1) =>
          let '(rest, rnd2) := EncryptedDeals_loop d ixs' rnd1 in
          (es ← rest; Ok (e :: es), rnd2)
      | (Err err, rnd1) => (Err err, rnd1)
      | (Panic, rnd1) => (Panic, rnd1)
      end
  end.

Definition EncryptedDeals (d : Dealer) (rnd : Stream)
  : res (list EncryptedDeal) * Stream :=
  EncryptedDeals_loop d (seq 0 (length (d_verifiers d))) rnd.

End defs.
End vss.

(** ** A small concrete suite

    The prime field of order 251, which is also its own group (additive,
    with base point 1): scalars and points fit in one byte.  The hash is
    the identity on byte strings, a signature is the signer's public key
    followed by the message, and the sealed form of a plaintext is the
    shared key followed by the plaintext.  None of this is secure; it makes
    every definition above run on concrete inputs. *)

Module toy.

Definition q : Z := 251.

Record Fq : Type := mkFq {
  val : Z;
  canon : val mod q = val;
}.

Definition of_Z (z : Z) : Fq := mkFq (z mod q) (Zmod_mod z q).

Definition add (a b : Fq) : Fq := of_Z (val a + val b).
Definition sub (a b : Fq) : Fq := of_Z (val a - val b).
Definition neg (a : Fq) : Fq := of_Z (- val a).
Definition mul (a b : Fq) : Fq := of_Z (val a * val b).
(** The inverse, by search among the nonzero residues. *)
Fixpoint find_inverse (x : Z) (candidates : list Z) : Z :=
  match candidates with
  | [] => 0
  | z :: rest => if (z * x) mod q =? 1 then z else find_inverse x rest
  end.

Definition inv (a : Fq) : Fq := of_Z (find_inverse (val a) (seqZ 1 (q - 1))).
Definition div (a b : Fq) : Fq := mul a (inv b).
Definition eqb (a b : Fq) : bool := val a =? val b.

Definition byte_val (c : byte) : Z := Z.of_N (Byte.to_N c).
Definition marshal (a : Fq) : bytes := [byte_of_Z (val a)].
Definition unmarshal (c : byte) : Fq := of_Z (byte_val c).

(** A stream is the list of the values still to be drawn. *)
Definition pick (s : list Z) : Fq * list Z :=
  match s with
  | [] => (of_Z 0, [])
  | z :: s' => (of_Z z, s')
  end.

Definition errBadSignature : error := errorsNew "schnorr: invalid signature".
Definition errBadCipher : error := errorsNew "cipher: message authentication failed".
Definition errBadEncoding : error := errorsNew "protobuf: bad encoding".

Definition sign (x : Fq) (msg : bytes) : res bytes := Ok (marshal x ++ msg).

Definition verify (X : Fq) (msg sig : bytes) : option error :=
  if bool_decide (sig = marshal X ++ msg) then None else Some errBadSignature.

Definition seal (key : Fq) (ad plaintext : bytes) : bytes :=
  marshal key ++ plaintext.

Definition open (gcm : Fq * bytes) (nonce ciphertext ad : bytes) : res bytes :=
  match ciphertext with
  | k :: plaintext =>
      if bool_decide ([k] = marshal gcm.1) && bool_decide (ad = gcm.2)
      then Ok plaintext else Err errBadCipher
  | [] => Err errBadCipher
  end.

Global Instance suite : Suite := {|
  Scalar := Fq;
  Point := Fq;
  Stream := list Z;
  Zero := of_Z 0;
  One := of_Z 1;
  SAdd := add;
  SSub := sub;
  SNeg := neg;
  SMul := mul;
  SDiv := div;
  SInv := inv;
  SetInt64 := of_Z;
  SPick := pick;
  Null := of_Z 0;
  Base := of_Z 1;
  PAdd := add;
  PMul := fun b0 s => match b0 with Some P => mul P s | None => mul (of_Z 1) s end;
  PEqual := eqb;
  PPick := fun s => (pick s).1;
  MarshalTo := marshal;
  MarshalBinary := fun P => Ok (marshal P);
  Hash := fun bs => bs;
  Cipher := fun digest => byte_val <$> digest;
  Schnorr := sign;
  VerifySchnorr := verify;
  dhExchange := fun s P => mul P s;
  AEAD := (Fq * bytes)%type;
  newAEAD := fun pre ctx => Ok (pre, ctx);
  Open := open;
  context := fun X vs => marshal X ++ concat (marshal <$> vs);
|}.

(** The wire form of a deal: the length of the session id, the session id,
    then one byte each for the indices and values of the two shares and for
    the threshold, then the commitments. *)
Definition encode (d : vss.Deal) : bytes :=
  byte_of_Z (Z.of_nat (length (vss.SessionID d))) :: vss.SessionID d
  ++ [byte_of_Z (share.I (vss.SecShare d)); byte_of_Z (val (share.V (vss.SecShare d)));
      byte_of_Z (share.I (vss.RndShare d)); byte_of_Z (val (share.V (vss.RndShare d)));
      byte_of_Z (Z.of_N (vss.T d))]
  ++ concat (marshal <$> vss.Commitments d).

Definition decode (bs : bytes) : res vss.Deal :=
  match bs with
  | [] => Err errBadEncoding
  | n :: rest =>
      let k := Z.to_nat (byte_val n) in
      match drop k rest with
      | secI :: secV :: rndI :: rndV :: t :: cs =>
          Ok (vss.mkDeal (take k rest)
                (share.mkPriShare (byte_val secI) (unmarshal secV))
                (share.mkPriShare (byte_val rndI) (unmarshal rndV))
                (Z.to_N (byte_val t))
                (unmarshal <$> cs))
      | _ => Err errBadEncoding
      end
  end.

Global Instance codec : vss.DealCodec := {| vss.Deal_UnmarshalBinary := decode |}.

(** Scalars are compared by value, a group prints its handle, and the
    sealing side mirrors [open] with an empty nonce. *)
Global Instance equality : share.Equality := {|
  share.SEqual := eqb;
  share.GroupString := fun grp => pretty grp;
|}.

Global Instance sealing : vss.Sealing := {|
  vss.Deal_MarshalBinary := fun d => (encode d, None);
  vss.NonceSize := fun _ => 0%nat;
  vss.Seal := fun gcm nonce plaintext ad => seal gcm.1 ad plaintext;
|}.

End toy.

(** ** A run on the small suite

    Two verifiers with long-term keys 2 and 3, a dealer with key 5 who shares
    the secret 7 with threshold 2 through [f = 7 + 4 X], blinded by
    [g = 9 + 6 X]. *)

Module example.
Import toy.

Definition verifiers : list Fq := [of_Z 2; of_Z 3].

Definition dealer_pub : Fq := of_Z 5.

Definition f : share.PriPoly := share.mkPriPoly 0 [of_Z 7; of_Z 4].

Definition g : share.PriPoly := share.mkPriPoly 0 [of_Z 9; of_Z 6].

(** The joint commitments [f_k * B + g_k * H], with [H = deriveH verifiers]. *)
Definition commitments : list Fq :=
  zip_with add
    (share.commits (share.Commit f None))
    (share.commits (share.Commit g (Some (mkPointRef _ 0 (vss.deriveH verifiers))))).

Definition session : bytes :=
  Hash (marshal dealer_pub ++ concat (marshal <$> verifiers)
        ++ concat (marshal <$> commitments) ++ le32 2).

(** The deal of verifier 0, and two variants of it: one under a session id
    of the dealer's invention, one with a share that does not match the
    commitments. *)
Definition deal0 : vss.Deal :=
  vss.mkDeal session (share.PriPoly_Eval f 0) (share.PriPoly_Eval g 0) 2 commitments.

Definition foreign_sid : bytes := [xff].

Definition deal0_foreign_sid : vss.Deal :=
  vss.mkDeal foreign_sid (share.PriPoly_Eval f 0) (share.PriPoly_Eval g 0) 2 commitments.

Definition deal0_bad_share : vss.Deal :=
  vss.mkDeal session (share.mkPriShare 0 (of_Z 12)) (share.PriPoly_Eval g 0) 2 commitments.

(** The encrypted form of a deal for verifier 0: the ephemeral key 4, signed
    by the dealer, and the deal sealed under the shared key [4 * 2]. *)
Definition encrypt (d : vss.Deal) : vss.EncryptedDeal :=
  vss.mkEncryptedDeal (of_Z 4) (marshal dealer_pub ++ marshal (of_Z 4)) []
    (seal (mul (of_Z 4) (of_Z 2)) [] (encode d)).

(** Verifier 0, as [NewVerifier] returns it. *)
Definition v0 : vss.Verifier :=
  vss.mkVerifier (of_Z 2) (mul (of_Z 1) (of_Z 2)) dealer_pub 0 verifiers
    (marshal dealer_pub ++ concat (marshal <$> verifiers)) None.

(** Verifier 0 after the deal with the bad share: it holds a complaint. *)
Definition v0_complained : vss.Verifier :=
  (vss.ProcessEncryptedDeal v0 (encrypt deal0_bad_share)).1.

Definition justification (d : vss.Deal) : vss.Justification :=
  vss.mkJustification session 0 d [].

(** An aggregator of the run, new and after a complaint of verifier 0. *)
Definition agg_new : vss.aggregator :=
  vss.newAggregator dealer_pub verifiers commitments 2 session.

Definition complaint0 : vss.Response := vss.mkResponse session 0 false [].

Definition agg_complained : vss.aggregator := (vss.addResponse agg_new complaint0).1.

(** An aggregator holding the approvals of both verifiers. *)
Definition agg_approved : vss.aggregator :=
  vss.set_responses agg_new
    (<[0%N := vss.mkResponse session 0 true []]>
       (<[1%N := vss.mkResponse session 1 true []]> ∅)).

(** The aggregator of verifier 0 after its complaint, and the complaint
    it stores. *)
Definition agg_v0 : vss.aggregator := default agg_new (vss.agg v0_complained).

Definition complaint_v0 : vss.Response :=
  default complaint0 (vss.responses agg_v0 !! 0%N).

Definition errShareMismatch : error :=
  errorsNew "vss: share does not verify against commitments in Deal".

(** The shares of [f] for three holders, the second one missing. *)
Definition shares3 : list (option share.PriShare) :=
  (fun i : nat => Some (share.PriPoly_Eval f (Z.of_nat i))) <$> seq 0 3.

Definition keep3 : list bool := [true; false; true].

(** The sum of [f] and [g], and the constant polynomial with the secret
    of [f]. *)
Definition f_plus_g : share.PriPoly := share.mkPriPoly 0 [of_Z 16; of_Z 10].

Definition f_const : share.PriPoly := share.mkPriPoly 0 [of_Z 7].

(** The public shares of the commitment of [f] to the standard base, and
    the private shares with their index fields erased. *)
Definition pub_shares3 : list (option share.PubShare) :=
  (fun i : nat => Some (share.PubPoly_Eval (share.Commit f None) (Z.of_nat i))) <$> seq 0 3.

Definition shares3_unlabelled : list (option share.PriShare) :=
  (fun i : nat =>
     Some (share.mkPriShare 0 (share.V (share.PriPoly_Eval f (Z.of_nat i))))) <$> seq 0 3.

(** The coordinates [xCoords] sets for the shares 0 and 2. *)
Definition x3 : list (option Fq) := [Some (of_Z 1); None; Some (of_Z 3)].

(** The approvals of the two verifiers, signed, and an aggregator that
    received both. *)
Definition approval (i : N) (key : Fq) : vss.Response :=
  vss.mkResponse session i true
    (marshal key ++ vss.Response_Hash (vss.mkResponse session i true [])).

Definition agg_both : vss.aggregator :=
  (vss.verifyResponse (vss.verifyResponse agg_new (approval 0 (of_Z 2))).1
     (approval 1 (of_Z 3))).1.

(** The aggregator after the justification of the complaint of verifier 0. *)
Definition agg_justified : vss.aggregator :=
  (vss.verifyJustification agg_complained (justification deal0)).1.

(** The complaint of verifier 0, signed. *)
Definition complaint0_signed : vss.Response :=
  vss.mkResponse session 0 false
    (marshal (of_Z 2) ++ vss.Response_Hash (vss.mkResponse session 0 false [])).

(** The deal of verifier 1, and the dealer as [NewDealer] returns it. *)
Definition deal1 : vss.Deal :=
  vss.mkDeal session (share.PriPoly_Eval f 1) (share.PriPoly_Eval g 1) 2 commitments.

Definition dealer0 : vss.Dealer :=
  vss.mkDealer (of_Z 5) dealer_pub (Some (of_Z 7))
    (share.commits (share.Commit f None)) verifiers
    (marshal dealer_pub ++ concat (marshal <$> verifiers)) 2 session
    [deal0; deal1] (Some agg_new).

(** What the dealer sends when the random stream yields 4, then 8. *)
Definition encrypted_deals : list vss.EncryptedDeal :=
  match (vss.EncryptedDeals dealer0 [4; 8]).1 with
  | Ok es => es
  | _ => []
  end.

(** Verifier 0 after the good deal, and the response it returned. *)
Definition v0_approved : vss.Verifier :=
  (vss.ProcessEncryptedDeal v0 (encrypt deal0)).1.

End example.

(** ** Vocabulary of the specification *)

(** The algebra of a prime-order group: the scalars are a field, and the
    scalar multiples of any base point follow the scalars. *)
Class SuiteLaws `{Suite} : Prop := {
  scalar_field : field_theory Zero One SAdd SMul SSub SNeg SDiv SInv eq;
  PAdd_PMul : forall b0 x y, PAdd (PMul b0 x) (PMul b0 y) = PMul b0 (x + y)%S;
  PMul_PMul : forall b0 x y, PMul (Some (PMul b0 x)) y = PMul b0 (x * y)%S;
  PMul_Zero : forall b0, PMul b0 0%S = Null;
  PEqual_eq : forall P Q, PEqual P Q = true <-> P = Q;
}.

(** The points are a commutative group on which the scalars act. *)
Class PointLaws `{Suite} : Prop := {
  PAdd_comm : forall P Q, PAdd P Q = PAdd Q P;
  PAdd_assoc : forall P Q R, PAdd P (PAdd Q R) = PAdd (PAdd P Q) R;
  PAdd_Null : forall P, PAdd Null P = P;
  PMul_PAdd : forall P Q x,
    PMul (Some (PAdd P Q)) x = PAdd (PMul (Some P) x) (PMul (Some Q) x);
}.

(** [Scalar.Equal] decides equality of scalars. *)
Class EqualityLaws `{Suite} `{!share.Equality} : Prop := {
  SEqual_eq : forall x y, share.SEqual x y = true <-> x = y;
}.

(** A signature made with a key verifies under its public key. *)
Class SchnorrLaws `{Suite} : Prop := {
  Schnorr_verifies : forall x msg sig,
    Schnorr x msg = Ok sig -> VerifySchnorr (PMul None x) msg sig = None;
}.

(** What the two ends of the encrypted channel rely on: the key exchange
    gives both ends the same point, and an AEAD opens what it sealed under
    the context it was made for. *)
Class ChannelLaws `{Suite} `{!vss.Sealing} : Prop := {
  dhExchange_sym : forall x y,
    dhExchange x (PMul None y) = dhExchange y (PMul None x);
  Open_Seal : forall pre ctx gcm nonce plaintext,
    newAEAD pre ctx = Ok gcm ->
    Open gcm nonce (vss.Seal gcm nonce plaintext ctx) ctx = Ok plaintext;
}.

Module spec.
Section defs.
Context `{Suite} `{!vss.DealCodec}.

(** The number of stored responses that are approvals, and that are
    complaints. *)
Definition approvals (m : gmap N vss.Response) : nat :=
  length (filter (fun kr : N * vss.Response => vss.Approved kr.2 = true) (map_to_list m)).

Definition complaints (m : gmap N vss.Response) : nat :=
  length (filter (fun kr : N * vss.Response => vss.Approved kr.2 = false) (map_to_list m)).

(** One call on an aggregator, whatever its arguments and its outcome. *)
Inductive agg_step : vss.aggregator -> vss.aggregator -> Prop :=
  | agg_step_VerifyDeal a d inclusion :
      agg_step a (vss.VerifyDeal a d inclusion).1
  | agg_step_addResponse a r :
      agg_step a (vss.addResponse a r).1
  | agg_step_verifyResponse a r :
      agg_step a (vss.verifyResponse a r).1
  | agg_step_verifyJustification a j :
      agg_step a (vss.verifyJustification a j).1.

(** The aggregator states of a run: those the calls lead to from a new
    aggregator. *)
Definition agg_reachable (a : vss.aggregator) : Prop :=
  exists dealer verifiers commitments t sid0,
    rtc agg_step (vss.newAggregator dealer verifiers commitments t sid0) a.

(** One call on a verifier, whatever its argument and its outcome. *)
Inductive step : vss.Verifier -> vss.Verifier -> Prop :=
  | step_ProcessEncryptedDeal v e :
      step v (vss.ProcessEncryptedDeal v e).1
  | step_ProcessResponse v r :
      step v (vss.Verifier_ProcessResponse v r).1
  | step_ProcessJustification v j :
      step v (vss.ProcessJustification v j).1.

(** The verifier states of a run: those the calls lead to from [NewVerifier]. *)
Definition reachable (v : vss.Verifier) : Prop :=
  exists longterm0 dealerKey verifiers0 v0,
    vss.NewVerifier longterm0 dealerKey verifiers0 = Ok v0 /\ rtc step v0 v.

(** Every stored response sits at the index of a verifier. *)
Definition indices_in_range (a : vss.aggregator) : Prop :=
  forall i r, vss.responses a !! i = Some r ->
    (Z.of_N i < Z.of_nat (length (vss.agg_verifiers a)))%Z.

(** The checks of a deal that do not involve its session id: the threshold,
    the indices of the two shares, and the shares against the commitments. *)
Definition shares_verify (verifiers : list Point) (d : vss.Deal) : bool :=
  let fi := vss.SecShare d in
  let gi := vss.RndShare d in
  vss.validT (Z.of_N (vss.T d)) verifiers
  && (share.I fi =? share.I gi)%Z
  && negb ((share.I fi <? 0)%Z || (share.I fi >=? Z.of_nat (length verifiers))%Z)
  && PEqual (PAdd (PMul None (share.V fi))
               (PMul (Some (vss.deriveH verifiers)) (share.V gi)))
       (share.pub_V (share.PubPoly_Eval (share.NewPubPoly 0%N None (vss.Commitments d))
                       (share.I fi))).

(** *** Reconstruction, in the words of the specification *)

(** The non-nil entries of a share list from position [i] on, each with its
    position, left to right. *)
Fixpoint entries_from (i : nat) (shares : list (option share.PriShare))
  : list (nat * share.PriShare) :=
  match shares with
  | [] => []
  | Some s :: rest => (i, s) :: entries_from (S i) rest
  | None :: rest => entries_from (S i) rest
  end.

Definition entries (shares : list (option share.PriShare)) : list (nat * share.PriShare) :=
  entries_from 0 shares.

Definition count_non_nil (shares : list (option share.PriShare)) : nat :=
  length (entries shares).

(** "Collect the first t non-null entries." *)
Definition collected (t : nat) (shares : list (option share.PriShare))
  : list (nat * share.PriShare) :=
  take t (entries shares).

(** The x-coordinate [x_k = k + 1] of position [k], as a scalar. *)
Definition x_of (k : nat) : Scalar := share.xcoord (Z.of_nat k).

Definition product (l : list Scalar) : Scalar := foldr SMul 1%S l.

Definition total (l : list Scalar) : Scalar := foldr SAdd 0%S l.

(** [L_i(0)]: the product of [x_j] over the collected [j] other than [i],
    divided once by the product of [x_j - x_i]. *)
Definition basis_at_zero (collected_positions : list nat) (i : nat) : Scalar :=
  let others := filter (fun j => j <> i) collected_positions in
  (product (x_of <$> others) / product ((fun j => x_of j - x_of i) <$> others))%S.

(** The sum of [s_i.v * L_i(0)] over the collected shares. *)
Definition interpolate_at_zero (pts : list (nat * share.PriShare)) : Scalar :=
  total ((fun '(i, s) => (share.V s * basis_at_zero pts.*1 i)%S) <$> pts).

(** A share list built from [p.Shares(n)]: entry [i] is kept or replaced by
    nil as [keep] says. *)
Definition masked (keep : list bool) (shares : list (option share.PriShare))
  : list (option share.PriShare) :=
  zip_with (fun (k : bool) s => if k then s else None) keep shares.

(** The same for public shares, and the number of public shares present. *)
Definition masked_pub (keep : list bool) (shares : list (option share.PubShare))
  : list (option share.PubShare) :=
  zip_with (fun (k : bool) s => if k then s else None) keep shares.

Definition count_non_nil_pub (shares : list (option share.PubShare)) : nat :=
  length (omap id shares).

(** A public share list commits to a private one over the base [b0]: the
    same entries are nil, and each public value is the multiple of the base
    by the private value. *)
Definition commits_to (b0 : option Point) (P : option share.PubShare)
    (s : option share.PriShare) : Prop :=
  match P, s with
  | Some P, Some s => share.pub_V P = PMul b0 (share.V s)
  | None, None => True
  | _, _ => False
  end.

(** Two share lists with the same values at the same positions, whatever
    their index fields. *)
Definition same_values (s s' : option share.PriShare) : Prop :=
  match s, s' with
  | Some s, Some s' => share.V s = share.V s'
  | None, None => True
  | _, _ => False
  end.

(** Every stored response sits under its own index. *)
Definition indices_agree (a : vss.aggregator) : Prop :=
  forall i r, vss.responses a !! i = Some r -> vss.Resp_Index r = i.

(** How one call may change the stored responses: not at all, by a new
    response under its own, free, index, or by the approval of a stored
    complaint. *)
Inductive responses_step : gmap N vss.Response -> gmap N vss.Response -> Prop :=
  | responses_same m : responses_step m m
  | responses_new m r :
      m !! vss.Resp_Index r = None ->
      responses_step m (<[vss.Resp_Index r := r]> m)
  | responses_flip m i r :
      m !! i = Some r -> vss.Approved r = false ->
      responses_step m (<[i := vss.approve r]> m).

(** The random stream after [k] scalars were drawn from it. *)
Definition drawn (k : nat) (rnd : Stream) : Stream :=
  Nat.iter k (fun s => (SPick s).2) rnd.

End defs.
End spec.

(** ** Auxiliary definitions for the interpolation proofs *)

Module interp.
Section defs.
Context `{Suite}.

(** The coordinates that are set in the array of [xCoords]. *)
Definition dense (x : list (option Scalar)) : list Scalar := omap id x.

(** The array [xCoords] builds over the rest [l] of the share list from
    position [i], with [k] coordinates still to set: the loop stops after
    the coordinate that brings the count to the threshold, and it always sets
    the first one it meets. *)
Fixpoint marks (k : nat) (i : nat) (l : list (option share.PriShare))
  : list (option Scalar) :=
  match l with
  | [] => []
  | None :: l' => None :: marks k (S i) l'
  | Some _ :: l' =>
      Some (spec.x_of i) ::
        match k with
        | S (S k') => marks (S k') (S i) l'
        | _ => replicate (length l') None
        end
  end.

(** The pairs (coordinate, value) the outer loop of [RecoverSecret] visits. *)
Fixpoint nodes (xs : list (option Scalar)) (ss : list (option share.PriShare))
  : list (Scalar * Scalar) :=
  match xs, ss with
  | Some xi :: xs', Some s :: ss' => (xi, share.V s) :: nodes xs' ss'
  | _ :: xs', _ :: ss' => nodes xs' ss'
  | _, _ => []
  end.

(** The node of a collected entry: its x-coordinate and the value of its
    share. *)
Definition to_node (js : nat * share.PriShare) : Scalar * Scalar :=
  (spec.x_of js.1, share.V js.2).

(** Every set coordinate faces a non-nil share. *)
Fixpoint compatible (xs : list (option Scalar)) (ss : list (option share.PriShare))
  : Prop :=
  match xs, ss with
  | [], [] => True
  | Some _ :: xs', Some _ :: ss' => compatible xs' ss'
  | None :: xs', _ :: ss' => compatible xs' ss'
  | _, _ => False
  end.

Definition diffs (x : Scalar) (others : list Scalar) : list Scalar :=
  (fun o => (o - x)%S) <$> others.

(** One summand of [RecoverSecret]: [num / den] after the inner loop. *)
Definition cterm (x v : Scalar) (others : list Scalar) : Scalar :=
  ((v * spec.product others) / spec.product (diffs x others))%S.

(** The sum [RecoverSecret] accumulates over the nodes [post], the
    coordinates [pre] having been passed. *)
Fixpoint csum (pre : list Scalar) (post : list (Scalar * Scalar)) : Scalar :=
  match post with
  | [] => 0%S
  | (x, v) :: post' => (cterm x v (pre ++ post'.*1) + csum (pre ++ [x]) post')%S
  end.

(** [W xs y] is the product of [o - y] over the nodes [o] of [xs]. *)
Definition W (xs : list Scalar) (y : Scalar) : Scalar := spec.product (diffs y xs).

(** The Lagrange interpolant through the nodes [xs] of the values [f],
    evaluated at [z]; the factors of the nodes already passed are carried
    in [f]. *)
Fixpoint G (z : Scalar) (xs : list Scalar) (f : Scalar -> Scalar) : Scalar :=
  match xs with
  | [] => 0%S
  | a :: xs' =>
      (f a * (W xs' z / W xs' a) + G z xs' (fun x => f x * ((a - z) / (a - x))))%S
  end.

(** Division of a polynomial by [X - a]: the value at [a] and the quotient. *)
Fixpoint divide (cs : list Scalar) (a : Scalar) : Scalar * list Scalar :=
  match cs with
  | [] => (0%S, [])
  | [c] => (c, [])
  | c :: cs' => let '(r, qs) := divide cs' a in ((c + a * r)%S, r :: qs)
  end.

(** A private share list with the nil entries of a public one. *)
Definition shadow (shares : list (option share.PubShare)) : list (option share.PriShare) :=
  (fun o : option share.PubShare =>
     (fun P => share.mkPriShare (share.pub_I P) 0%S) <$> o) <$> shares.

End defs.
End interp.

(** * Theorems *)

(** ** The aggregator and the certification predicates *)

Section aggregator.
Context `{Suite} `{!vss.DealCodec}.
Import vss spec.

Lemma count_approvals_spec (m : gmap N Response) :
  count_approvals m = Z.of_nat (approvals m).
Proof.
  unfold count_approvals, approvals. rewrite map_fold_foldr.
  induction (map_to_list m) as [|[k r] l IH]; [done|].
  cbn [foldr]. rewrite filter_cons. cbn [uncurry snd]. rewrite IH.
  destruct (Approved r); case_decide; try done; cbn [length]; lia.
Qed.

Lemma count_complaints_spec (m : gmap N Response) :
  count_complaints m = Z.of_nat (complaints m).
Proof.
  unfold count_complaints, complaints. rewrite map_fold_foldr.
  induction (map_to_list m) as [|[k r] l IH]; [done|].
  cbn [foldr]. rewrite filter_cons. cbn [uncurry snd]. rewrite IH.
  destruct (Approved r); case_decide; try done; cbn [length negb]; lia.
Qed.

Lemma DealCertified_eq (a : aggregator) :
  DealCertified (Some a) =
    Ok ((Z.of_nat (approvals (responses a)) >=? agg_t a)
        && negb ((Z.of_nat (complaints (responses a)) >=? agg_t a) || badDealer a)).
Proof.
  unfold DealCertified, EnoughApprovals. cbn.
  by rewrite count_approvals_spec, count_complaints_spec.
Qed.

Lemma findPub_is_Some (vs : list Point) (i : N) :
  is_Some (findPub vs i) <-> Z.of_N i < Z.of_nat (length vs).
Proof.
  unfold findPub. destruct (Z.geb_spec (Z.of_N i) (Z.of_nat (length vs))) as [Hge|Hlt].
  - split; [intros [? [=]] | lia].
  - split; [done|]. intros _. apply lookup_lt_is_Some. lia.
Qed.

Lemma VerifyDeal_frame (a : aggregator) (d : Deal) (inclusion : bool) :
  let a' := (VerifyDeal a d inclusion).1 in
  agg_verifiers a' = agg_verifiers a /\ responses a' = responses a /\
  badDealer a' = badDealer a /\ agg_t a' = agg_t a.
Proof.
  unfold VerifyDeal. destruct (bool_decide (deal a ≠ None) && inclusion); [done|].
  by destruct (deal a).
Qed.

Lemma addResponse_frame (a : aggregator) (r : Response) :
  let a' := (addResponse a r).1 in
  agg_verifiers a' = agg_verifiers a /\ badDealer a' = badDealer a /\
  agg_t a' = agg_t a /\
  (responses a' = responses a \/
   (is_Some (findPub (agg_verifiers a) (Resp_Index r)) /\
    responses a' = <[Resp_Index r := r]> (responses a))).
Proof.
  unfold addResponse. destruct (findPub _ _) eqn:Hf; [|by auto].
  destruct (responses a !! _); cbn; auto 10.
Qed.

Lemma verifyResponse_frame (a : aggregator) (r : Response) :
  let a' := (verifyResponse a r).1 in
  agg_verifiers a' = agg_verifiers a /\ badDealer a' = badDealer a /\
  agg_t a' = agg_t a /\
  (responses a' = responses a \/
   (is_Some (findPub (agg_verifiers a) (Resp_Index r)) /\
    responses a' = <[Resp_Index r := r]> (responses a))).
Proof.
  pose proof (addResponse_frame a r) as Hadd.
  unfold verifyResponse. destruct (negb _); [by auto|].
  destruct (findPub _ _); [|by auto].
  by destruct (VerifySchnorr _ _ _); [auto|].
Qed.

Lemma verifyJustification_frame (a : aggregator) (j : Justification) :
  let a' := (verifyJustification a j).1 in
  agg_verifiers a' = agg_verifiers a /\ agg_t a' = agg_t a /\
  (badDealer a = true -> badDealer a' = true) /\
  (responses a' = responses a \/
   exists r, responses a !! Just_Index j = Some r /\
     responses a' = <[Just_Index j := approve r]> (responses a)).
Proof.
  unfold verifyJustification. destruct (findPub _ _); [|by auto].
  destruct (responses a !! _) as [r|] eqn:Hr; [|by auto].
  destruct (Approved r); [by auto|].
  pose proof (VerifyDeal_frame a (Just_Deal j) false) as (Hv & Hm & Hb & Ht).
  destruct (VerifyDeal a (Just_Deal j) false) as [a1 [[]|e|]]; cbn in *;
    rewrite ?Hv, ?Hm, ?Ht, ?Hb; eauto 10.
Qed.

Lemma agg_step_indices_in_range (a a' : aggregator) :
  agg_step a a' -> indices_in_range a -> indices_in_range a'.
Proof.
  unfold indices_in_range. intros Hstep Ha.
  destruct Hstep as [a d incl|a r|a r|a j].
  - pose proof (VerifyDeal_frame a d incl) as (-> & -> & _). done.
  - pose proof (addResponse_frame a r) as (-> & _ & _ & [-> | [Hf ->]]); [done|].
    intros i r'. rewrite lookup_insert. case_decide; [|by eauto].
    intros _. subst i. by apply findPub_is_Some.
  - pose proof (verifyResponse_frame a r) as (-> & _ & _ & [-> | [Hf ->]]); [done|].
    intros i r'. rewrite lookup_insert. case_decide; [|by eauto].
    intros _. subst i. by apply findPub_is_Some.
  - pose proof (verifyJustification_frame a j) as (-> & _ & _ & [-> | (r & Hr & ->)]);
      [done|].
    intros i r'. rewrite lookup_insert. case_decide; [|by eauto].
    intros _. subst i. eauto.
Qed.

Lemma rtc_agg_step_indices_in_range (a a' : aggregator) :
  rtc agg_step a a' -> indices_in_range a -> indices_in_range a'.
Proof. induction 1; eauto using agg_step_indices_in_range. Qed.

Lemma agg_reachable_indices_in_range (a : aggregator) :
  agg_reachable a -> indices_in_range a.
Proof.
  intros (dl & vs & cs & t & s0 & Hrtc).
  apply (rtc_agg_step_indices_in_range _ _ Hrtc).
  intros i r. cbn. by rewrite lookup_empty.
Qed.

Lemma cert_bool_true (ap co t : Z) (flag : bool) (c : bool) :
  c = (ap >=? t) && negb ((co >=? t) || flag) ->
  c = true <-> t <= ap /\ co < t /\ flag = false.
Proof.
  intros ->.
  destruct flag, (Z.geb_spec ap t), (Z.geb_spec co t); cbn;
    (split; [intros; try done; lia | intros (? & ? & ?); try done; lia]).
Qed.

(** C4. On an aggregator with threshold [t], [DealCertified] returns true
    exactly when at least [t] stored responses are approvals, fewer than [t]
    are complaints and [badDealer] is unset; it always returns.  With exactly
    [t] approvals [EnoughApprovals] holds, and so does [DealCertified] when
    there is no complaint (on a positive threshold, the flag unset); with
    [t - 1] approvals both are false. *)
Theorem DealCertified_iff (a : aggregator) :
  (DealCertified (Some a) = Ok true <->
     agg_t a <= Z.of_nat (approvals (responses a)) /\
     Z.of_nat (complaints (responses a)) < agg_t a /\
     badDealer a = false) /\
  (exists c, DealCertified (Some a) = Ok c) /\
  (Z.of_nat (approvals (responses a)) = agg_t a ->
     EnoughApprovals (Some a) = Ok true /\
     (complaints (responses a) = 0%nat -> 0 < agg_t a -> badDealer a = false ->
      DealCertified (Some a) = Ok true)) /\
  (Z.of_nat (approvals (responses a)) = agg_t a - 1 ->
     EnoughApprovals (Some a) = Ok false /\ DealCertified (Some a) = Ok false).
Proof.
  rewrite DealCertified_eq. unfold EnoughApprovals. rewrite count_approvals_spec.
  set (ap := Z.of_nat (approvals (responses a))).
  assert (Ok ((ap >=? agg_t a)
              && negb ((Z.of_nat (complaints (responses a)) >=? agg_t a) || badDealer a))
          = Ok true <->
          agg_t a <= ap /\ Z.of_nat (complaints (responses a)) < agg_t a /\
          badDealer a = false) as Hiff.
  { rewrite <- (cert_bool_true ap _ (agg_t a) (badDealer a) _ eq_refl).
    split; [by intros [= ->] | by intros ->]. }
  split; [exact Hiff|]. split; [by eauto|]. split.
  - intros Hap. split; [f_equal; lia|].
    intros Hc Ht Hb. apply Hiff. split_and!; [lia|lia|done].
  - intros Hap. split; [f_equal; lia|].
    f_equal. apply andb_false_iff. left. lia.
Qed.

(** C7. When a response is already stored at the index of [r], adding [r]
    fails with an error, directly ([addResponse]) and after the checks of
    [verifyResponse], and the aggregator is left as it was. *)
Theorem duplicate_response_rejected (a : aggregator) (r r0 : Response) :
  responses a !! Resp_Index r = Some r0 ->
  (exists e, addResponse a r = (a, Err e)) /\
  (exists e, verifyResponse a r = (a, Err e)).
Proof.
  intros Hr.
  assert (exists e, addResponse a r = (a, Err e)) as Hadd.
  { unfold addResponse. rewrite Hr. destruct (findPub _ _); eauto. }
  split; [done|]. unfold verifyResponse.
  destruct (negb _); [by eauto|].
  destruct (findPub _ _); [|by eauto].
  destruct (VerifySchnorr _ _ _); eauto.
Qed.

(** C8. On an aggregator state of a run that stores a complaint at the index
    of the justification [j]: when [VerifyDeal] accepts the deal of [j],
    [verifyJustification] returns no error and the response stored at that
    index is approved afterwards; when nothing is stored at that index, or an
    approval is, it returns an error and changes nothing. *)
Theorem justification_flips_complaint (a : aggregator) (j : Justification) :
  agg_reachable a ->
  (forall r a1,
     responses a !! Just_Index j = Some r -> Approved r = false ->
     VerifyDeal a (Just_Deal j) false = (a1, Ok ()) ->
     exists a2,
       verifyJustification a j = (a2, Ok ()) /\
       responses a2 !! Just_Index j = Some (approve r) /\
       Approved (approve r) = true /\
       badDealer a2 = badDealer a) /\
  (responses a !! Just_Index j = None \/
   (exists r, responses a !! Just_Index j = Some r /\ Approved r = true) ->
   exists e, verifyJustification a j = (a, Err e)).
Proof.
  intros Hreach. split.
  - intros r a1 Hr Hcomplaint Hdeal.
    assert (is_Some (findPub (agg_verifiers a) (Just_Index j))) as [P HP].
    { apply findPub_is_Some. by eapply agg_reachable_indices_in_range. }
    pose proof (VerifyDeal_frame a (Just_Deal j) false) as (_ & _ & Hb & _).
    unfold verifyJustification. rewrite HP, Hr, Hcomplaint, Hdeal.
    rewrite Hdeal in Hb. cbn in Hb.
    eexists. split; [done|]. cbn. by rewrite lookup_insert_eq.
  - unfold verifyJustification. intros [Hnone | (r & Hr & Happ)].
    + rewrite Hnone. destruct (findPub _ _); eauto.
    + rewrite Hr, Happ. destruct (findPub _ _); eauto.
Qed.

(** A nil aggregator is fatal to [EnoughApprovals], which reads a field at
    once, and a new verifier has a nil aggregator. *)
Lemma EnoughApprovals_nil_aggregator (v : Verifier) :
  agg v = None -> Verifier_EnoughApprovals v = Panic.
Proof. unfold Verifier_EnoughApprovals. by intros ->. Qed.

Lemma NewVerifier_agg (longterm0 : Scalar) (dealerKey : Point) (verifiers0 : list Point)
    (v : Verifier) :
  NewVerifier longterm0 dealerKey verifiers0 = Ok v -> agg v = None.
Proof. unfold NewVerifier. destruct (find_index _ _ _); by intros [= <-]. Qed.

(** C10. A verifier whose embedded aggregator is still absent answers
    [DealCertified] with false: the nil test comes before any field of the
    aggregator is read. *)
Theorem DealCertified_nil_aggregator (v : Verifier) :
  agg v = None -> Verifier_DealCertified v = Ok false.
Proof. unfold Verifier_DealCertified. by intros ->. Qed.

End aggregator.

(** ** The verifier as a state machine *)

Section verifier.
Context `{Suite} `{!vss.DealCodec}.
Import vss spec.

Lemma agg_step_badDealer (a a' : aggregator) :
  agg_step a a' -> badDealer a = true -> badDealer a' = true.
Proof.
  intros [a0 d incl|a0 r|a0 r|a0 j] Hb.
  - pose proof (VerifyDeal_frame a0 d incl) as (_ & _ & -> & _). done.
  - pose proof (addResponse_frame a0 r) as (_ & -> & _). done.
  - pose proof (verifyResponse_frame a0 r) as (_ & -> & _). done.
  - pose proof (verifyJustification_frame a0 j) as (_ & _ & Hl & _). auto.
Qed.

Lemma rtc_agg_step_badDealer (a a' : aggregator) :
  rtc agg_step a a' -> badDealer a = true -> badDealer a' = true.
Proof. induction 1; eauto using agg_step_badDealer. Qed.

(** What [ProcessEncryptedDeal] does to the embedded aggregator: nothing, or
    calls on the aggregator it found, or on the new one it created. *)
Lemma ProcessEncryptedDeal_agg (v : Verifier) (e : EncryptedDeal) :
  agg (ProcessEncryptedDeal v e).1 = agg v \/
  exists a0 a',
    (agg v = Some a0 \/
     (agg v = None /\ exists d, a0 = newAggregator (dealer v) (verifiers v)
        (Commitments d) (Z.of_N (T d)) (SessionID d))) /\
    rtc agg_step a0 a' /\
    agg (ProcessEncryptedDeal v e).1 = Some a'.
Proof.
  unfold ProcessEncryptedDeal.
  destruct (decryptDeal v e) as [d|?|]; [|by left..].
  destruct (negb _); [by left|]. cbn [sessionID].
  set (a0 := match agg v with Some a => a | None => _ end).
  assert (agg v = Some a0 \/
          (agg v = None /\ exists d, a0 = newAggregator (dealer v) (verifiers v)
             (Commitments d) (Z.of_N (T d)) (SessionID d))) as Ha0.
  { subst a0. destruct (agg v); eauto. }
  pose proof (agg_step_VerifyDeal a0 d true) as Hs1.
  destruct (VerifyDeal a0 d true) as [a1 verr]. cbn [fst] in Hs1.
  right. exists a0.
  assert (forall r', exists a', rtc agg_step a0 a' /\
            agg (let '(a2, aerr) := addResponse a1 r' in
                 (set_agg v (Some a2), _ ← aerr; Ok r')).1 = Some a') as Hadd.
  { intros r'. pose proof (agg_step_addResponse a1 r') as Hs2.
    destruct (addResponse a1 r') as [a2 aerr]. cbn [fst] in Hs2.
    exists a2. split; [|done]. eauto using rtc_l, rtc_once. }
  assert (exists a', rtc agg_step a0 a' /\ agg (set_agg v (Some a1)) = Some a') as Hv1.
  { exists a1. split; [by apply rtc_once | done]. }
  assert (forall verr' : res unit,
            exists a', rtc agg_step a0 a' /\
              agg (match Schnorr (longterm v) (Response_Hash
                           (mkResponse
                              (Hash (MarshalTo (dealer v) ++ concat (MarshalTo <$> verifiers v)
                                     ++ concat (MarshalTo <$> Commitments d)
                                     ++ le32 (uint32 (Z.of_N (T d)))))
                              (uint32 (index v)) (is_Ok verr') [])) with
                   | Ok sig =>
                       let r' := mkResponse
                         (Hash (MarshalTo (dealer v) ++ concat (MarshalTo <$> verifiers v)
                                ++ concat (MarshalTo <$> Commitments d)
                                ++ le32 (uint32 (Z.of_N (T d)))))
                         (uint32 (index v)) (is_Ok verr') sig in
                       let '(a2, aerr) := addResponse a1 r' in
                       (set_agg v (Some a2), _ ← aerr; Ok r')
                   | Err err => (set_agg v (Some a1), Err err)
                   | Panic => (set_agg v (Some a1), Panic)
                   end).1 = Some a') as Hsign.
  { intros verr'. destruct (Schnorr _ _) as [sig|?|]; [apply Hadd | apply Hv1..]. }
  destruct verr as [[]|[msg|]|];
    [destruct (Hsign (Ok ())) as (a' & Hr' & Ha')
    |destruct (Hsign (Err (errorsNew msg))) as (a' & Hr' & Ha')
    |destruct Hv1 as (a' & Hr' & Ha')..];
    exists a'; (split; [exact Ha0|]); (split; [exact Hr'|]); exact Ha'.
Qed.

Lemma through_agg_agg (v : Verifier) (f : aggregator -> aggregator * res unit) :
  agg (through_agg v f).1 = (fun a => (f a).1) <$> agg v.
Proof.
  unfold through_agg. destruct (agg v) as [a|] eqn:Ha; [|done].
  cbn. by destruct (f a).
Qed.

(** Every step of a verifier is a sequence of calls on its aggregator, once
    it has one. *)
Lemma step_agg (v v' : Verifier) (a : aggregator) :
  step v v' -> agg v = Some a -> exists a', agg v' = Some a' /\ rtc agg_step a a'.
Proof.
  intros [v0 e|v0 r|v0 j] Ha.
  - destruct (ProcessEncryptedDeal_agg v0 e) as [-> | (a0 & a' & [Ha0|[Hn _]] & ? & ->)].
    + eauto using rtc_refl.
    + rewrite Ha in Ha0. injection Ha0 as <-. eauto.
    + congruence.
  - unfold Verifier_ProcessResponse. rewrite through_agg_agg, Ha. cbn.
    eexists. split; [done|]. apply rtc_once, agg_step_verifyResponse.
  - unfold ProcessJustification. rewrite through_agg_agg, Ha. cbn.
    eexists. split; [done|]. apply rtc_once, agg_step_verifyJustification.
Qed.

Lemma rtc_step_agg (v v' : Verifier) (a : aggregator) :
  rtc step v v' -> agg v = Some a -> exists a', agg v' = Some a' /\ rtc agg_step a a'.
Proof.
  intros Hrtc. revert a. induction Hrtc as [v|v v1 v2 Hs _ IH]; intros a Ha.
  - eauto using rtc_refl.
  - destruct (step_agg _ _ _ Hs Ha) as (a1 & Ha1 & Hr1).
    destruct (IH _ Ha1) as (a2 & Ha2 & Hr2). eauto using rtc_trans.
Qed.

(** The aggregator of a verifier of a run is an aggregator of a run. *)
Lemma reachable_agg_reachable (v : Verifier) (a : aggregator) :
  reachable v -> agg v = Some a -> agg_reachable a.
Proof.
  intros (l0 & dk & vs & v0 & Hnew & Hrtc). revert a.
  assert (agg v0 = None) as Hnone.
  { unfold NewVerifier in Hnew. destruct (find_index _ _ _); by simplify_eq. }
  clear Hnew. induction Hrtc as [v|v v1 v2 Hs Hrtc IH]; intros a Ha; [congruence|].
  destruct (agg v1) as [a1|] eqn:Ha1; [|by eauto].
  destruct (rtc_step_agg _ _ _ Hrtc Ha1) as (a' & Ha' & Hr).
  assert (a' = a) as -> by congruence.
  assert (agg_reachable a1) as (dl & vs' & cs & t & s0 & Hr1).
  { destruct Hs as [v0' e|v0' r|v0' j].
    - destruct (ProcessEncryptedDeal_agg v0' e)
        as [Heq | (a0 & a'' & [Ha0|[_ [d ->]]] & Hr0 & Heq)]; [congruence|congruence|].
      rewrite Ha1 in Heq. injection Heq as <-. by do 5 eexists.
    - unfold Verifier_ProcessResponse in Ha1.
      rewrite through_agg_agg, Hnone in Ha1. done.
    - unfold ProcessJustification in Ha1.
      rewrite through_agg_agg, Hnone in Ha1. done. }
  do 5 eexists. eauto using rtc_trans.
Qed.

(** C5. Once [ProcessJustification] has handled an invalid justification (a
    complaint is stored at its index and [VerifyDeal] refuses its deal),
    [badDealer] is set, and it stays set, with [DealCertified] returning
    false, in that state and in every state that further calls of
    [ProcessEncryptedDeal], [ProcessResponse] and [ProcessJustification]
    lead to. *)
Theorem badDealer_latch (v : Verifier) (j : Justification) (a a1 : aggregator)
    (r : Response) (e : error) :
  reachable v ->
  agg v = Some a ->
  responses a !! Just_Index j = Some r ->
  Approved r = false ->
  VerifyDeal a (Just_Deal j) false = (a1, Err e) ->
  (ProcessJustification v j).2 = Err e /\
  forall v2, rtc step (ProcessJustification v j).1 v2 ->
    (exists a2, agg v2 = Some a2 /\ badDealer a2 = true) /\
    Verifier_DealCertified v2 = Ok false.
Proof.
  intros Hreach Ha Hr Hcomplaint Hdeal.
  assert (is_Some (findPub (agg_verifiers a) (Just_Index j))) as [P HP].
  { apply findPub_is_Some.
    by eapply agg_reachable_indices_in_range; [eapply reachable_agg_reachable|]. }
  assert (verifyJustification a j = (set_badDealer a1 true, Err e)) as Hj.
  { unfold verifyJustification. by rewrite HP, Hr, Hcomplaint, Hdeal. }
  unfold ProcessJustification, through_agg. rewrite Ha, Hj. cbn [fst snd].
  split; [done|]. intros v2 Hrtc.
  destruct (rtc_step_agg _ _ (set_badDealer a1 true) Hrtc eq_refl) as (a2 & Ha2 & Hr2).
  assert (badDealer a2 = true) as Hb by by eapply rtc_agg_step_badDealer.
  split; [by eauto|].
  unfold Verifier_DealCertified. rewrite Ha2, DealCertified_eq, Hb.
  by rewrite orb_true_r, andb_false_r.
Qed.

Lemma VerifyDeal_checks_is_Ok (a : aggregator) (d : Deal) :
  is_Ok (VerifyDeal_checks a d)
  = bytes_Equal (sid a) (SessionID d) && shares_verify (agg_verifiers a) d.
Proof.
  unfold VerifyDeal_checks, shares_verify.
  destruct (validT _ _); cbn [negb andb]; [|by rewrite andb_false_r].
  destruct (bytes_Equal _ _); cbn [negb andb]; [|done].
  destruct (_ =? _); cbn [negb andb]; [|done].
  destruct (_ || _); cbn [negb andb]; [done|].
  by destruct (PEqual _ _).
Qed.

Lemma VerifyDeal_checks_error (a : aggregator) (d : Deal) :
  VerifyDeal_checks a d <> Err errDealAlreadyProcessed /\
  VerifyDeal_checks a d <> Panic.
Proof.
  unfold VerifyDeal_checks.
  destruct (negb (validT _ _)); [done|]. destruct (negb (bytes_Equal _ _)); [done|].
  destruct (negb (_ =? _)); [done|]. destruct (_ || _); [done|].
  by destruct (negb (PEqual _ _)).
Qed.

(** C3 (as the code has it).  For an encrypted deal that decrypts to [d],
    with the index of its share the verifier's own, [ProcessEncryptedDeal]
    recomputes [sid'] and every response it returns carries [sid'] and the
    verifier's index.  It never compares [sid'] with [d.SessionID]: a
    verifier that holds no deal yet takes the session id of its aggregator
    from the deal itself, and answers (when its signature and its index are
    good) with a response that is approved exactly when the threshold, the
    share indices and the commitments check, whatever [d.SessionID] is. *)
Theorem ProcessEncryptedDeal_session_id (v : Verifier) (e : EncryptedDeal) (d : Deal)
    (sid' : bytes) :
  decryptDeal v e = Ok d ->
  share.I (SecShare d) = index v ->
  sessionID (dealer v) (verifiers v) (Commitments d) (Z.of_N (T d)) = Ok sid' ->
  (forall r, (ProcessEncryptedDeal v e).2 = Ok r ->
     Resp_SessionID r = sid' /\ Resp_Index r = uint32 (index v)) /\
  (agg v = None ->
   forall sig,
     Schnorr (longterm v)
       (Response_Hash (mkResponse sid' (uint32 (index v))
                         (shares_verify (verifiers v) d) [])) = Ok sig ->
     is_Some (findPub (verifiers v) (uint32 (index v))) ->
     (ProcessEncryptedDeal v e).2
     = Ok (mkResponse sid' (uint32 (index v)) (shares_verify (verifiers v) d) sig) /\
     (sid <$> agg (ProcessEncryptedDeal v e).1) = Some (SessionID d)).
Proof.
  intros Hdec Hidx Hsid. unfold ProcessEncryptedDeal. rewrite Hdec, Hidx, Z.eqb_refl.
  cbn [negb]. rewrite Hsid. split.
  - intros r.
    destruct (VerifyDeal _ d true) as [a1 verr].
    destruct verr as [[]|[msg|]|]; try done;
      (destruct (Schnorr _ _) as [sig|?|]; [|done..]);
      (destruct (addResponse a1 _) as [a2 [[]|?|]]; [|done..]);
      by intros [= <-].
  - intros Hagg sig Hsign [P HP]. rewrite Hagg.
    unfold VerifyDeal, newAggregator. cbn [deal]. rewrite bool_decide_eq_false_2 by (by intros ?).
    cbn [andb]. set (a1 := mkAggregator _ _ _ _ _ _ _ _).
    pose proof (VerifyDeal_checks_is_Ok a1 d) as Hok.
    pose proof (VerifyDeal_checks_error a1 d) as [Hne Hnp].
    cbn [sid agg_verifiers a1] in Hok.
    unfold bytes_Equal in Hok. rewrite bool_decide_eq_true_2 in Hok by done.
    cbn [andb] in Hok. rewrite Hok.
    assert (forall r', Resp_Index r' = uint32 (index v) ->
              addResponse a1 r' = (set_responses a1 (<[Resp_Index r' := r']> ∅), Ok ()))
      as Hadd.
    { intros r' Hr'. unfold addResponse. cbn [agg_verifiers a1 responses].
      rewrite Hr', HP. by rewrite lookup_empty. }
    destruct (VerifyDeal_checks a1 d) as [[]|[msg|]|]; try done;
      rewrite Hsign, Hadd by done; done.
Qed.

End verifier.

(** ** The dealer *)

Section dealer.
Context `{Suite} `{!vss.DealCodec}.
Import vss.

Lemma validT_spec (t : Z) (vs : list Point) :
  validT t vs = true <-> 2 <= t <= Z.of_nat (length vs) /\ t < 2 ^ 32.
Proof.
  unfold validT, uint32. rewrite !andb_true_iff, Z.geb_le, Z.leb_le, Z.eqb_eq.
  split.
  - intros [[Ht2 Htn] Hw]. split; [lia|].
    rewrite Z2N.id in Hw by (apply Z.mod_pos_bound; lia).
    rewrite <- Hw. apply Z.mod_pos_bound. lia.
  - intros [[Ht2 Htn] Hw]. split; [lia|].
    rewrite Z2N.id by (apply Z.mod_pos_bound; lia).
    apply Z.mod_small. lia.
Qed.

Lemma NewPriPoly_Ok (grp : Group) (t : Z) (s : option Scalar) (rand : Stream) :
  0 < t ->
  exists p rand', share.NewPriPoly grp t s rand = Ok (p, rand') /\
    share.g p = grp /\ Z.of_nat (length (share.coeffs p)) = t /\
    forall s0, s = Some s0 -> head (share.coeffs p) = Some s0.
Proof.
  intros Ht. unfold share.NewPriPoly.
  destruct (Z.leb_spec t 0); [lia|].
  assert (forall k rand0, length (share.pick_coeffs k rand0).1 = k) as Hlen.
  { induction k as [|k IH]; intros rand0; [done|]. cbn.
    destruct (SPick rand0) as [c rand1]. specialize (IH rand1).
    destruct (share.pick_coeffs k rand1). cbn in *. by rewrite IH. }
  destruct s as [s0|].
  - specialize (Hlen (Z.to_nat (t - 1)) rand).
    destruct (share.pick_coeffs _ rand) as [cs rand1]. cbn in Hlen.
    do 2 eexists. split; [done|]. cbn. split_and!; [done|lia|by intros ? [= ->]].
  - destruct (SPick rand) as [c0 rand0].
    specialize (Hlen (Z.to_nat (t - 1)) rand0).
    destruct (share.pick_coeffs _ rand0) as [cs rand1]. cbn in Hlen.
    do 2 eexists. split; [done|]. cbn. split_and!; [done|lia|done].
Qed.

(** C2.  [NewDealer] returns a dealer and no error for every threshold with
    [2 <= t <= len(verifiers)] and [t < 2^32]: the polynomials [f] and [g]
    are drawn, [F] is committed on the standard base and [G] on [H], their
    sum [C] is computed, and the dealer holds the threshold, the session id
    of [C], one deal per verifier and a new aggregator over the [t]
    coefficient commitments of [C].  For every other threshold it fails,
    with the error "dealer: t %d invalid". *)
Theorem NewDealer_outcome (suite : Group) (longterm0 : Scalar) (secret0 : option Scalar)
    (verifiers0 : list Point) (r : Stream) (t : Z) (heap : N) :
  (2 <= t <= Z.of_nat (length verifiers0) /\ t < 2 ^ 32 ->
   exists d f g r1 r2,
     NewDealer suite longterm0 secret0 verifiers0 r t heap = Ok d /\
     share.NewPriPoly suite t secret0 r = Ok (f, r1) /\
     share.NewPriPoly suite t None r1 = Ok (g, r2) /\
     let C := zip_with PAdd
                ((fun c => PMul (Some Base) c) <$> share.coeffs f)
                ((fun c => PMul (Some (deriveH verifiers0)) c) <$> share.coeffs g) in
     Z.of_nat (length C) = t /\
     long d = longterm0 /\ d_pub d = PMul None longterm0 /\ secret d = secret0 /\
     d_verifiers d = verifiers0 /\ d_t d = t /\
     secretCommits d = (fun c => PMul (Some Base) c) <$> share.coeffs f /\
     sessionID (d_pub d) verifiers0 C t = Ok (d_sessionID d) /\
     d_agg d = Some (newAggregator (d_pub d) verifiers0 C t (d_sessionID d)) /\
     length (deals d) = length verifiers0 /\
     forall i : nat, (i < length verifiers0)%nat ->
       deals d !! i
       = Some (mkDeal (d_sessionID d) (share.PriPoly_Eval f (Z.of_nat i))
                 (share.PriPoly_Eval g (Z.of_nat i)) (uint32 t) C)) /\
  (~ (2 <= t <= Z.of_nat (length verifiers0) /\ t < 2 ^ 32) ->
   NewDealer suite longterm0 secret0 verifiers0 r t heap = Err (errInvalidT t)).
Proof.
  unfold NewDealer. split; intros Ht.
  - apply validT_spec in Ht as Hv. rewrite Hv. cbn [negb new_point].
    destruct (NewPriPoly_Ok suite t secret0 r) as (f & r1 & Hf & Hgf & Hlf & _); [lia|].
    destruct (NewPriPoly_Ok suite t None r1) as (g & r2 & Hg & Hgg & Hlg & _); [lia|].
    rewrite Hf. cbn [mbind res_mbind res_bind]. rewrite Hg.
    cbn [mbind res_mbind res_bind].
    unfold linked_PubPoly_Add, share.Commit, share.PubPoly_Threshold, share.Info,
      share.base_arg.
    cbn [share.pub_g share.b share.commits deref fmap option_fmap option_map snd].
    rewrite Hgf, Hgg, bool_decide_eq_true_2 by done.
    rewrite !length_fmap, Hlf, Hlg, Z.eqb_refl. cbn [negb sessionID].
    cbn [mbind res_mbind res_bind share.commits].
    eexists _, f, g, r1, r2. split; [done|]. split; [done|]. split; [done|].
    cbn zeta. cbn [long d_pub secret d_verifiers d_t secretCommits d_sessionID d_agg deals].
    split_and!; try done.
    + rewrite length_zip_with, !length_fmap. lia.
    + by rewrite length_fmap, length_seq.
    + intros i Hi. rewrite list_lookup_fmap, lookup_seq_lt by done. done.
  - destruct (validT t verifiers0) eqn:Hv; [|done].
    by apply validT_spec in Hv.
Qed.

End dealer.

(** ** The small suite satisfies the laws *)

Section toy_laws.
Import toy.

Lemma Fq_eq (a b : Fq) : val a = val b -> a = b.
Proof.
  destruct a as [x Hx], b as [y Hy]. cbn. intros ->. f_equal. apply proof_irrel.
Qed.

Lemma val_range (a : Fq) : 0 <= val a < q.
Proof. rewrite <- (canon a). apply Z.mod_pos_bound. done. Qed.

Ltac fq :=
  intros; apply Fq_eq; cbn [val of_Z add sub neg mul inv div];
  rewrite ?Zplus_mod_idemp_l, ?Zplus_mod_idemp_r, ?Zmult_mod_idemp_l,
    ?Zmult_mod_idemp_r, ?Zminus_mod_idemp_l, ?Zminus_mod_idemp_r.

Lemma Fq_ring : ring_theory (of_Z 0) (of_Z 1) add mul sub neg eq.
Proof.
  split.
  - fq. rewrite Z.add_0_l. apply canon.
  - fq. f_equal; ring.
  - fq. f_equal; ring.
  - fq. rewrite Z.mul_1_l. apply canon.
  - fq. f_equal; ring.
  - fq. f_equal; ring.
  - fq. f_equal; ring.
  - fq. f_equal; ring.
  - fq. rewrite Z.add_opp_diag_r. done.
Qed.

Lemma Fq_inverses :
  forallb (fun z => ((find_inverse z (seqZ 1 (q - 1))) mod q * z) mod q =? 1)
    (seqZ 1 (q - 1)) = true.
Proof. vm_compute. reflexivity. Qed.

Lemma Fq_inv_l (a : Fq) : a <> of_Z 0 -> mul (inv a) a = of_Z 1.
Proof.
  intros Ha. apply Fq_eq. cbn [val of_Z mul inv].
  pose proof (val_range a) as Hr.
  assert (val a <> 0) as Hnz.
  { intros Hz. apply Ha, Fq_eq. by rewrite Hz. }
  pose proof Fq_inverses as Hall. rewrite forallb_forall in Hall.
  specialize (Hall (val a)). rewrite Z.eqb_eq in Hall.
  rewrite Hall; [done|]. apply list_elem_of_In, elem_of_seqZ. lia.
Qed.

Lemma Fq_field : field_theory (of_Z 0) (of_Z 1) add mul sub neg div inv eq.
Proof.
  split; [exact Fq_ring | | done | exact Fq_inv_l].
  intros Heq. by apply (f_equal val) in Heq.
Qed.

Global Instance toy_laws : SuiteLaws (H := suite).
Proof.
  split.
  - exact Fq_field.
  - intros [P|] x y; cbn; fq; change (1 mod q) with 1; f_equal; ring.
  - intros [P|] x y; cbn; fq; change (1 mod q) with 1; f_equal; ring.
  - intros [P|]; cbn; apply Fq_eq; cbn; by rewrite Z.mul_0_r.
  - intros P Q. cbn. unfold eqb. rewrite Z.eqb_eq.
    split; [apply Fq_eq | by intros ->].
Qed.

End toy_laws.

(** ** The polynomial layer *)

Section polynomials.
Context `{Suite} `{!SuiteLaws}.
Import share.

Add Field scalar_field_tac : scalar_field.

Lemma horner_pub_Commit (b0 : option Point) (cs : list Scalar) (x : Scalar) :
  horner_pub ((fun c => PMul b0 c) <$> cs) x = PMul b0 (horner cs x).
Proof.
  induction cs as [|c cs IH]; cbn.
  - by rewrite PMul_Zero.
  - fold (horner_pub ((fun c => PMul b0 c) <$> cs) x). fold (horner cs x).
    by rewrite IH, PMul_PMul, PAdd_PMul.
Qed.

(** C6. The commitment polynomial of [p] on a base [B] accepts every share
    of [p]: [Check] compares [Eval(s.I).V] with [s.V] times the base, and
    the two agree at [s = p.Eval(i)], for every index [i] and every [B],
    the standard base ([nil]) included. *)
Theorem Commit_Check (p : PriPoly) (B : option PointRef) (i : Z) :
  Check (Commit p B) (PriPoly_Eval p i) = true /\
  (forall s : PriShare,
     Check (Commit p B) s = true <->
     pub_V (PubPoly_Eval (Commit p B) (I s)) = PMul (base_arg B) (V s)).
Proof.
  split.
  - unfold Check, Commit, PubPoly_Eval, PriPoly_Eval. cbn.
    apply PEqual_eq, horner_pub_Commit.
  - intros s. unfold Check. cbn. apply PEqual_eq.
Qed.

End polynomials.

(** ** Lagrange interpolation over the scalar field *)

Section lagrange.
Context `{Suite} `{!SuiteLaws}.
Import share spec interp.

Add Field scalar_field_lagrange : scalar_field.

Local Open Scope scalar_scope.

Lemma scalar_integral (x y : Scalar) : x <> 0 -> y <> 0 -> x * y <> 0.
Proof.
  intros Hx Hy Hxy. apply Hy.
  transitivity (SInv x * (x * y)); [field; done|]. rewrite Hxy. ring.
Qed.

Lemma sub_nonzero (x y : Scalar) : x <> y -> x - y <> 0.
Proof. intros Hne Hz. apply Hne. transitivity ((x - y) + y); [ring|]. rewrite Hz. ring. Qed.

Lemma div_mul_assoc (v n d : Scalar) : (v * n) / d = v * (n / d).
Proof. rewrite !(Fdiv_def scalar_field). ring. Qed.

Lemma product_app (l1 l2 : list Scalar) :
  product (l1 ++ l2) = product l1 * product l2.
Proof.
  unfold product. induction l1 as [|x l1 IH]; cbn [foldr app]; [ring|].
  rewrite IH. ring.
Qed.

Lemma product_nonzero (l : list Scalar) : Forall (fun x => x <> 0) l -> product l <> 0.
Proof.
  induction 1 as [|x l Hx _ IH]; cbn.
  - apply (F_1_neq_0 scalar_field).
  - by apply scalar_integral.
Qed.

Lemma W_nonzero (xs : list Scalar) (a : Scalar) : a ∉ xs -> W xs a <> 0.
Proof.
  intros Ha. apply product_nonzero, Forall_fmap, Forall_forall.
  intros o Ho. cbn. apply sub_nonzero. intros ->. done.
Qed.

Lemma W_cons (a : Scalar) (xs : list Scalar) (y : Scalar) : W (a :: xs) y = (a - y) * W xs y.
Proof. done. Qed.

Lemma G_ext (z : Scalar) (xs : list Scalar) (f g : Scalar -> Scalar) :
  (forall x, x ∈ xs -> f x = g x) -> G z xs f = G z xs g.
Proof.
  revert f g. induction xs as [|a xs IH]; intros f g Hfg; cbn [G]; [done|].
  rewrite (Hfg a) by set_solver. f_equal.
  apply IH. intros x Hx. rewrite (Hfg x) by set_solver. done.
Qed.

Lemma G_scale (z : Scalar) (xs : list Scalar) (c : Scalar) (f : Scalar -> Scalar) :
  G z xs (fun x => c * f x) = c * G z xs f.
Proof.
  revert f. induction xs as [|a xs IH]; intros f; cbn [G]; [ring|].
  rewrite (G_ext z xs _ (fun x => c * (f x * ((a - z) / (a - x)))))
    by (intros; ring).
  rewrite IH. ring.
Qed.

Lemma G_add (z : Scalar) (xs : list Scalar) (f g : Scalar -> Scalar) :
  G z xs (fun x => f x + g x) = G z xs f + G z xs g.
Proof.
  revert f g. induction xs as [|a xs IH]; intros f g; cbn [G]; [ring|].
  rewrite (G_ext z xs _ (fun x => f x * ((a - z) / (a - x)) + g x * ((a - z) / (a - x))))
    by (intros; ring).
  rewrite IH. ring.
Qed.

(** Moving the evaluation point from [z] to a point [a] off the nodes. *)
Lemma G_shift (z a : Scalar) (xs : list Scalar) (h : Scalar -> Scalar) :
  NoDup xs -> a ∉ xs ->
  G z xs (fun x => h x * ((x - z) / (x - a))) = (W xs z / W xs a) * G a xs h.
Proof.
  intros Hnd. revert h. induction Hnd as [|b xs Hb Hnd IH]; intros h Ha; cbn [G].
  - ring.
  - assert (b <> a) as Hba by set_solver.
    assert (a ∉ xs) as Ha' by set_solver.
    pose proof (W_nonzero xs a Ha') as HWa.
    pose proof (W_nonzero xs b Hb) as HWb.
    pose proof (sub_nonzero b a Hba) as Hsub.
    rewrite (G_ext z xs _ (fun x => (h x * ((b - z) / (b - x))) * ((x - z) / (x - a))))
      by (intros; ring).
    rewrite (IH _ Ha').
    rewrite (G_ext a xs (fun x => h x * ((b - z) / (b - x)))
               (fun x => ((b - z) / (b - a)) * (h x * ((b - a) / (b - x))))).
    2:{ intros x Hx. assert (b <> x) as Hbx by (intros ->; done).
        pose proof (sub_nonzero b x Hbx). field. done. }
    rewrite G_scale, !W_cons. field. done.
Qed.

(** The Lagrange basis polynomials sum to one. *)
Lemma G_one (z : Scalar) (xs : list Scalar) :
  NoDup xs -> xs <> [] -> G z xs (fun _ => 1) = 1.
Proof.
  intros Hnd. revert z. induction Hnd as [|a xs Ha Hnd IH]; intros z Hne; [done|].
  cbn [G]. destruct xs as [|b xs'].
  - cbn. field. apply (F_1_neq_0 scalar_field).
  - set (xs := b :: xs') in *.
    pose proof (W_nonzero xs a Ha) as HWa.
    rewrite (G_ext z xs _ (fun x => 1 + (- (1)) * (1 * ((x - z) / (x - a))))).
    2:{ intros x Hx. assert (a <> x) as Hax by (intros ->; done).
        pose proof (sub_nonzero a x Hax).
        assert (x <> a) as Hxa by done. pose proof (sub_nonzero x a Hxa).
        field. done. }
    rewrite G_add, G_scale, (G_shift z a xs (fun _ => 1) Hnd Ha).
    rewrite !IH by done. field. done.
Qed.

Lemma divide_spec (cs : list Scalar) (a : Scalar) :
  (forall x, horner cs x = (divide cs a).1 + (x - a) * horner (divide cs a).2 x) /\
  length (divide cs a).2 = pred (length cs).
Proof.
  unfold horner.
  induction cs as [|c cs [IH Hlen]]; [split; [intros; cbn [divide fst snd foldr]; ring | done]|].
  destruct cs as [|c' cs'].
  - split; [intros; cbn [divide fst snd foldr]; ring | done].
  - change (divide (c :: c' :: cs') a)
      with (let '(r, qs) := divide (c' :: cs') a in (c + a * r, r :: qs)).
    destruct (divide (c' :: cs') a) as [r qs]. cbn [fst snd] in *. split.
    + intros x. change (foldr (fun c0 sv => sv * x + c0) 0 (c :: c' :: cs'))
        with (foldr (fun c0 sv => sv * x + c0) 0 (c' :: cs') * x + c).
      rewrite IH. cbn [foldr]. ring.
    + cbn [length] in *. rewrite Hlen. done.
Qed.

(** The interpolant through at least as many distinct nodes as the
    polynomial has coefficients is the polynomial. *)
Lemma G_horner (z : Scalar) (xs : list Scalar) (cs : list Scalar) :
  NoDup xs -> (length cs <= length xs)%nat -> G z xs (horner cs) = horner cs z.
Proof.
  intros Hnd. revert z cs. induction Hnd as [|a xs Ha Hnd IH]; intros z cs Hlen.
  - destruct cs; [done | cbn in Hlen; lia].
  - destruct (divide_spec cs a) as [Hdiv Hq].
    destruct (divide cs a) as [r qs]. cbn [fst snd] in *.
    pose proof (G_one z (a :: xs) (NoDup_cons_2 _ _ Ha Hnd) ltac:(done)) as Hone.
    cbn [G] in *.
    rewrite (G_scale z xs 1 (fun x => (a - z) / (a - x))) in Hone.
    rewrite (G_ext z xs _ (fun x => r * ((a - z) / (a - x)) + (z - a) * horner qs x)).
    2:{ intros x Hx. assert (a <> x) as Hax by (intros ->; done).
        pose proof (sub_nonzero a x Hax). rewrite Hdiv. field. done. }
    rewrite G_add, !G_scale, IH by (cbn in Hlen; lia).
    set (T := G z xs (fun x => (a - z) / (a - x))) in *.
    assert (T = 1 - W xs z / W xs a) as ->.
    { transitivity ((1 * (W xs z / W xs a) + 1 * T) - W xs z / W xs a); [ring|].
      by rewrite Hone. }
    rewrite !Hdiv. ring.
Qed.

Lemma diffs_app (x : Scalar) (l1 l2 : list Scalar) :
  diffs x (l1 ++ l2) = diffs x l1 ++ diffs x l2.
Proof. apply fmap_app. Qed.

Lemma product_diffs_zero (l : list Scalar) : product (diffs 0 l) = product l.
Proof.
  unfold product, diffs. induction l as [|o l IH]; cbn [fmap list_fmap foldr]; [done|].
  rewrite IH. ring.
Qed.

Lemma diffs_nonzero (x : Scalar) (l : list Scalar) : x ∉ l -> product (diffs x l) <> 0.
Proof. apply W_nonzero. Qed.

(** The sum [RecoverSecret] accumulates is the interpolant at zero. *)
Lemma csum_G (f : Scalar -> Scalar) (post : list (Scalar * Scalar)) (pre : list Scalar) :
  NoDup (pre ++ post.*1) ->
  (forall x v, (x, v) ∈ post -> v = f x) ->
  csum pre post
  = G 0 post.*1 (fun x => f x * (product pre / product (diffs x pre))).
Proof.
  revert pre. induction post as [|[a v] post IH]; intros pre Hnd Hf; [done|].
  cbn [csum G fmap list_fmap fst].
  apply NoDup_app in Hnd as (Hpre & Hdisj & Hpost).
  apply NoDup_cons in Hpost as [Ha Hpost].
  assert (a ∉ pre) as Hapre
    by (intros Hin; apply (Hdisj a Hin), elem_of_cons; by left).
  pose proof (diffs_nonzero a pre Hapre) as Hd1.
  pose proof (diffs_nonzero a post.*1 Ha) as Hd2.
  rewrite (Hf a v) by (apply elem_of_cons; by left). f_equal.
  - unfold cterm, W. rewrite diffs_app, !product_app, product_diffs_zero.
    field. done.
  - rewrite (IH (pre ++ [a])).
    + apply G_ext. intros x Hx.
      assert (x ∉ pre) as Hxpre
        by (intros Hin; apply (Hdisj x Hin), elem_of_cons; by right).
      assert (a <> x) as Hax by (intros ->; done).
      pose proof (diffs_nonzero x pre Hxpre). pose proof (sub_nonzero a x Hax).
      rewrite diffs_app, !product_app. unfold product at 2 4, diffs at 2.
      cbn [fmap list_fmap foldr]. field. done.
    + rewrite <- app_assoc. cbn [app]. apply NoDup_app. split_and!; [done| |].
      * intros x Hx. apply not_elem_of_cons. split; [by intros ->|].
        intros Hin. apply (Hdisj x Hx), elem_of_cons. by right.
      * by apply NoDup_cons.
    + intros x v' Hin. apply Hf, elem_of_cons. by right.
Qed.

(** *** The loops of [RecoverSecret] *)

Lemma dense_app (l1 l2 : list (option Scalar)) : dense (l1 ++ l2) = dense l1 ++ dense l2.
Proof. apply omap_app. Qed.

Lemma lagrange_inner_after (i : nat) (xi : Scalar) (j : nat) (xs : list (option Scalar))
    (num den : Scalar) :
  (i < j)%nat ->
  lagrange_inner i xi j xs num den
  = (num * product (dense xs), den * product (diffs xi (dense xs))).
Proof.
  revert j num den. induction xs as [|[xj|] xs IH]; intros j num den Hij.
  - cbn. f_equal; ring.
  - cbn [lagrange_inner]. destruct (Nat.eqb_spec j i); [lia|].
    rewrite IH by lia. unfold dense, diffs, product.
    cbn [omap list_omap id fmap list_fmap foldr]. f_equal; ring.
  - cbn [lagrange_inner]. rewrite IH by lia. done.
Qed.

Lemma lagrange_inner_at (i : nat) (xi : Scalar) (j : nat) (l1 : list (option Scalar))
    (xi' : Scalar) (l2 : list (option Scalar)) (num den : Scalar) :
  (j + length l1 = i)%nat ->
  lagrange_inner i xi j (l1 ++ Some xi' :: l2) num den
  = (num * product (dense l1 ++ dense l2),
     den * product (diffs xi (dense l1 ++ dense l2))).
Proof.
  revert j num den. induction l1 as [|[xj|] l1 IH]; intros j num den Hij.
  - cbn [app lagrange_inner length] in *. destruct (Nat.eqb_spec j i); [|lia].
    by rewrite lagrange_inner_after by lia.
  - cbn [app lagrange_inner length] in *. destruct (Nat.eqb_spec j i); [lia|].
    rewrite IH by lia. unfold dense, diffs, product.
    cbn [omap list_omap id fmap list_fmap foldr app]. f_equal; ring.
  - cbn [app lagrange_inner length] in *. rewrite IH by lia. done.
Qed.

Lemma nodes_fst (xs : list (option Scalar)) (ss : list (option PriShare)) :
  compatible xs ss -> (nodes xs ss).*1 = dense xs.
Proof.
  revert ss. induction xs as [|[xi|] xs IH]; intros [|[s|] ss] Hc; try done.
  - cbn. f_equal. by apply IH.
  - by apply IH.
  - by apply IH.
Qed.

Lemma lagrange_outer_csum (xs : list (option Scalar)) (pre : list (option Scalar))
    (ss spre : list (option PriShare)) (acc : Scalar) :
  length pre = length spre ->
  compatible xs ss ->
  lagrange_outer (pre ++ xs) (spre ++ ss) (length pre) xs acc
  = Ok (acc + csum (dense pre) (nodes xs ss)).
Proof.
  revert pre ss spre acc.
  induction xs as [|[xi|] xs IH]; intros pre [|s ss] spre acc Hlen Hc; try done.
  - cbn. f_equal. ring.
  - destruct s as [s|]; [|done]. cbn [lagrange_outer].
    rewrite Hlen, list_lookup_middle by done. rewrite <- Hlen.
    rewrite (lagrange_inner_at (length pre) xi 0 pre xi xs) by done.
    replace (S (length pre)) with (length (pre ++ [Some xi])) by (rewrite length_app; cbn; lia).
    rewrite (cons_middle (Some xi) pre xs), (cons_middle (Some s) spre ss), !app_assoc.
    rewrite IH; [|rewrite !length_app; cbn; lia|done].
    cbn [nodes csum]. rewrite (nodes_fst xs ss Hc), dense_app.
    unfold cterm. replace (1 * product (diffs xi (dense pre ++ dense xs)))
      with (product (diffs xi (dense pre ++ dense xs))) by ring.
    change (dense [Some xi]) with [xi]. f_equal. ring.
  - cbn [lagrange_outer].
    replace (S (length pre)) with (length (pre ++ [None])) by (rewrite length_app; cbn; lia).
    rewrite (cons_middle None pre xs), (cons_middle s spre ss), !app_assoc.
    rewrite IH; [|rewrite !length_app; cbn; lia|by destruct s].
    rewrite dense_app. change (dense [None]) with (@nil Scalar).
    rewrite app_nil_r. by destruct s.
Qed.

(** *** The array of [xCoords] *)

Lemma isNotNil_middle (pre : list (option PriShare)) (o : option PriShare)
    (l : list (option PriShare)) :
  isNotNil (pre ++ o :: l) (Z.of_nat (length pre))
  = match o with Some _ => true | None => false end.
Proof.
  unfold isNotNil. rewrite Nat2Z.id, list_lookup_middle by done.
  rewrite length_app. cbn [length].
  destruct (Z.ltb_spec (Z.of_nat (length pre)) (Z.of_nat (length pre + S (length l))));
    [done|lia].
Qed.

Lemma dense_replicate (n : nat) : dense (replicate n None) = [].
Proof. induction n; [done|]. done. Qed.

Lemma xCoords_loop_marks (t : Z) (shares : list (option PriShare))
    (l pre : list (option PriShare)) (c : Z) (xp : list (option Scalar)) :
  shares = pre ++ l ->
  length xp = length pre ->
  xCoords_loop t (isNotNil shares) (length l) (Z.of_nat (length pre)) c
    (xp ++ replicate (length l) None)
  = ((c + Z.of_nat (length (dense (marks (Z.to_nat (t - c)) (length pre) l))))%Z,
     xp ++ marks (Z.to_nat (t - c)) (length pre) l).
Proof.
  revert pre c xp. induction l as [|o l IH]; intros pre c xp Hsh Hlen.
  - cbn. f_equal. lia.
  - cbn [length xCoords_loop replicate]. rewrite Hsh, isNotNil_middle, <- Hsh.
    assert (Z.of_nat (length pre) + 1 = Z.of_nat (length (pre ++ [o])))%Z as Hi
      by (rewrite length_app; cbn; lia).
    assert (S (length pre) = length (pre ++ [o])) as Hi'
      by (rewrite length_app; cbn; lia).
    assert (shares = (pre ++ [o]) ++ l) as Hsh' by (by rewrite <- app_assoc).
    destruct o as [s|].
    + rewrite Nat2Z.id, insert_app_r_alt by lia.
      replace (length pre - length xp)%nat with 0%nat by lia. cbn [insert list_insert].
      fold (x_of (length pre)).
      destruct (Z.geb_spec (c + 1) t) as [Hge|Hlt].
      * assert (Z.to_nat (t - c) = 0 \/ Z.to_nat (t - c) = 1)%nat as [-> | ->] by lia;
          cbn [marks]; change (dense (Some (x_of (length pre)) :: ?r))
            with (x_of (length pre) :: dense r);
          rewrite dense_replicate; cbn [length]; f_equal; lia.
      * destruct (Z.to_nat (t - c)) as [|[|k']] eqn:Hk; [lia..|].
        cbn [marks]. rewrite Hi, (cons_middle (Some (x_of (length pre))) xp), app_assoc.
        rewrite (IH (pre ++ [Some s]) (c + 1)%Z _ Hsh')
          by (rewrite !length_app; cbn; lia).
        replace (Z.to_nat (t - (c + 1))) with (S k') by lia.
        rewrite <- Hi', <- app_assoc. cbn [app].
        change (dense (Some (x_of (length pre)) :: ?r))
          with (x_of (length pre) :: dense r).
        cbn [length]. f_equal. lia.
    + rewrite Hi, (cons_middle None xp), app_assoc.
      rewrite (IH (pre ++ [None]) c _ Hsh') by (rewrite !length_app; cbn; lia).
      rewrite <- Hi', <- app_assoc. done.
Qed.

Lemma xCoords_marks (t : Z) (shares : list (option PriShare)) :
  xCoords t (Z.of_nat (length shares)) (isNotNil shares)
  = if (Z.of_nat (length (dense (marks (Z.to_nat t) 0 shares))) <? t)%Z
    then Err errNotEnoughShares
    else Ok (marks (Z.to_nat t) 0 shares).
Proof.
  unfold xCoords. destruct (Z.ltb_spec (Z.of_nat (length shares)) 0); [lia|].
  rewrite Nat2Z.id.
  pose proof (xCoords_loop_marks t shares shares [] 0%Z [] eq_refl eq_refl) as Hloop.
  cbn [length app] in Hloop. change (Z.of_nat 0) with 0%Z in Hloop.
  rewrite Hloop, Z.sub_0_r, Z.add_0_l. done.
Qed.

Lemma nodes_replicate (l : list (option PriShare)) :
  nodes (replicate (length l) None) l = [] /\ compatible (replicate (length l) None) l.
Proof. induction l as [|o l [IH1 IH2]]; [done|]. cbn. by destruct o. Qed.

Lemma marks_entries (k i : nat) (l : list (option PriShare)) :
  nodes (marks k i l) l = to_node <$> take (max k 1) (entries_from i l) /\
  compatible (marks k i l) l.
Proof.
  revert k i. induction l as [|[s|] l IH]; intros k i.
  - cbn. by rewrite take_nil.
  - cbn [marks entries_from nodes compatible].
    destruct k as [|[|k']].
    + destruct (nodes_replicate l) as [-> ?]. cbn. rewrite take_0. done.
    + destruct (nodes_replicate l) as [-> ?]. cbn. rewrite take_0. done.
    + destruct (IH (S k') (S i)) as [-> ?].
      replace (max (S k') 1) with (S k') by lia.
      replace (max (S (S k')) 1) with (S (S k')) by lia. done.
  - cbn [marks entries_from nodes compatible]. apply IH.
Qed.

Lemma dense_marks_length (k i : nat) (l : list (option PriShare)) :
  length (dense (marks k i l)) = min (max k 1) (length (entries_from i l)).
Proof.
  destruct (marks_entries k i l) as [Hn Hc].
  by rewrite <- (nodes_fst _ _ Hc), Hn, !length_fmap, length_take.
Qed.

(** *** The formula of the specification *)

Lemma entries_from_ge (i : nat) (l : list (option PriShare)) (j : nat) (s : PriShare) :
  (j, s) ∈ entries_from i l -> (i <= j)%nat /\ l !! (j - i)%nat = Some (Some s).
Proof.
  revert i. induction l as [|[s'|] l IH]; intros i Hin; cbn in Hin.
  - by apply elem_of_nil in Hin.
  - apply elem_of_cons in Hin as [[= -> ->] | Hin].
    + split; [lia|]. by rewrite Nat.sub_diag.
    + apply IH in Hin as [Hle Hl]. split; [lia|].
      replace (j - i)%nat with (S (j - S i)) by lia. done.
  - apply IH in Hin as [Hle Hl]. split; [lia|].
    replace (j - i)%nat with (S (j - S i)) by lia. done.
Qed.

Lemma entries_from_NoDup (i : nat) (l : list (option PriShare)) :
  NoDup (entries_from i l).*1.
Proof.
  revert i. induction l as [|[s|] l IH]; intros i; cbn; [constructor| |done].
  apply NoDup_cons. split; [|done].
  intros Hin. apply list_elem_of_fmap in Hin as ([j s'] & Hj & Hin). cbn in Hj. subst j.
  apply entries_from_ge in Hin as [Hle _]. lia.
Qed.

Lemma collected_NoDup (k : nat) (l : list (option PriShare)) :
  NoDup (collected k l).*1.
Proof.
  unfold collected, entries. rewrite fmap_take.
  eapply sublist_NoDup; [apply entries_from_NoDup | apply sublist_take].
Qed.

Lemma filter_all (P : nat -> Prop) `{!forall j, Decision (P j)} (l : list nat) :
  (forall j, j ∈ l -> P j) -> filter P l = l.
Proof.
  induction l as [|j l IH]; intros Hall; [done|].
  rewrite filter_cons, decide_True by (apply Hall, elem_of_cons; by left).
  f_equal. apply IH. intros j' Hj'. apply Hall, elem_of_cons. by right.
Qed.

Lemma filter_ne_middle (pre post : list nat) (i : nat) :
  i ∉ pre -> i ∉ post -> filter (fun j => j <> i) (pre ++ i :: post) = pre ++ post.
Proof.
  intros Hpre Hpost. rewrite filter_app, filter_cons, decide_False by (intros Hne; done).
  rewrite !filter_all; [done| |]; by intros j Hj ->.
Qed.

Lemma to_node_fst (pts : list (nat * PriShare)) :
  (to_node <$> pts).*1 = x_of <$> pts.*1.
Proof. induction pts as [|[i s] pts IH]; [done|]. cbn. by rewrite IH. Qed.

Lemma diffs_x_of (x : Scalar) (l : list nat) :
  diffs x (x_of <$> l) = (fun j => x_of j - x) <$> l.
Proof. induction l as [|j l IH]; [done|]. cbn. by rewrite <- IH. Qed.

Lemma interpolate_csum_gen (post : list (nat * PriShare)) (pre : list nat) :
  NoDup (pre ++ post.*1) ->
  total ((fun '(i, s) => V s * basis_at_zero (pre ++ post.*1) i) <$> post)
  = csum (x_of <$> pre) (to_node <$> post).
Proof.
  revert pre. induction post as [|[i s] post IH]; intros pre Hnd; [done|].
  cbn [fmap list_fmap fst csum total foldr]. fold (total).
  change (NoDup (pre ++ i :: post.*1)) in Hnd.
  pose proof Hnd as Hnd'.
  apply NoDup_app in Hnd' as (_ & Hdisj & Hpost).
  apply NoDup_cons in Hpost as [Hi _].
  assert (i ∉ pre) as Hipre
    by (intros Hin; apply (Hdisj i Hin), elem_of_cons; by left).
  f_equal.
  - unfold basis_at_zero, cterm, to_node. rewrite filter_ne_middle by done.
    rewrite div_mul_assoc. cbn [fst snd]. fold to_node.
    by rewrite to_node_fst, <- fmap_app, diffs_x_of.
  - rewrite (cons_middle i pre), app_assoc in Hnd |- *.
    change (total ((fun '(i0, s0) => V s0 * basis_at_zero ((pre ++ [i]) ++ post.*1) i0)
                     <$> post)
            = csum ((x_of <$> pre) ++ [x_of i]) (to_node <$> post)).
    rewrite (IH _ Hnd), fmap_app. done.
Qed.

Lemma interpolate_csum (pts : list (nat * PriShare)) :
  NoDup pts.*1 -> interpolate_at_zero pts = csum [] (to_node <$> pts).
Proof. intros Hnd. apply (interpolate_csum_gen pts [] Hnd). Qed.

(** [RecoverSecret] in closed form: the error test, and the interpolation
    from the entries [xCoords] has kept. *)
Lemma RecoverSecret_eq (grp : Group) (shares : list (option PriShare)) (t : Z) :
  RecoverSecret grp shares t
  = if (Z.of_nat (count_non_nil shares) <? t)%Z then Err errNotEnoughShares
    else Ok (interpolate_at_zero (collected (max (Z.to_nat t) 1) shares)).
Proof.
  unfold RecoverSecret. rewrite xCoords_marks, dense_marks_length.
  fold (entries shares). fold (count_non_nil shares).
  destruct (marks_entries (Z.to_nat t) 0 shares) as [Hn Hc].
  destruct (Z.ltb_spec (Z.of_nat (count_non_nil shares)) t) as [Hlt|Hge].
  - destruct (Z.ltb_spec (Z.of_nat (min (max (Z.to_nat t) 1) (count_non_nil shares))) t);
      [done|lia].
  - destruct (Z.ltb_spec (Z.of_nat (min (max (Z.to_nat t) 1) (count_non_nil shares))) t);
      [lia|].
    cbn [mbind res_mbind res_bind].
    pose proof (lagrange_outer_csum (marks (Z.to_nat t) 0 shares) [] shares [] 0
                  eq_refl Hc) as Houter.
    cbn [app length] in Houter. rewrite Houter, Hn.
    rewrite interpolate_csum by apply collected_NoDup.
    f_equal. unfold collected, entries. cbn [dense omap list_omap]. ring.
Qed.

(** Below the threshold 1 the loop of [xCoords] still keeps the first
    non-nil entry it meets: [RecoverSecret] never fails there, and
    interpolates from that entry alone. *)
Lemma RecoverSecret_nonpositive_threshold (grp : Group)
    (shares : list (option PriShare)) (t : Z) :
  (t <= 0)%Z ->
  RecoverSecret grp shares t = Ok (interpolate_at_zero (collected 1 shares)).
Proof.
  intros Ht. rewrite RecoverSecret_eq.
  destruct (Z.ltb_spec (Z.of_nat (count_non_nil shares)) t) as [Hlt|Hge]; [lia|].
  by replace (max (Z.to_nat t) 1) with 1%nat by lia.
Qed.

(** C9 (as the code has it).  For every share list and threshold [t],
    [RecoverSecret] returns the error "not enough shares" exactly when the
    list holds fewer than [t] non-nil shares.  For a threshold [t >= 1] that
    the list meets it succeeds, with the interpolation at zero from exactly
    the first [t] non-nil entries in index order. *)
Theorem RecoverSecret_threshold (grp : Group) (shares : list (option PriShare)) (t : Z) :
  (RecoverSecret grp shares t = Err errNotEnoughShares <->
     (Z.of_nat (count_non_nil shares) < t)%Z) /\
  ((1 <= t <= Z.of_nat (count_non_nil shares))%Z ->
     RecoverSecret grp shares t
     = Ok (interpolate_at_zero (collected (Z.to_nat t) shares))).
Proof.
  rewrite RecoverSecret_eq.
  destruct (Z.ltb_spec (Z.of_nat (count_non_nil shares)) t) as [Hlt|Hge].
  - split; [done|]. intros; lia.
  - split; [split; [done|lia]|].
    intros Ht. by replace (max (Z.to_nat t) 1) with (Z.to_nat t) by lia.
Qed.

Lemma masked_lookup (keep : list bool) (all : list (option PriShare)) (j : nat)
    (sh : PriShare) :
  masked keep all !! j = Some (Some sh) -> all !! j = Some (Some sh).
Proof.
  unfold masked. intros Hl.
  apply lookup_zip_with_Some in Hl as (k & o & Heq & _ & Ho).
  destruct k; by simplify_eq.
Qed.

(** C1. With [2 <= t <= n] and [p = NewPriPoly(g, t, s, rand)], every share
    list made of [p.Shares(n)] with entries replaced by nil, at least [t]
    of them left, is reconstructed by [RecoverSecret] to [s], the constant
    coefficient of [p], with no error.  The group is large enough for the
    [n] x-coordinates [1 .. n] to be distinct scalars. *)
Theorem RecoverSecret_NewPriPoly (grp : Group) (t n : Z) (s : Scalar)
    (rand rand' : Stream) (p : PriPoly) (all : list (option PriShare))
    (keep : list bool) :
  (2 <= t <= n)%Z ->
  (forall i j : nat, (i < j)%nat -> (Z.of_nat j < n)%Z -> x_of i <> x_of j) ->
  NewPriPoly grp t (Some s) rand = Ok (p, rand') ->
  PriPoly_Shares p n = Ok all ->
  (t <= Z.of_nat (count_non_nil (masked keep all)))%Z ->
  RecoverSecret grp (masked keep all) t = Ok s /\ GetSecret p = Ok s.
Proof.
  intros Ht Hinj Hnew Hall Hcount.
  destruct (NewPriPoly_Ok grp t (Some s) rand) as (p0 & r0 & Hnew0 & _ & Hlen & Hhead);
    [lia|].
  rewrite Hnew in Hnew0. injection Hnew0 as <- <-.
  specialize (Hhead s eq_refl).
  destruct (coeffs p) as [|c0 cs] eqn:Hcs; [done|]. injection Hhead as ->.
  split; [|by unfold GetSecret; rewrite Hcs].
  unfold PriPoly_Shares in Hall.
  destruct (Z.ltb_spec n 0); [lia|]. injection Hall as <-.
  set (shares := masked keep _) in *.
  rewrite RecoverSecret_eq.
  destruct (Z.ltb_spec (Z.of_nat (count_non_nil shares)) t) as [Hlt|_]; [lia|].
  replace (max (Z.to_nat t) 1) with (Z.to_nat t) by lia.
  f_equal. set (pts := collected (Z.to_nat t) shares).
  assert (forall j sh, (j, sh) ∈ pts ->
            (Z.of_nat j < n)%Z /\ V sh = horner (s :: cs) (x_of j)) as Hpts.
  { intros j sh Hin. apply elem_of_take in Hin as (k & Hk & _).
    apply list_elem_of_lookup_2, entries_from_ge in Hk as [_ Hl].
    rewrite Nat.sub_0_r in Hl. apply masked_lookup in Hl.
    rewrite list_lookup_fmap in Hl.
    destruct (seq 0 (Z.to_nat n) !! j) as [j'|] eqn:Hj; [|done].
    apply lookup_seq in Hj as [-> Hjn]. cbn in Hl. injection Hl as <-.
    split; [lia|]. unfold PriPoly_Eval. cbn [V]. by rewrite Hcs. }
  assert (NoDup (x_of <$> pts.*1)) as Hnd.
  { apply NoDup_fmap_2_strong; [|apply collected_NoDup].
    intros i j Hi Hj Heq.
    apply list_elem_of_fmap in Hi as ([i' si] & -> & Hi).
    apply list_elem_of_fmap in Hj as ([j' sj] & -> & Hj).
    apply Hpts in Hi as [Hi _]. apply Hpts in Hj as [Hj _]. cbn [fst] in *.
    destruct (Nat.lt_trichotomy i' j') as [Hlt | [-> | Hgt]]; [|done|].
    - by apply Hinj in Heq.
    - symmetry in Heq. by apply Hinj in Heq. }
  rewrite interpolate_csum by apply collected_NoDup.
  rewrite (csum_G (horner (s :: cs))).
  - rewrite to_node_fst.
    rewrite (G_ext 0 _ _ (horner (s :: cs))).
    + rewrite G_horner; [unfold horner; cbn [foldr]; ring | done |].
      rewrite !length_fmap. unfold pts, collected. rewrite length_take.
      fold (count_non_nil shares). cbn [length] in *. lia.
    + intros x _. unfold product, diffs. cbn [fmap list_fmap foldr]. field.
      apply (F_1_neq_0 scalar_field).
  - cbn [app]. by rewrite to_node_fst.
  - intros x v Hin. apply list_elem_of_fmap in Hin as ([j sh] & [= -> ->] & Hin).
    by apply Hpts in Hin as [_ ->].
Qed.

End lagrange.

(** ** Arithmetic and comparison of polynomials *)

Section polynomial_arithmetic.
Context `{Suite} `{!SuiteLaws}.
Import share.

Add Field scalar_field_arith : scalar_field.

Lemma horner_zip_with_SAdd (cs ds : list Scalar) (x : Scalar) :
  length cs = length ds ->
  horner (zip_with SAdd cs ds) x = (horner cs x + horner ds x)%S.
Proof.
  revert ds. induction cs as [|c cs IH]; intros [|d ds] Hlen; try done.
  - cbn. ring.
  - injection Hlen as Hlen. unfold horner in *. cbn [zip_with foldr].
    rewrite IH by done. ring.
Qed.

Lemma PriPoly_Add_Ok (p q : PriPoly) :
  g p = g q -> length (coeffs p) = length (coeffs q) ->
  PriPoly_Add p q = Ok (mkPriPoly (g p) (zip_with SAdd (coeffs p) (coeffs q))).
Proof.
  intros Hg Hlen. unfold PriPoly_Add, PriPoly_Threshold.
  rewrite bool_decide_eq_true_2 by done. rewrite Hlen, Z.eqb_refl. done.
Qed.

Lemma PriPoly_Add_inv (p q r : PriPoly) :
  PriPoly_Add p q = Ok r ->
  g p = g q /\ length (coeffs p) = length (coeffs q) /\
  r = mkPriPoly (g p) (zip_with SAdd (coeffs p) (coeffs q)).
Proof.
  unfold PriPoly_Add, PriPoly_Threshold.
  destruct (bool_decide_reflect (g p = g q)) as [Hg|]; [|done]. cbn [negb].
  destruct (Z.eqb_spec (Z.of_nat (length (coeffs p))) (Z.of_nat (length (coeffs q))))
    as [Hlen|]; [|done].
  cbn [negb]. intros [= <-]. split_and!; [done|lia|done].
Qed.

(** X1.  [PriPoly.Add] succeeds exactly when the two polynomials are over
    the same group object and have the same number of coefficients; the sum
    then keeps the group and the threshold, and its share at every index is
    the sum of the two shares at that index. *)
Theorem PriPoly_Add_Eval (p q : PriPoly) :
  (is_Ok (PriPoly_Add p q) = true <->
     g p = g q /\ PriPoly_Threshold p = PriPoly_Threshold q) /\
  (forall r, PriPoly_Add p q = Ok r ->
     g r = g p /\ PriPoly_Threshold r = PriPoly_Threshold p /\
     forall i, I (PriPoly_Eval r i) = i /\
       V (PriPoly_Eval r i) = (V (PriPoly_Eval p i) + V (PriPoly_Eval q i))%S).
Proof.
  split.
  - split.
    + destruct (PriPoly_Add p q) as [r| |] eqn:Hadd; [|done..]. intros _.
      apply PriPoly_Add_inv in Hadd as (Hg & Hlen & _).
      unfold PriPoly_Threshold. split; [done|lia].
    + intros [Hg Hlen]. unfold PriPoly_Threshold in Hlen.
      rewrite PriPoly_Add_Ok; [done|done|lia].
  - intros r Hadd. apply PriPoly_Add_inv in Hadd as (Hg & Hlen & ->).
    unfold PriPoly_Threshold, PriPoly_Eval. cbn [g coeffs I V].
    split; [done|]. split.
    + rewrite length_zip_with. lia.
    + intros i. split; [done|]. by apply horner_zip_with_SAdd.
Qed.

Lemma iface_eq_refl (b0 : option PointRef) : iface_eq b0 b0 = true.
Proof. destruct b0 as [r|]; [apply N.eqb_refl|done]. Qed.

Lemma zip_with_PAdd_Commit (b0 : option Point) (cs ds : list Scalar) :
  zip_with PAdd ((fun c => PMul b0 c) <$> cs) ((fun c => PMul b0 c) <$> ds)
  = (fun c => PMul b0 c) <$> zip_with SAdd cs ds.
Proof.
  revert ds. induction cs as [|c cs IH]; intros [|d ds]; try done.
  cbn [fmap list_fmap zip_with]. cbn [fmap] in IH. by rewrite IH, PAdd_PMul.
Qed.

(** X2.  Committing is additive: when [p.Add(q)] returns [r], adding the
    commitments of [p] and [q] to one base object succeeds and returns the
    commitment of [r] to that base. *)
Theorem PubPoly_Add_Commit (p q r : PriPoly) (b0 : option PointRef) :
  PriPoly_Add p q = Ok r ->
  PubPoly_Add (Commit p b0) (Commit q b0) = Ok (Commit r b0).
Proof.
  intros Hadd. apply PriPoly_Add_inv in Hadd as (Hg & Hlen & ->).
  unfold PubPoly_Add, Commit, PubPoly_Threshold. cbn [pub_g b commits g coeffs].
  rewrite bool_decide_eq_true_2 by done. rewrite iface_eq_refl. cbn [negb].
  rewrite !length_fmap, Hlen, Z.eqb_refl. cbn [negb].
  by rewrite zip_with_PAdd_Commit.
Qed.

Lemma equal_loop_true {A : Type} (equal : A -> A -> bool)
    (Hequal : forall x y, equal x y = true <-> x = y) (ps qs : list A) :
  equal_loop equal ps qs = Ok true <-> ps `prefix_of` qs.
Proof.
  revert qs. induction ps as [|c ps IH]; intros qs.
  - split; [intros _; apply prefix_nil|done].
  - destruct qs as [|d qs]; cbn [equal_loop].
    + split; [done|]. intros Hp. by apply prefix_nil_inv in Hp.
    + destruct (equal c d) eqn:Hcd; cbn [negb].
      * apply Hequal in Hcd as ->. rewrite IH. split.
        -- apply prefix_cons.
        -- intros Hp. by apply prefix_cons_inv_2 in Hp.
      * split; [done|]. intros Hp. apply prefix_cons_inv_1 in Hp.
        apply Hequal in Hp. congruence.
Qed.

Lemma equal_loop_panic {A : Type} (equal : A -> A -> bool)
    (Hequal : forall x y, equal x y = true <-> x = y) (ps qs : list A) :
  equal_loop equal ps qs = Panic <-> exists c rest, ps = qs ++ c :: rest.
Proof.
  revert qs. induction ps as [|c ps IH]; intros qs.
  - split; [done|]. intros (c & rest & Heq). by destruct qs.
  - destruct qs as [|d qs]; cbn [equal_loop].
    + split; [|done]. intros _. by exists c, ps.
    + destruct (equal c d) eqn:Hcd; cbn [negb].
      * apply Hequal in Hcd as ->. rewrite IH. split.
        -- intros (c' & rest & ->). by exists c', rest.
        -- intros (c' & rest & [= ->]). by exists c', rest.
      * split; [done|]. intros (c' & rest & [= -> _]).
        assert (equal d d = true) by by apply Hequal. congruence.
Qed.

End polynomial_arithmetic.

Section scalar_comparison.
Context `{Suite} `{!share.Equality} `{!EqualityLaws}.
Import share.

(** X3.  [PriPoly.Equal] walks the coefficients of the receiver only: it
    returns true exactly when the groups print alike and the receiver's
    coefficients are a prefix of the argument's, and it panics (index out of
    range) exactly when the groups print alike and the argument's
    coefficients are a proper prefix of the receiver's. *)
Theorem PriPoly_Equal_prefix (p q : PriPoly) :
  (PriPoly_Equal p q = Ok true <->
     GroupString (g p) = GroupString (g q) /\ coeffs p `prefix_of` coeffs q) /\
  (PriPoly_Equal p q = Panic <->
     GroupString (g p) = GroupString (g q) /\
     exists c rest, coeffs p = coeffs q ++ c :: rest).
Proof.
  unfold PriPoly_Equal.
  destruct (bool_decide_reflect (GroupString (g p) = GroupString (g q)))
    as [Hg|Hg]; cbn [negb].
  - rewrite (equal_loop_true SEqual SEqual_eq), (equal_loop_panic SEqual SEqual_eq).
    split; (split; [intros Hp; by split|by intros [_ Hp]]).
  - split; (split; [done|by intros [Hg' _]]).
Qed.

End scalar_comparison.

Section point_comparison.
Context `{Suite} `{!SuiteLaws} `{!share.Equality}.
Import share.

(** X4.  [PubPoly.Equal] walks the commitments of the receiver only: it
    returns true exactly when the groups print alike and the receiver's
    commitments are a prefix of the argument's, and it panics (index out of
    range) exactly when the groups print alike and the argument's
    commitments are a proper prefix of the receiver's. *)
Theorem PubPoly_Equal_prefix (p q : PubPoly) :
  (PubPoly_Equal p q = Ok true <->
     GroupString (pub_g p) = GroupString (pub_g q) /\ commits p `prefix_of` commits q) /\
  (PubPoly_Equal p q = Panic <->
     GroupString (pub_g p) = GroupString (pub_g q) /\
     exists c rest, commits p = commits q ++ c :: rest).
Proof.
  unfold PubPoly_Equal.
  destruct (bool_decide_reflect (GroupString (pub_g p) = GroupString (pub_g q)))
    as [Hg|Hg]; cbn [negb].
  - rewrite (equal_loop_true PEqual PEqual_eq), (equal_loop_panic PEqual PEqual_eq).
    split; (split; [intros Hp; by split|by intros [_ Hp]]).
  - split; (split; [done|by intros [Hg' _]]).
Qed.

End point_comparison.

Section point_arithmetic.
Context `{Suite} `{!PointLaws}.
Import share.

Lemma PAdd_interchange (A B C D : Point) :
  PAdd (PAdd A B) (PAdd C D) = PAdd (PAdd A C) (PAdd B D).
Proof.
  rewrite <- (PAdd_assoc A B (PAdd C D)), (PAdd_assoc B C D), (PAdd_comm B C).
  by rewrite <- (PAdd_assoc C B D), (PAdd_assoc A C (PAdd B D)).
Qed.

Lemma horner_pub_zip_with_PAdd (cs ds : list Point) (x : Scalar) :
  length cs = length ds ->
  horner_pub (zip_with PAdd cs ds) x = PAdd (horner_pub cs x) (horner_pub ds x).
Proof.
  revert ds. induction cs as [|c cs IH]; intros [|d ds] Hlen; try done.
  - cbn. by rewrite PAdd_Null.
  - injection Hlen as Hlen. unfold horner_pub in *. cbn [zip_with foldr].
    rewrite IH by done. by rewrite PMul_PAdd, PAdd_interchange.
Qed.

(** X5.  [PubPoly.Add] succeeds exactly when the two polynomials are over
    the same group object, hold the same base object (both nil, or one
    pointer) and have the same number of commitments; the public share of
    the sum at every index is then the sum of the two public shares. *)
Theorem PubPoly_Add_Eval (p q : PubPoly) :
  (is_Ok (PubPoly_Add p q) = true <->
     pub_g p = pub_g q /\ iface_eq (b p) (b q) = true /\
     PubPoly_Threshold p = PubPoly_Threshold q) /\
  (forall r, PubPoly_Add p q = Ok r ->
     b r = b p /\ PubPoly_Threshold r = PubPoly_Threshold p /\
     forall i, pub_I (PubPoly_Eval r i) = i /\
       pub_V (PubPoly_Eval r i)
       = PAdd (pub_V (PubPoly_Eval p i)) (pub_V (PubPoly_Eval q i))).
Proof.
  unfold PubPoly_Add, PubPoly_Threshold.
  destruct (bool_decide_reflect (pub_g p = pub_g q)) as [Hg|Hg]; cbn [negb];
    [|split; [split; [done|tauto]|done]].
  destruct (iface_eq (b p) (b q)) eqn:Hb; cbn [negb];
    [|split; [split; [done|intros (_ & ? & _); done]|done]].
  destruct (Z.eqb_spec (Z.of_nat (length (commits p))) (Z.of_nat (length (commits q))))
    as [Hlen|Hlen]; cbn [negb]; [|split; [split; [done|tauto]|done]].
  split; [done|]. intros r [= <-]. unfold PubPoly_Eval. cbn [b commits pub_I pub_V].
  split; [done|]. split.
  - rewrite length_zip_with. lia.
  - intros i. split; [done|]. apply horner_pub_zip_with_PAdd. lia.
Qed.

End point_arithmetic.

(** ** Reconstruction of the commitment, and more on [RecoverSecret] *)

Section recover.
Context `{Suite} `{!SuiteLaws}.
Import share spec interp.

Add Field scalar_field_recover : scalar_field.

Local Open Scope scalar_scope.

Lemma xCoords_loop_ext (t : Z) (f1 f2 : Z -> bool) (fuel : nat) (i c : Z)
    (x : list (option Scalar)) :
  (forall j, f1 j = f2 j) ->
  xCoords_loop t f1 fuel i c x = xCoords_loop t f2 fuel i c x.
Proof.
  intros Hf. revert i c x. induction fuel as [|fuel IH]; intros i c x; [done|].
  cbn [xCoords_loop]. rewrite Hf. destruct (f2 i); [|apply IH].
  destruct (c + 1 >=? t)%Z; [done|apply IH].
Qed.

Lemma xCoords_ext (t n : Z) (f1 f2 : Z -> bool) :
  (forall j, f1 j = f2 j) -> xCoords t n f1 = xCoords t n f2.
Proof. intros Hf. unfold xCoords. by rewrite (xCoords_loop_ext t f1 f2). Qed.

(** Two lists with nil entries at the same positions. *)
Lemma isNotNil_pub_Forall2 (R : option PubShare -> option PriShare -> Prop)
    (PS : list (option PubShare)) (ss : list (option PriShare)) :
  (forall P s, R P s -> is_Some P <-> is_Some s) ->
  Forall2 R PS ss ->
  forall i, isNotNil_pub PS i = isNotNil ss i.
Proof.
  intros HR HF i. unfold isNotNil_pub, isNotNil.
  rewrite (Forall2_length _ _ _ HF). f_equal.
  pose proof (proj1 (Forall2_lookup _ _ _) HF (Z.to_nat i)) as Hi.
  destruct Hi as [P s Hi|]; [|done].
  apply HR in Hi. destruct P, s; try done.
  - destruct Hi as [Hi _]. by destruct Hi.
  - destruct Hi as [_ Hi]. by destruct Hi.
Qed.

Lemma isNotNil_Forall2 (R : option PriShare -> option PriShare -> Prop)
    (ss ss' : list (option PriShare)) :
  (forall s s', R s s' -> is_Some s <-> is_Some s') ->
  Forall2 R ss ss' ->
  forall i, isNotNil ss i = isNotNil ss' i.
Proof.
  intros HR HF i. unfold isNotNil.
  rewrite (Forall2_length _ _ _ HF). f_equal.
  pose proof (proj1 (Forall2_lookup _ _ _) HF (Z.to_nat i)) as Hi.
  destruct Hi as [s s' Hi|]; [|done].
  apply HR in Hi. destruct s, s'; try done.
  - destruct Hi as [Hi _]. by destruct Hi.
  - destruct Hi as [_ Hi]. by destruct Hi.
Qed.

Lemma commits_to_is_Some (b0 : option Point) (P : option PubShare) (s : option PriShare) :
  commits_to b0 P s -> is_Some P <-> is_Some s.
Proof. destruct P, s; cbn; try done; intros _; split; by eexists. Qed.

Lemma same_values_is_Some (s s' : option PriShare) :
  same_values s s' -> is_Some s <-> is_Some s'.
Proof. destruct s, s'; cbn; try done; intros _; split; by eexists. Qed.

Lemma lagrange_inner_scale (v : Scalar) (i : nat) (xi : Scalar) (j : nat)
    (xs : list (option Scalar)) (num den : Scalar) :
  lagrange_inner i xi j xs (v * num) den
  = ((v * (lagrange_inner i xi j xs num den).1), (lagrange_inner i xi j xs num den).2).
Proof.
  revert j num den. induction xs as [|[xj|] xs IH]; intros j num den;
    cbn [lagrange_inner]; [done| |apply IH].
  destruct (j =? i)%nat; [apply IH|].
  replace (v * num * xj) with (v * (num * xj)) by ring. apply IH.
Qed.

Lemma commit_outer_lagrange_outer (b0 : option Point) (x : list (option Scalar))
    (PS : list (option PubShare)) (ss : list (option PriShare)) :
  Forall2 (commits_to b0) PS ss ->
  forall (xs : list (option Scalar)) (i : nat) (acc : Scalar),
    commit_outer x PS i xs (PMul b0 acc)
    = (s ← lagrange_outer x ss i xs acc; Ok (PMul b0 s)).
Proof.
  intros HF. induction xs as [|[xi|] xs IH]; intros i acc;
    cbn [commit_outer lagrange_outer]; [done| |apply IH].
  pose proof (proj1 (Forall2_lookup _ _ _) HF i) as Hi.
  destruct Hi as [P s Hi|]; [|done].
  destruct P as [P|], s as [s|]; try done. cbn [commits_to] in Hi.
  assert (lagrange_inner i xi 0 x (V s) 1
          = (V s * (lagrange_inner i xi 0 x 1 1).1, (lagrange_inner i xi 0 x 1 1).2))
    as Hinner.
  { rewrite <- lagrange_inner_scale. f_equal. ring. }
  rewrite Hinner. destruct (lagrange_inner i xi 0 x 1 1) as [num den]. cbn [fst snd].
  rewrite Hi, PMul_PMul, PAdd_PMul, div_mul_assoc. apply IH.
Qed.

Lemma RecoverCommit_mirror (grp : Group) (b0 : option Point)
    (PS : list (option PubShare)) (ss : list (option PriShare)) (t : Z) :
  Forall2 (commits_to b0) PS ss ->
  RecoverCommit grp PS t = (s ← RecoverSecret grp ss t; Ok (PMul b0 s)).
Proof.
  intros HF. unfold RecoverCommit, RecoverSecret.
  rewrite (xCoords_ext _ _ _ _ (isNotNil_pub_Forall2 _ _ _ (commits_to_is_Some b0) HF)).
  rewrite (Forall2_length _ _ _ HF).
  destruct (xCoords t _ (isNotNil ss)) as [x| |]; [|done..].
  cbn [mbind res_mbind res_bind].
  rewrite <- (PMul_Zero b0). by apply commit_outer_lagrange_outer.
Qed.

(** X6.  [RecoverCommit] mirrors [RecoverSecret] in the exponent: on a list
    of public shares whose values are the multiples of one base by the
    values of a list of private shares, nil at the same positions, it fails
    or panics as [RecoverSecret] does on the private list, and otherwise
    returns the multiple of the base by the scalar [RecoverSecret] returns. *)
Theorem RecoverCommit_RecoverSecret (grp : Group) (b0 : option Point)
    (PS : list (option PubShare)) (ss : list (option PriShare)) (t : Z) :
  Forall2 (commits_to b0) PS ss ->
  RecoverCommit grp PS t = (s ← RecoverSecret grp ss t; Ok (PMul b0 s)).
Proof. apply RecoverCommit_mirror. Qed.

Lemma lagrange_outer_same_values (x : list (option Scalar))
    (ss ss' : list (option PriShare)) :
  Forall2 same_values ss ss' ->
  forall (xs : list (option Scalar)) (i : nat) (acc : Scalar),
    lagrange_outer x ss i xs acc = lagrange_outer x ss' i xs acc.
Proof.
  intros HF. induction xs as [|[xi|] xs IH]; intros i acc;
    cbn [lagrange_outer]; [done| |apply IH].
  pose proof (proj1 (Forall2_lookup _ _ _) HF i) as Hi.
  destruct Hi as [s s' Hi|]; [|done].
  destruct s as [s|], s' as [s'|]; try done. cbn [same_values] in Hi.
  rewrite Hi. destruct (lagrange_inner _ _ _ _ _ _). apply IH.
Qed.

(** X7.  [RecoverSecret] never reads the index field [I] of a share: the
    x-coordinate of a share is its position in the list.  Two lists with
    the same values at the same positions, nil at the same positions, give
    the same outcome whatever their index fields say. *)
Theorem RecoverSecret_positional (grp : Group) (ss ss' : list (option PriShare)) (t : Z) :
  Forall2 same_values ss ss' ->
  RecoverSecret grp ss t = RecoverSecret grp ss' t.
Proof.
  intros HF. unfold RecoverSecret.
  rewrite (xCoords_ext _ _ _ _ (isNotNil_Forall2 _ _ _ same_values_is_Some HF)).
  rewrite (Forall2_length _ _ _ HF).
  destruct (xCoords t _ (isNotNil ss')) as [x| |]; [|done..].
  cbn [mbind res_mbind res_bind]. by apply lagrange_outer_same_values.
Qed.

Lemma masked_length (keep : list bool) (all : list (option PriShare)) :
  length (masked keep all) = min (length keep) (length all).
Proof. apply length_zip_with. Qed.

(** The reconstruction from shares of any polynomial of at most [t]
    coefficients. *)
Lemma RecoverSecret_shares (grp : Group) (p : PriPoly) (t n : Z)
    (all : list (option PriShare)) (keep : list bool) :
  (1 <= t)%Z ->
  (PriPoly_Threshold p <= t)%Z ->
  (forall i j : nat, (i < j)%nat -> (Z.of_nat j < n)%Z -> x_of i <> x_of j) ->
  PriPoly_Shares p n = Ok all ->
  (t <= Z.of_nat (count_non_nil (masked keep all)))%Z ->
  RecoverSecret grp (masked keep all) t = Ok (horner (coeffs p) 0).
Proof.
  intros Ht Hthr Hinj Hall Hcount. unfold PriPoly_Threshold in Hthr.
  unfold PriPoly_Shares in Hall.
  destruct (Z.ltb_spec n 0); [done|]. injection Hall as <-.
  set (shares := masked keep _) in *.
  rewrite RecoverSecret_eq.
  destruct (Z.ltb_spec (Z.of_nat (count_non_nil shares)) t) as [Hlt|_]; [lia|].
  replace (max (Z.to_nat t) 1) with (Z.to_nat t) by lia.
  f_equal. set (pts := collected (Z.to_nat t) shares).
  assert (forall j sh, (j, sh) ∈ pts ->
            (Z.of_nat j < n)%Z /\ V sh = horner (coeffs p) (x_of j)) as Hpts.
  { intros j sh Hin. apply elem_of_take in Hin as (k & Hk & _).
    apply list_elem_of_lookup_2, entries_from_ge in Hk as [_ Hl].
    rewrite Nat.sub_0_r in Hl. apply masked_lookup in Hl.
    rewrite list_lookup_fmap in Hl.
    destruct (seq 0 (Z.to_nat n) !! j) as [j'|] eqn:Hj; [|done].
    apply lookup_seq in Hj as [-> Hjn]. cbn in Hl. injection Hl as <-.
    split; [lia|]. done. }
  assert (NoDup (x_of <$> pts.*1)) as Hnd.
  { apply NoDup_fmap_2_strong; [|apply collected_NoDup].
    intros i j Hi Hj Heq.
    apply list_elem_of_fmap in Hi as ([i' si] & -> & Hi).
    apply list_elem_of_fmap in Hj as ([j' sj] & -> & Hj).
    apply Hpts in Hi as [Hi _]. apply Hpts in Hj as [Hj _]. cbn [fst] in *.
    destruct (Nat.lt_trichotomy i' j') as [Hlt | [-> | Hgt]]; [|done|].
    - by apply Hinj in Heq.
    - symmetry in Heq. by apply Hinj in Heq. }
  rewrite interpolate_csum by apply collected_NoDup.
  rewrite (csum_G (horner (coeffs p))).
  - rewrite to_node_fst.
    rewrite (G_ext 0 _ _ (horner (coeffs p))).
    + rewrite G_horner; [done | done |].
      rewrite !length_fmap. unfold pts, collected. rewrite length_take.
      fold (count_non_nil shares). lia.
    + intros x _. unfold product, diffs. cbn [fmap list_fmap foldr]. field.
      apply (F_1_neq_0 scalar_field).
  - cbn [app]. by rewrite to_node_fst.
  - intros x v Hin. apply list_elem_of_fmap in Hin as ([j sh] & [= -> ->] & Hin).
    by apply Hpts in Hin as [_ ->].
Qed.

Lemma GetSecret_horner (p : PriPoly) (s : Scalar) :
  GetSecret p = Ok s -> horner (coeffs p) 0 = s.
Proof.
  unfold GetSecret. destruct (coeffs p) as [|c0 cs]; [done|]. intros [= ->].
  unfold horner. cbn [foldr]. ring.
Qed.

(** X8.  A threshold above the one the polynomial was made with does no
    harm: for any sharing polynomial [p] with secret [s] and any
    [t >= max(1, p.Threshold())], [RecoverSecret] with threshold [t] returns
    [s] from every list made of [p.Shares(n)] with entries replaced by nil,
    at least [t] of them left.  The [n] x-coordinates are distinct scalars. *)
Theorem RecoverSecret_larger_threshold (grp : Group) (p : PriPoly) (s : Scalar)
    (t n : Z) (all : list (option PriShare)) (keep : list bool) :
  GetSecret p = Ok s ->
  (1 <= t)%Z ->
  (PriPoly_Threshold p <= t)%Z ->
  (forall i j : nat, (i < j)%nat -> (Z.of_nat j < n)%Z -> x_of i <> x_of j) ->
  PriPoly_Shares p n = Ok all ->
  (t <= Z.of_nat (count_non_nil (masked keep all)))%Z ->
  RecoverSecret grp (masked keep all) t = Ok s.
Proof.
  intros Hs Ht Hthr Hinj Hall Hcount.
  rewrite (RecoverSecret_shares grp p t n all keep) by done.
  f_equal. by apply GetSecret_horner.
Qed.

Lemma entries_from_length (i : nat) (l : list (option PriShare)) :
  length (entries_from i l) = length (omap id l).
Proof.
  revert i. induction l as [|[s|] l IH]; intros i; cbn; [done| |apply IH].
  f_equal. apply IH.
Qed.

Lemma count_non_nil_Forall2 (R : option PubShare -> option PriShare -> Prop)
    (PS : list (option PubShare)) (ss : list (option PriShare)) :
  (forall P s, R P s -> is_Some P <-> is_Some s) ->
  Forall2 R PS ss ->
  count_non_nil ss = count_non_nil_pub PS.
Proof.
  intros HR HF. unfold count_non_nil, entries, count_non_nil_pub.
  rewrite entries_from_length.
  induction HF as [|P s PS ss HPs HF IH]; [done|].
  apply HR in HPs. destruct P as [P|], s as [s|]; cbn.
  - by rewrite IH.
  - destruct HPs as [HPs _]. by destruct HPs.
  - destruct HPs as [_ HPs]. by destruct HPs.
  - done.
Qed.

Lemma masked_commits_to (b0 : option Point) (keep : list bool)
    (PS : list (option PubShare)) (ss : list (option PriShare)) :
  Forall2 (commits_to b0) PS ss ->
  Forall2 (commits_to b0) (masked_pub keep PS) (masked keep ss).
Proof.
  intros HF. revert keep. induction HF as [|P s PS ss HPs HF IH]; intros [|k keep];
    cbn; try constructor; [|apply IH].
  by destruct k.
Qed.

(** X9.  The commitment to the secret is recovered from public shares: for
    any sharing polynomial [p] with secret [s], base [b] and
    [t >= max(1, p.Threshold())], [RecoverCommit] returns [s] times the base —
    the commitment [GetCommit] reads off [p.Commit(b)] — from every list made
    of the [Shares(n)] of [p.Commit(b)] with entries replaced by nil, at
    least [t] of them left.  The [n] x-coordinates are distinct scalars. *)
Theorem RecoverCommit_Commit (grp : Group) (p : PriPoly) (s : Scalar)
    (b0 : option PointRef) (t n : Z) (all : list (option PubShare)) (keep : list bool) :
  GetSecret p = Ok s ->
  (1 <= t)%Z ->
  (PriPoly_Threshold p <= t)%Z ->
  (forall i j : nat, (i < j)%nat -> (Z.of_nat j < n)%Z -> x_of i <> x_of j) ->
  PubPoly_Shares (Commit p b0) n = Ok all ->
  (t <= Z.of_nat (count_non_nil_pub (masked_pub keep all)))%Z ->
  RecoverCommit grp (masked_pub keep all) t = Ok (PMul (base_arg b0) s) /\
  GetCommit (Commit p b0) = Ok (PMul (base_arg b0) s).
Proof.
  intros Hs Ht Hthr Hinj Hall Hcount. split.
  - unfold PubPoly_Shares in Hall. destruct (Z.ltb_spec n 0) as [|Hn]; [done|].
    injection Hall as <-.
    set (priv := (fun i : nat => Some (PriPoly_Eval p (Z.of_nat i))) <$> seq 0 (Z.to_nat n)).
    assert (PriPoly_Shares p n = Ok priv) as Hpriv.
    { unfold PriPoly_Shares. by destruct (Z.ltb_spec n 0); [lia|]. }
    assert (Forall2 (commits_to (base_arg b0))
              ((fun i : nat => Some (PubPoly_Eval (Commit p b0) (Z.of_nat i)))
                 <$> seq 0 (Z.to_nat n)) priv) as HF.
    { unfold priv. apply Forall2_fmap, Forall_Forall2_diag, Forall_forall.
      intros i _. cbn. apply horner_pub_Commit. }
    pose proof (masked_commits_to _ keep _ _ HF) as HFm.
    rewrite (RecoverCommit_mirror grp _ _ _ t HFm).
    rewrite (RecoverSecret_shares grp p t n priv keep); try done.
    + cbn. f_equal. f_equal. by apply GetSecret_horner.
    + by rewrite (count_non_nil_Forall2 _ _ _ (commits_to_is_Some (base_arg b0)) HFm).
  - unfold GetSecret in Hs. unfold GetCommit, Commit. cbn [commits].
    destruct (coeffs p) as [|c0 cs]; [done|]. by injection Hs as ->.
Qed.

Lemma compatible_lookup (xs : list (option Scalar)) (ss : list (option PriShare))
    (k : nat) (xi : Scalar) :
  compatible xs ss -> xs !! k = Some (Some xi) -> exists s, ss !! k = Some (Some s).
Proof.
  revert ss k. induction xs as [|[x|] xs IH]; intros [|[s|] ss] [|k] Hc Hk; try done.
  - by exists s.
  - by apply (IH ss k).
  - by apply (IH ss k).
  - by apply (IH ss k).
Qed.

Lemma commit_outer_is_Ok (x : list (option Scalar)) (PS : list (option PubShare))
    (xs : list (option Scalar)) (i : nat) (Acc : Point) :
  (forall k xi, xs !! k = Some (Some xi) -> exists P, PS !! (i + k)%nat = Some (Some P)) ->
  exists Q, commit_outer x PS i xs Acc = Ok Q.
Proof.
  revert i Acc. induction xs as [|[xi|] xs IH]; intros i Acc Hxs; cbn [commit_outer].
  - by eexists.
  - destruct (Hxs 0%nat xi eq_refl) as [P HP]. rewrite Nat.add_0_r in HP. rewrite HP.
    destruct (lagrange_inner _ _ _ _ _ _). apply IH.
    intros k xk Hk. replace (S i + k)%nat with (i + S k)%nat by lia. by apply (Hxs (S k) xk).
  - apply IH.
    intros k xk Hk. replace (S i + k)%nat with (i + S k)%nat by lia. by apply (Hxs (S k) xk).
Qed.

Lemma shadow_Forall2 (PS : list (option PubShare)) :
  Forall2 (fun P s => is_Some P <-> is_Some s) PS (shadow PS).
Proof.
  unfold shadow. apply Forall2_fmap_r, Forall_Forall2_diag, Forall_forall.
  intros [P|] _; cbn.
  - split; intros _; by eexists.
  - split; intros [? ?]; done.
Qed.

(** X10.  [RecoverCommit] returns the error "not enough shares" exactly
    when the list holds fewer than [t] non-nil public shares, and otherwise
    returns a point: it never panics. *)
Theorem RecoverCommit_threshold (grp : Group) (PS : list (option PubShare)) (t : Z) :
  (RecoverCommit grp PS t = Err errNotEnoughShares <->
     (Z.of_nat (count_non_nil_pub PS) < t)%Z) /\
  ((t <= Z.of_nat (count_non_nil_pub PS))%Z -> exists Q, RecoverCommit grp PS t = Ok Q).
Proof.
  pose proof (shadow_Forall2 PS) as HF.
  unfold RecoverCommit.
  rewrite (xCoords_ext _ _ _ _ (isNotNil_pub_Forall2 _ _ _ (fun _ _ HR => HR) HF)).
  rewrite (Forall2_length _ _ _ HF), xCoords_marks, dense_marks_length.
  fold (entries (shadow PS)). fold (count_non_nil (shadow PS)).
  rewrite (count_non_nil_Forall2 _ _ _ (fun _ _ HR => HR) HF).
  destruct (marks_entries (Z.to_nat t) 0 (shadow PS)) as [_ Hc].
  destruct (Z.ltb_spec (Z.of_nat (min (max (Z.to_nat t) 1) (count_non_nil_pub PS))) t)
    as [Hlt|Hge].
  - split; [split; [lia|done]|]. lia.
  - cbn [mbind res_mbind res_bind].
    destruct (commit_outer_is_Ok (marks (Z.to_nat t) 0 (shadow PS)) PS
                (marks (Z.to_nat t) 0 (shadow PS)) 0 Null) as [Q HQ].
    { intros k xi Hk. destruct (compatible_lookup _ _ k xi Hc Hk) as [s Hs].
      pose proof (proj1 (Forall2_lookup _ _ _) HF k) as Hi. cbn [plus].
      rewrite Hs in Hi. inversion Hi as [P s' HPs HP Hs'|]. subst.
      destruct HPs as [_ [P' ->]]; [by eexists|]. by exists P'. }
    rewrite HQ. split; [split; [done|lia]|]. intros _. by exists Q.
Qed.

End recover.

Section coordinates.
Context `{Suite}.
Import share spec interp.

Lemma marks_length (k i : nat) (l : list (option PriShare)) :
  length (marks k i l) = length l.
Proof.
  revert k i. induction l as [|[s|] l IH]; intros k i; cbn [marks length]; [done| |by rewrite IH].
  f_equal. destruct k as [|[|k]]; [by rewrite length_replicate..|apply IH].
Qed.

Lemma marks_lookup (k i : nat) (l : list (option PriShare)) (j : nat) (xi : Scalar) :
  marks k i l !! j = Some (Some xi) ->
  xi = x_of (i + j) /\ exists s, l !! j = Some (Some s).
Proof.
  revert k i j. induction l as [|[s|] l IH]; intros k i [|j] Hj; cbn [marks] in Hj; try done.
  - injection Hj as <-. rewrite Nat.add_0_r. split; [done|by exists s].
  - cbn [lookup list_lookup] in Hj.
    replace (i + S j)%nat with (S i + j)%nat by lia.
    destruct k as [|[|k]].
    + apply lookup_replicate in Hj as [? _]. done.
    + apply lookup_replicate in Hj as [? _]. done.
    + by apply (IH (S k)).
  - cbn [lookup list_lookup] in Hj.
    replace (i + S j)%nat with (S i + j)%nat by lia. by apply (IH k).
Qed.

(** X11.  What the comment of [xCoords] promises, for the thresholds that
    make sense: called by [RecoverSecret] with [t >= 1], a successful
    [xCoords] returns an array as long as the share list in which exactly
    [t] coordinates are set, each one the scalar [k + 1] at a position [k]
    that holds a share. *)
Theorem xCoords_exact (t : Z) (shares : list (option PriShare))
    (x : list (option Scalar)) :
  (1 <= t)%Z ->
  xCoords t (Z.of_nat (length shares)) (isNotNil shares) = Ok x ->
  length x = length shares /\
  Z.of_nat (length (dense x)) = t /\
  forall k xi, x !! k = Some (Some xi) ->
    xi = xcoord (Z.of_nat k) /\ exists s, shares !! k = Some (Some s).
Proof.
  intros Ht. rewrite xCoords_marks, dense_marks_length.
  destruct (Z.ltb_spec (Z.of_nat (min (max (Z.to_nat t) 1)
                                    (length (entries_from 0 shares)))) t) as [|Hge];
    [done|].
  intros [= <-]. split; [apply marks_length|]. split.
  - rewrite dense_marks_length. lia.
  - intros k xi Hk. by apply marks_lookup in Hk.
Qed.

(** X12.  [NewPriPoly] panics for a threshold below 1; for [t >= 1] it
    returns a polynomial over the given group with exactly [t] coefficients,
    whose secret is the one it was given. *)
Theorem NewPriPoly_shape (grp : Group) (t : Z) (s : option Scalar) (rand : Stream) :
  ((t <= 0)%Z -> NewPriPoly grp t s rand = Panic) /\
  ((0 < t)%Z ->
   exists p rand', NewPriPoly grp t s rand = Ok (p, rand') /\
     g p = grp /\ PriPoly_Threshold p = t /\
     forall s0, s = Some s0 -> GetSecret p = Ok s0).
Proof.
  split.
  - intros Ht. unfold NewPriPoly. by destruct (Z.leb_spec t 0); [|lia].
  - intros Ht. destruct (NewPriPoly_Ok grp t s rand Ht) as (p & rand' & Hnew & Hg & Hlen & Hs).
    exists p, rand'. split_and!; try done.
    intros s0 Hs0. apply Hs in Hs0. unfold GetSecret.
    by destruct (coeffs p) as [|c0 cs]; [|injection Hs0 as ->].
Qed.

End coordinates.

(** ** Invariants of the aggregator *)

Section aggregator_invariants.
Context `{Suite} `{!vss.DealCodec}.
Import vss spec.

Lemma approvals_insert_None (m : gmap N Response) (i : N) (r : Response) :
  m !! i = None ->
  approvals (<[i := r]> m) = if Approved r then S (approvals m) else approvals m.
Proof.
  intros Hi. unfold approvals. rewrite (map_to_list_insert m i r Hi), filter_cons.
  cbn [snd]. by destruct (Approved r); case_decide.
Qed.

Lemma complaints_insert_None (m : gmap N Response) (i : N) (r : Response) :
  m !! i = None ->
  complaints (<[i := r]> m) = if Approved r then complaints m else S (complaints m).
Proof.
  intros Hi. unfold complaints. rewrite (map_to_list_insert m i r Hi), filter_cons.
  cbn [snd]. by destruct (Approved r); case_decide.
Qed.

Lemma approvals_flip (m : gmap N Response) (i : N) (r : Response) :
  m !! i = Some r -> Approved r = false ->
  approvals (<[i := approve r]> m) = S (approvals m) /\
  S (complaints (<[i := approve r]> m)) = complaints m.
Proof.
  intros Hi Hr.
  rewrite <- (insert_delete_eq m i (approve r)).
  rewrite <- (insert_delete_id m i r Hi) at 2 4.
  rewrite !approvals_insert_None, !complaints_insert_None by apply lookup_delete_eq.
  by rewrite Hr.
Qed.

Lemma approvals_complaints_size (m : gmap N Response) :
  (approvals m + complaints m)%nat = size m.
Proof.
  rewrite <- length_map_to_list. unfold approvals, complaints.
  induction (map_to_list m) as [|[k r] l IH]; [done|].
  rewrite !filter_cons. cbn [snd length].
  destruct (Approved r); repeat case_decide; try done; cbn [length]; lia.
Qed.

Lemma size_indices_in_range (a : aggregator) :
  indices_in_range a -> (size (responses a) <= length (agg_verifiers a))%nat.
Proof.
  intros Ha. rewrite <- length_map_to_list, <- (length_fmap fst).
  trans (length (N.of_nat <$> seq 0 (length (agg_verifiers a))));
    [|by rewrite length_fmap, length_seq].
  apply submseteq_length, NoDup_submseteq; [apply NoDup_fst_map_to_list|].
  intros k Hk. apply list_elem_of_fmap in Hk as ([k' r] & -> & Hk).
  apply elem_of_map_to_list, Ha in Hk. cbn [fst].
  apply list_elem_of_fmap. exists (N.to_nat k'). split; [lia|].
  apply elem_of_seq. lia.
Qed.

Lemma addResponse_responses_step (a : aggregator) (r : Response) :
  responses_step (responses a) (responses (addResponse a r).1).
Proof.
  unfold addResponse. destruct (findPub _ _); [|constructor].
  destruct (responses a !! Resp_Index r) eqn:Hr; cbn; by constructor.
Qed.

Lemma verifyResponse_responses_step (a : aggregator) (r : Response) :
  responses_step (responses a) (responses (verifyResponse a r).1).
Proof.
  pose proof (addResponse_responses_step a r) as Hadd.
  unfold verifyResponse. destruct (negb _); [constructor|].
  destruct (findPub _ _); [|constructor].
  by destruct (VerifySchnorr _ _ _); [constructor|].
Qed.

Lemma verifyJustification_responses_step (a : aggregator) (j : Justification) :
  responses_step (responses a) (responses (verifyJustification a j).1).
Proof.
  unfold verifyJustification. destruct (findPub _ _); [|constructor].
  destruct (responses a !! _) as [r|] eqn:Hr; [|constructor].
  destruct (Approved r) eqn:Hap; [constructor|].
  pose proof (VerifyDeal_frame a (Just_Deal j) false) as (_ & Hm & _).
  destruct (VerifyDeal a (Just_Deal j) false) as [a1 [[]|e|]]; cbn in *; rewrite Hm;
    by constructor.
Qed.

Lemma agg_step_responses_step (a a' : aggregator) :
  agg_step a a' -> responses_step (responses a) (responses a').
Proof.
  intros [a0 d incl|a0 r|a0 r|a0 j].
  - pose proof (VerifyDeal_frame a0 d incl) as (_ & -> & _). constructor.
  - apply addResponse_responses_step.
  - apply verifyResponse_responses_step.
  - apply verifyJustification_responses_step.
Qed.

Lemma responses_step_kept (m m' : gmap N Response) (i : N) (r : Response) :
  responses_step m m' -> m !! i = Some r ->
  exists r', m' !! i = Some r' /\ (r' = r \/ r' = approve r).
Proof.
  intros [m0|m0 r0 Hr0|m0 i0 r0 Hr0 Hap] Hi.
  - eauto.
  - exists r. rewrite lookup_insert_ne by congruence. eauto.
  - destruct (decide (i0 = i)) as [->|Hne].
    + assert (r0 = r) as -> by congruence.
      exists (approve r). rewrite lookup_insert_eq. split; [done|]. by right.
    + exists r. rewrite lookup_insert_ne by done. eauto.
Qed.

Lemma responses_step_approvals (m m' : gmap N Response) :
  responses_step m m' -> (approvals m <= approvals m')%nat.
Proof.
  intros [m0|m0 r0 Hr0|m0 i0 r0 Hr0 Hap].
  - done.
  - rewrite approvals_insert_None by done. destruct (Approved r0); lia.
  - destruct (approvals_flip m0 i0 r0 Hr0 Hap) as [-> _]. lia.
Qed.

Lemma agg_step_agg_t (a a' : aggregator) : agg_step a a' -> agg_t a' = agg_t a.
Proof.
  intros [a0 d incl|a0 r|a0 r|a0 j].
  - by pose proof (VerifyDeal_frame a0 d incl) as (_ & _ & _ & ->).
  - by pose proof (addResponse_frame a0 r) as (_ & _ & -> & _).
  - by pose proof (verifyResponse_frame a0 r) as (_ & _ & -> & _).
  - by pose proof (verifyJustification_frame a0 j) as (_ & -> & _).
Qed.

(** X13.  Along any sequence of calls on an aggregator, a stored response
    is never removed nor replaced by another one: it stays as it is or
    becomes its own approval.  So the number of approvals never decreases,
    and [EnoughApprovals], once true, stays true. *)
Theorem approvals_never_withdrawn (a a' : aggregator) :
  rtc agg_step a a' ->
  (forall i r, responses a !! i = Some r ->
     exists r', responses a' !! i = Some r' /\ (r' = r \/ r' = approve r)) /\
  (approvals (responses a) <= approvals (responses a'))%nat /\
  (EnoughApprovals (Some a) = Ok true -> EnoughApprovals (Some a') = Ok true).
Proof.
  intros Hrtc.
  assert ((forall i r, responses a !! i = Some r ->
             exists r', responses a' !! i = Some r' /\ (r' = r \/ r' = approve r)) /\
          (approvals (responses a) <= approvals (responses a'))%nat /\
          agg_t a' = agg_t a) as (Hkept & Hle & Ht).
  { induction Hrtc as [a|a a1 a' Hstep Hrtc (IHk & IHle & IHt)].
    { split_and!; [|done..]. intros i r Hi. exists r. by split; [|left]. }
    pose proof (agg_step_responses_step a a1 Hstep) as Hrs.
    split_and!.
    - intros i r Hi.
      destruct (responses_step_kept _ _ i r Hrs Hi) as (r1 & Hr1 & Hor).
      destruct (IHk i r1 Hr1) as (r' & Hr' & Hor').
      exists r'. split; [done|].
      destruct Hor as [->| ->]; [done|]. right.
      destruct Hor' as [->| ->]; done.
    - pose proof (responses_step_approvals _ _ Hrs). lia.
    - rewrite IHt. by apply agg_step_agg_t. }
  split_and!; [done..|].
  unfold EnoughApprovals. rewrite !count_approvals_spec, Ht. intros [= Hge].
  f_equal. apply Z.geb_le. apply Z.geb_le in Hge. lia.
Qed.

Lemma responses_step_indices_agree (m m' : gmap N Response) :
  responses_step m m' ->
  (forall i r, m !! i = Some r -> Resp_Index r = i) ->
  forall i r, m' !! i = Some r -> Resp_Index r = i.
Proof.
  intros [m0|m0 r0 Hr0|m0 i0 r0 Hr0 Hap] Hm i r; [apply Hm|..].
  - rewrite lookup_insert. case_decide; [by intros [= <-]|apply Hm].
  - rewrite lookup_insert. case_decide; [|apply Hm].
    intros [= <-]. subst i. by apply Hm in Hr0.
Qed.

Lemma agg_step_indices_agree (a a' : aggregator) :
  agg_step a a' -> indices_agree a -> indices_agree a'.
Proof.
  intros Hstep Ha.
  exact (responses_step_indices_agree _ _ (agg_step_responses_step a a' Hstep) Ha).
Qed.

Lemma agg_reachable_indices_agree (a : aggregator) :
  agg_reachable a -> indices_agree a.
Proof.
  intros (dl & vs & cs & t & s0 & Hrtc).
  assert (forall a0 a1, rtc agg_step a0 a1 -> indices_agree a0 -> indices_agree a1)
    as Hinv by (induction 1; eauto using agg_step_indices_agree).
  apply (Hinv _ _ Hrtc). intros i r. cbn. by rewrite lookup_empty.
Qed.

(** X14.  In every aggregator state of a run, each stored response sits
    under its own index, that index is a verifier's, and approvals and
    complaints together are at most as many as the verifiers. *)
Theorem stored_responses_bounded (a : aggregator) :
  agg_reachable a ->
  (forall i r, responses a !! i = Some r ->
     Resp_Index r = i /\ is_Some (findPub (agg_verifiers a) i)) /\
  (approvals (responses a) + complaints (responses a)
   <= length (agg_verifiers a))%nat.
Proof.
  intros Ha.
  pose proof (agg_reachable_indices_in_range a Ha) as Hrange.
  pose proof (agg_reachable_indices_agree a Ha) as Hagree.
  split.
  - intros i r Hi. split; [by apply Hagree|].
    apply findPub_is_Some. by apply (Hrange i r).
  - rewrite approvals_complaints_size. by apply size_indices_in_range.
Qed.

(** X15.  With a threshold above half the number of verifiers, complaints
    cannot block a deal that has enough approvals: in every aggregator state
    of a run, [EnoughApprovals] then makes [DealCertified] true unless the
    dealer was caught by a bad justification. *)
Theorem majority_threshold_certifies (a : aggregator) :
  agg_reachable a ->
  Z.of_nat (length (agg_verifiers a)) < 2 * agg_t a ->
  EnoughApprovals (Some a) = Ok true ->
  DealCertified (Some a) = Ok (negb (badDealer a)).
Proof.
  intros Ha Ht Hen.
  pose proof (agg_reachable_indices_in_range a Ha) as Hrange.
  pose proof (size_indices_in_range a Hrange) as Hsize.
  rewrite <- approvals_complaints_size in Hsize.
  rewrite DealCertified_eq. unfold EnoughApprovals in Hen.
  rewrite count_approvals_spec in Hen. injection Hen as Hen. rewrite Hen.
  apply Z.geb_le in Hen.
  destruct (Z.geb_spec (Z.of_nat (complaints (responses a))) (agg_t a)); [lia|done].
Qed.

Lemma VerifyDeal_deal_Some (a : aggregator) (d : Deal) (inclusion : bool) :
  is_Some (deal a) -> (VerifyDeal a d inclusion).1 = a.
Proof.
  intros [d0 Hd]. unfold VerifyDeal. rewrite Hd.
  by destruct (bool_decide _ && inclusion).
Qed.

Lemma VerifyDeal_deal (a : aggregator) (d : Deal) (inclusion : bool) :
  is_Some (deal (VerifyDeal a d inclusion).1) /\
  agg_dealer (VerifyDeal a d inclusion).1 = agg_dealer a.
Proof.
  unfold VerifyDeal. destruct (deal a) as [d0|] eqn:Hd.
  - destruct (bool_decide _ && inclusion); cbn; rewrite Hd; by eauto.
  - rewrite bool_decide_eq_false_2 by (by intros ?). cbn. by eauto.
Qed.

Lemma addResponse_config (a : aggregator) (r : Response) :
  let a' := (addResponse a r).1 in
  agg_dealer a' = agg_dealer a /\ deal a' = deal a /\ sid a' = sid a /\
  commits a' = commits a.
Proof.
  unfold addResponse. destruct (findPub _ _); [|done].
  by destruct (responses a !! _).
Qed.

Lemma verifyResponse_config (a : aggregator) (r : Response) :
  let a' := (verifyResponse a r).1 in
  agg_dealer a' = agg_dealer a /\ deal a' = deal a /\ sid a' = sid a /\
  commits a' = commits a.
Proof.
  pose proof (addResponse_config a r) as Hadd.
  unfold verifyResponse. destruct (negb _); [done|].
  destruct (findPub _ _); [|done].
  by destruct (VerifySchnorr _ _ _).
Qed.

Lemma verifyJustification_config (a : aggregator) (j : Justification) :
  let a' := (verifyJustification a j).1 in
  agg_dealer a' = agg_dealer a /\
  (is_Some (deal a) -> deal a' = deal a /\ sid a' = sid a /\ commits a' = commits a).
Proof.
  unfold verifyJustification. destruct (findPub _ _); [|done].
  destruct (responses a !! _) as [r|]; [|done].
  destruct (Approved r); [done|].
  pose proof (VerifyDeal_deal a (Just_Deal j) false) as [_ Hdl].
  pose proof (VerifyDeal_deal_Some a (Just_Deal j) false) as Hsome.
  destruct (VerifyDeal a (Just_Deal j) false) as [a1 [[]|e|]]; cbn in *;
    (split; [done|]); intros Hd; by rewrite (Hsome Hd).
Qed.

Lemma agg_step_config (a a' : aggregator) :
  agg_step a a' ->
  agg_dealer a' = agg_dealer a /\ agg_verifiers a' = agg_verifiers a /\
  agg_t a' = agg_t a /\
  (is_Some (deal a) -> deal a' = deal a /\ sid a' = sid a /\ commits a' = commits a).
Proof.
  intros Hstep. pose proof (agg_step_agg_t a a' Hstep) as Ht.
  destruct Hstep as [a d incl|a r|a r|a j].
  - pose proof (VerifyDeal_frame a d incl) as (Hv & _).
    pose proof (VerifyDeal_deal a d incl) as [_ Hdl].
    split_and!; try done. intros Hd. by rewrite (VerifyDeal_deal_Some a d incl Hd).
  - pose proof (addResponse_frame a r) as (Hv & _).
    pose proof (addResponse_config a r) as (Hdl & Hd & Hs & Hc). by split_and!.
  - pose proof (verifyResponse_frame a r) as (Hv & _).
    pose proof (verifyResponse_config a r) as (Hdl & Hd & Hs & Hc). by split_and!.
  - pose proof (verifyJustification_frame a j) as (Hv & _).
    pose proof (verifyJustification_config a j) as (Hdl & Hd). by split_and!.
Qed.

(** X16.  The calls on an aggregator never change its dealer key, its list
    of verifiers or its threshold; and once a deal is recorded, the deal,
    the session id and the commitments stay the ones recorded with it. *)
Theorem aggregator_configuration_fixed (a a' : aggregator) :
  rtc agg_step a a' ->
  agg_dealer a' = agg_dealer a /\ agg_verifiers a' = agg_verifiers a /\
  agg_t a' = agg_t a /\
  (is_Some (deal a) -> deal a' = deal a /\ sid a' = sid a /\ commits a' = commits a).
Proof.
  induction 1 as [a|a a1 a' Hstep Hrtc (IHdl & IHv & IHt & IHd)]; [done|].
  destruct (agg_step_config a a1 Hstep) as (Hdl & Hv & Ht & Hd).
  split_and!; [congruence..|].
  intros Hsome. destruct (Hd Hsome) as (Hd1 & Hs1 & Hc1).
  destruct IHd as (Hd2 & Hs2 & Hc2); [by rewrite Hd1|].
  split_and!; congruence.
Qed.

End aggregator_invariants.

(** ** The verifier: creation, the first deal, and what peers accept *)

Section verifier_invariants.
Context `{Suite} `{!vss.DealCodec}.
Import vss spec.

Lemma find_index_Some (pub0 : Point) (i : Z) (vs : list Point) (k : Z) :
  find_index pub0 i vs = Some k ->
  i <= k /\
  exists P, vs !! Z.to_nat (k - i) = Some P /\ PEqual P pub0 = true /\
    forall j Q, (j < Z.to_nat (k - i))%nat -> vs !! j = Some Q -> PEqual Q pub0 = false.
Proof.
  revert i. induction vs as [|P vs IH]; intros i Hk; [done|].
  cbn [find_index] in Hk. destruct (PEqual P pub0) eqn:HP.
  - injection Hk as <-. split; [lia|]. exists P. rewrite Z.sub_diag.
    split_and!; [done..|]. intros j Q Hj. cbn in Hj. lia.
  - apply IH in Hk as (Hle & P' & HP' & Heq & Hbefore).
    split; [lia|]. exists P'.
    replace (Z.to_nat (k - i)) with (S (Z.to_nat (k - (i + 1)))) by lia.
    split_and!; [done..|].
    intros [|j] Q Hj HQ; [by injection HQ as <-|].
    apply (Hbefore j Q); [lia|done].
Qed.

Lemma find_index_None (pub0 : Point) (i : Z) (vs : list Point) :
  find_index pub0 i vs = None <-> forall Q, Q ∈ vs -> PEqual Q pub0 = false.
Proof.
  revert i. induction vs as [|P vs IH]; intros i; cbn [find_index].
  - split; [|done]. intros _ Q HQ. by apply elem_of_nil in HQ.
  - destruct (PEqual P pub0) eqn:HP.
    + split; [done|]. intros HQ. rewrite (HQ P) in HP; [done|by left].
    + rewrite IH. split.
      * intros Hvs Q HQ. apply elem_of_cons in HQ as [->|HQ]; [done|by apply Hvs].
      * intros Hvs Q HQ. apply Hvs. by right.
Qed.

Lemma NewVerifier_Ok_inv (longterm0 : Scalar) (dealerKey : Point)
    (verifiers0 : list Point) (v : Verifier) :
  NewVerifier longterm0 dealerKey verifiers0 = Ok v ->
  longterm v = longterm0 /\ pub v = PMul None longterm0 /\
  dealer v = dealerKey /\ verifiers v = verifiers0 /\
  hkdfContext v = context dealerKey verifiers0 /\ agg v = None /\
  0 <= index v < Z.of_nat (length verifiers0) /\
  (exists P, verifiers0 !! Z.to_nat (index v) = Some P /\
     PEqual P (PMul None longterm0) = true) /\
  (forall j Q, (j < Z.to_nat (index v))%nat -> verifiers0 !! j = Some Q ->
     PEqual Q (PMul None longterm0) = false).
Proof.
  unfold NewVerifier.
  destruct (find_index (PMul None longterm0) 0 verifiers0) as [k|] eqn:Hk; [|done].
  intros [= <-]. cbn.
  apply find_index_Some in Hk as (Hle & P & HP & Heq & Hbefore).
  rewrite Z.sub_0_r in HP, Hbefore.
  split_and!; try done; [|by exists P].
  apply lookup_lt_Some in HP. lia.
Qed.

(** X17.  [NewVerifier] fails, with its one error, exactly when no entry of
    the list equals the public key [longterm * B]; otherwise the verifier it
    returns has no aggregator yet, holds the dealer key, the list and their
    HKDF context, and its index is the position of the first entry of the
    list that equals its public key. *)
Theorem NewVerifier_index (longterm0 : Scalar) (dealerKey : Point)
    (verifiers0 : list Point) :
  (NewVerifier longterm0 dealerKey verifiers0
   = Err (errorsNew "vss: public key not found in the list of verifiers") <->
   forall Q, Q ∈ verifiers0 -> PEqual Q (PMul None longterm0) = false) /\
  (forall v, NewVerifier longterm0 dealerKey verifiers0 = Ok v ->
     longterm v = longterm0 /\ pub v = PMul None longterm0 /\
     dealer v = dealerKey /\ verifiers v = verifiers0 /\
     hkdfContext v = context dealerKey verifiers0 /\ agg v = None /\
     0 <= index v < Z.of_nat (length verifiers0) /\
     (exists P, verifiers0 !! Z.to_nat (index v) = Some P /\
        PEqual P (PMul None longterm0) = true) /\
     (forall j Q, (j < Z.to_nat (index v))%nat -> verifiers0 !! j = Some Q ->
        PEqual Q (PMul None longterm0) = false)) /\
  NewVerifier longterm0 dealerKey verifiers0 <> Panic.
Proof.
  split; [|split; [apply NewVerifier_Ok_inv|]].
  - unfold NewVerifier.
    destruct (find_index (PMul None longterm0) 0 verifiers0) as [k|] eqn:Hk.
    + split; [done|]. intros HQ.
      apply (proj2 (find_index_None (PMul None longterm0) 0 verifiers0)) in HQ. congruence.
    + split; [|done]. intros _.
      by apply (proj1 (find_index_None (PMul None longterm0) 0 verifiers0)).
  - unfold NewVerifier. by destruct (find_index _ _ _).
Qed.

Lemma set_agg_agg (v : Verifier) : set_agg v (agg v) = v.
Proof. by destruct v. Qed.

Lemma ProcessEncryptedDeal_second (v : Verifier) (e : EncryptedDeal) (a : aggregator) :
  agg v = Some a -> is_Some (deal a) ->
  (ProcessEncryptedDeal v e).1 = v /\ forall r, (ProcessEncryptedDeal v e).2 <> Ok r.
Proof.
  intros Ha [d0 Hd0]. unfold ProcessEncryptedDeal.
  destruct (decryptDeal v e) as [d|?|]; [|done..].
  destruct (negb _); [done|]. cbn [sessionID]. rewrite Ha.
  unfold VerifyDeal. rewrite Hd0.
  rewrite bool_decide_eq_true_2 by done. cbn. by rewrite <- Ha, set_agg_agg.
Qed.

(** The aggregator, once a deal went through [VerifyDeal] and the
    verifier's own response was added. *)
Lemma ProcessEncryptedDeal_first (v v' : Verifier) (e : EncryptedDeal) (r : Response) :
  agg v = None ->
  ProcessEncryptedDeal v e = (v', Ok r) ->
  exists d sig,
    decryptDeal v e = Ok d /\ share.I (SecShare d) = index v /\
    let a1 := mkAggregator (dealer v) (verifiers v) (Commitments d) ∅ (SessionID d)
                (Some d) (Z.of_N (T d)) false in
    let r0 := mkResponse
                (Hash (MarshalTo (dealer v) ++ concat (MarshalTo <$> verifiers v)
                       ++ concat (MarshalTo <$> Commitments d)
                       ++ le32 (uint32 (Z.of_N (T d)))))
                (uint32 (index v)) (is_Ok (VerifyDeal_checks a1 d)) [] in
    Schnorr (longterm v) (Response_Hash r0) = Ok sig /\
    r = mkResponse (Resp_SessionID r0) (Resp_Index r0) (Approved r0) sig /\
    is_Some (findPub (verifiers v) (uint32 (index v))) /\
    v' = set_agg v (Some (set_responses a1 (<[uint32 (index v) := r]> ∅))).
Proof.
  intros Ha. unfold ProcessEncryptedDeal.
  destruct (decryptDeal v e) as [d|?|]; [|done..].
  destruct (Z.eqb_spec (share.I (SecShare d)) (index v)) as [Hidx|]; [|done].
  cbn [negb sessionID]. rewrite Ha.
  unfold VerifyDeal, newAggregator. cbn [deal].
  rewrite bool_decide_eq_false_2 by (by intros ?).
  cbn [andb agg_dealer agg_verifiers responses agg_t badDealer].
  set (a1 := mkAggregator _ _ _ _ _ _ _ _).
  pose proof (VerifyDeal_checks_error a1 d) as [Hne Hnp].
  assert (forall ok,
    match Schnorr (longterm v) (Response_Hash
            (mkResponse
               (Hash (MarshalTo (dealer v) ++ concat (MarshalTo <$> verifiers v)
                      ++ concat (MarshalTo <$> Commitments d)
                      ++ le32 (uint32 (Z.of_N (T d)))))
               (uint32 (index v)) ok [])) with
    | Ok sig =>
        let r' := mkResponse
          (Hash (MarshalTo (dealer v) ++ concat (MarshalTo <$> verifiers v)
                 ++ concat (MarshalTo <$> Commitments d)
                 ++ le32 (uint32 (Z.of_N (T d)))))
          (uint32 (index v)) ok sig in
        let '(a2, aerr) := addResponse a1 r' in
        (set_agg v (Some a2), _ ← aerr; Ok r')
    | Err err => (set_agg v (Some a1), Err err)
    | Panic => (set_agg v (Some a1), Panic)
    end = (v', Ok r) ->
    exists sig,
      Schnorr (longterm v) (Response_Hash
            (mkResponse
               (Hash (MarshalTo (dealer v) ++ concat (MarshalTo <$> verifiers v)
                      ++ concat (MarshalTo <$> Commitments d)
                      ++ le32 (uint32 (Z.of_N (T d)))))
               (uint32 (index v)) ok [])) = Ok sig /\
      r = mkResponse
          (Hash (MarshalTo (dealer v) ++ concat (MarshalTo <$> verifiers v)
                 ++ concat (MarshalTo <$> Commitments d)
                 ++ le32 (uint32 (Z.of_N (T d)))))
          (uint32 (index v)) ok sig /\
      is_Some (findPub (verifiers v) (uint32 (index v))) /\
      v' = set_agg v (Some (set_responses a1 (<[uint32 (index v) := r]> ∅)))) as Hsign.
  { intros ok. destruct (Schnorr _ _) as [sig|?|]; [|done..].
    cbn zeta. unfold addResponse. cbn [Resp_Index agg_verifiers a1 responses].
    destruct (findPub (verifiers v) (uint32 (index v))) as [P|] eqn:HP; [|done].
    rewrite lookup_empty. cbn. intros [= <- <-]. exists sig. by eauto. }
  destruct (VerifyDeal_checks a1 d) as [[]|[msg|]|] eqn:Hchk; try done.
  - intros Hres. apply Hsign in Hres as (sig & Hs & -> & HP & ->).
    exists d, sig. cbn zeta. unfold a1 in *. rewrite Hchk. by split_and!.
  - intros Hres. apply Hsign in Hres as (sig & Hs & -> & HP & ->).
    exists d, sig. cbn zeta. unfold a1 in *. rewrite Hchk. by split_and!.
Qed.

Lemma ProcessEncryptedDeal_set_agg (v : Verifier) (e : EncryptedDeal) :
  exists p, (ProcessEncryptedDeal v e).1 = set_agg v p /\
    (p = agg v \/ exists a', p = Some a' /\ is_Some (deal a')).
Proof.
  assert (exists p, v = set_agg v p /\
            (p = agg v \/ exists a', p = Some a' /\ is_Some (deal a'))) as Hsame.
  { exists (agg v). split; [by rewrite set_agg_agg|by left]. }
  unfold ProcessEncryptedDeal.
  destruct (decryptDeal v e) as [d|?|]; [|done..].
  destruct (negb _); [done|]. cbn [sessionID].
  set (a0 := match agg v with Some a => a | None => _ end).
  pose proof (VerifyDeal_deal a0 d true) as [Hd1 _].
  destruct (VerifyDeal a0 d true) as [a1 verr]. cbn [fst] in Hd1.
  assert (exists p, set_agg v (Some a1) = set_agg v p /\
            (p = agg v \/ exists a', p = Some a' /\ is_Some (deal a'))) as H1.
  { exists (Some a1). split; [done|]. right. by exists a1. }
  assert (forall r', exists p,
            (let '(a2, aerr) := addResponse a1 r' in
             (set_agg v (Some a2), _ ← aerr; Ok r')).1 = set_agg v p /\
            (p = agg v \/ exists a', p = Some a' /\ is_Some (deal a'))) as Hadd.
  { intros r'. pose proof (addResponse_config a1 r') as (_ & Hd2 & _).
    destruct (addResponse a1 r') as [a2 aerr]. cbn [fst] in *.
    exists (Some a2). split; [done|]. right. exists a2. by rewrite Hd2. }
  destruct verr as [[]|[msg|]|]; try done;
    (destruct (Schnorr _ _) as [sig|?|]; [apply Hadd|done..]).
Qed.

Lemma through_agg_set_agg (v : Verifier) (f : aggregator -> aggregator * res unit) :
  (forall a, is_Some (deal a) -> is_Some (deal (f a).1)) ->
  (forall a, agg v = Some a -> is_Some (deal a)) ->
  exists p, (through_agg v f).1 = set_agg v p /\
    forall a', p = Some a' -> is_Some (deal a').
Proof.
  intros Hf Hv. unfold through_agg. destruct (agg v) as [a|] eqn:Ha.
  - specialize (Hf a (Hv a eq_refl)). destruct (f a) as [a' r]. cbn [fst] in *.
    exists (Some a'). split; [done|]. by intros ? [= <-].
  - exists None. split; [by rewrite <- Ha, set_agg_agg|done].
Qed.

(** One call keeps the keys, the index, the list and the context of a
    verifier, and an aggregator that holds a deal. *)
Lemma step_set_agg (v v' : Verifier) :
  step v v' ->
  (forall a, agg v = Some a -> is_Some (deal a)) ->
  exists p, v' = set_agg v p /\ forall a', p = Some a' -> is_Some (deal a').
Proof.
  intros [v0 e|v0 r|v0 j] Hv.
  - destruct (ProcessEncryptedDeal_set_agg v0 e) as (p & Hp & [->|(a' & -> & Hd)]).
    + exists (agg v0). split; [done|]. intros a' Ha'. by apply Hv.
    + exists (Some a'). split; [done|]. by intros ? [= <-].
  - apply through_agg_set_agg; [|done]. intros a Ha.
    by pose proof (verifyResponse_config a r) as (_ & -> & _).
  - apply through_agg_set_agg; [|done]. intros a Ha.
    pose proof (verifyJustification_config a j) as (_ & Hd).
    destruct (Hd Ha) as (-> & _). done.
Qed.

Lemma reachable_set_agg (v : Verifier) :
  reachable v ->
  exists longterm0 dealerKey verifiers0 v0 p,
    NewVerifier longterm0 dealerKey verifiers0 = Ok v0 /\
    v = set_agg v0 p /\ forall a, p = Some a -> is_Some (deal a).
Proof.
  intros (l0 & dk & vs & v0 & Hnew & Hrtc). exists l0, dk, vs, v0.
  assert (exists p, v0 = set_agg v0 p /\ forall a, p = Some a -> is_Some (deal a))
    as Hinit.
  { exists None. split; [|done].
    rewrite <- (NewVerifier_agg _ _ _ _ Hnew). by rewrite set_agg_agg. }
  assert (forall u w, rtc step u w ->
            (exists p, u = set_agg v0 p /\ forall a, p = Some a -> is_Some (deal a)) ->
            exists p, w = set_agg v0 p /\ forall a, p = Some a -> is_Some (deal a))
    as Hinv.
  { induction 1 as [u|u u1 w Hs Hrtc' IH]; [done|].
    intros (p & -> & Hp). apply IH.
    destruct (step_set_agg _ _ Hs) as (p' & -> & Hp'); [intros a Ha; by apply Hp|].
    by exists p'. }
  destruct (Hinv _ _ Hrtc Hinit) as (p & -> & Hp).
  exists p. by split_and!.
Qed.

Lemma reachable_deal (v : Verifier) (a : aggregator) :
  reachable v -> agg v = Some a -> is_Some (deal a).
Proof.
  intros Hv Ha.
  destruct (reachable_set_agg v Hv) as (l0 & dk & vs & v0 & p & _ & -> & Hp).
  by apply Hp.
Qed.

(** X18.  A verifier answers one deal only.  In every verifier state of a
    run that has an aggregator — a deal was recorded, valid or not — a
    further [ProcessEncryptedDeal] returns no response and leaves the
    verifier as it is, whatever it is given. *)
Theorem ProcessEncryptedDeal_once (v : Verifier) (e : EncryptedDeal) :
  reachable v ->
  is_Some (agg v) ->
  (ProcessEncryptedDeal v e).1 = v /\ forall r, (ProcessEncryptedDeal v e).2 <> Ok r.
Proof.
  intros Hv [a Ha].
  apply (ProcessEncryptedDeal_second v e a Ha), (reachable_deal v a Hv Ha).
Qed.

(** X19.  When [ProcessEncryptedDeal] returns a response, in a run, the
    deal was the verifier's first: it had no aggregator, and it now has one
    that records the decrypted deal with its session id, commitments and
    threshold, and whose only response is the one returned, stored under the
    verifier's index. *)
Theorem ProcessEncryptedDeal_records (v v' : Verifier) (e : EncryptedDeal)
    (r : Response) :
  reachable v ->
  ProcessEncryptedDeal v e = (v', Ok r) ->
  agg v = None /\
  exists d a',
    decryptDeal v e = Ok d /\ agg v' = Some a' /\
    deal a' = Some d /\ sid a' = SessionID d /\ commits a' = Commitments d /\
    agg_t a' = Z.of_N (T d) /\ agg_verifiers a' = verifiers v /\
    badDealer a' = false /\
    Resp_Index r = uint32 (index v) /\
    responses a' = <[Resp_Index r := r]> ∅.
Proof.
  intros Hv Hres.
  destruct (agg v) as [a|] eqn:Ha.
  { destruct (ProcessEncryptedDeal_second v e a Ha (reachable_deal v a Hv Ha)) as [_ Hno].
    rewrite Hres in Hno. by destruct (Hno r). }
  split; [done|].
  destruct (ProcessEncryptedDeal_first v v' e r Ha Hres)
    as (d & sig & Hdec & _ & _ & -> & _ & ->).
  exists d. eexists. by split_and!.
Qed.

Lemma not_certified_Some (a : aggregator) :
  not_certified (Some a) = (c ← DealCertified (Some a); Ok (negb c)).
Proof.
  unfold not_certified, DealCertified, EnoughApprovals. cbn.
  by destruct (count_approvals (responses a) >=? agg_t a).
Qed.

(** X20.  [Verifier.Deal], in a run: once the verifier has an aggregator,
    it returns the recorded deal when [DealCertified] is true and nil
    otherwise; it never returns nil for a certified deal. *)
Theorem Verifier_Deal_certified (v : Verifier) (a : aggregator) :
  reachable v ->
  agg v = Some a ->
  exists d c,
    deal a = Some d /\ Verifier_DealCertified v = Ok c /\
    Verifier_Deal v = Ok (if c then Some d else None).
Proof.
  intros Hv Ha. destruct (reachable_deal v a Hv Ha) as [d Hd].
  unfold Verifier_Deal, Verifier_DealCertified. rewrite Ha, not_certified_Some.
  rewrite DealCertified_eq. eexists d, _. split; [done|]. split; [done|].
  cbn. destruct (_ && _); cbn; by rewrite ?Hd.
Qed.

(** X21.  Before its first deal a verifier has no aggregator, and the
    methods that reach through it panic on the nil pointer:
    [ProcessResponse], [ProcessJustification], [EnoughApprovals], [Deal]
    and [SessionID] (whose comment promises a nil slice). *)
Theorem fresh_verifier_panics (longterm0 : Scalar) (dealerKey : Point)
    (verifiers0 : list Point) (v : Verifier) (r : Response) (j : Justification) :
  NewVerifier longterm0 dealerKey verifiers0 = Ok v ->
  Verifier_ProcessResponse v r = (v, Panic) /\
  ProcessJustification v j = (v, Panic) /\
  Verifier_EnoughApprovals v = Panic /\
  Verifier_Deal v = Panic /\
  Verifier_SessionID v = Panic.
Proof.
  intros Hnew. apply NewVerifier_agg in Hnew.
  unfold Verifier_ProcessResponse, ProcessJustification, through_agg,
    Verifier_EnoughApprovals, Verifier_Deal, Verifier_SessionID, not_certified.
  by rewrite Hnew.
Qed.

End verifier_invariants.

Section peers.
Context `{Suite} `{!vss.DealCodec} `{!SuiteLaws} `{!SchnorrLaws}.
Import vss spec.

(** X22.  Peers accept what a verifier sends.  The response that
    [ProcessEncryptedDeal] returns in a run (over fewer than 2^32 verifiers)
    passes [verifyResponse] on every aggregator over the same list of
    verifiers whose session id is the one of the response and that holds no
    response of that verifier yet; the response is then stored there. *)
Theorem response_accepted_by_peers (v v' : Verifier) (e : EncryptedDeal)
    (r : Response) (a : aggregator) :
  reachable v ->
  Z.of_nat (length (verifiers v)) <= 2 ^ 32 ->
  ProcessEncryptedDeal v e = (v', Ok r) ->
  agg_verifiers a = verifiers v ->
  sid a = Resp_SessionID r ->
  responses a !! Resp_Index r = None ->
  verifyResponse a r
  = (set_responses a (<[Resp_Index r := r]> (responses a)), Ok ()).
Proof.
  intros Hv Hlen Hres Hvs Hsid Hfree.
  destruct (agg v) as [a0|] eqn:Ha.
  { destruct (ProcessEncryptedDeal_second v e a0 Ha (reachable_deal v a0 Hv Ha)) as [_ Hno].
    rewrite Hres in Hno. by destruct (Hno r). }
  destruct (ProcessEncryptedDeal_first v v' e r Ha Hres)
    as (d & sig & _ & _ & Hsign & Hr & _ & _).
  destruct (reachable_set_agg v Hv) as (l0 & dk & vs & v0 & p & Hnew & Hv0 & _).
  destruct (NewVerifier_Ok_inv l0 dk vs v0 Hnew)
    as (Hl & Hpub & _ & Hvs0 & _ & _ & Hrange & (P & HP & HPeq) & _).
  assert (longterm v = l0 /\ verifiers v = vs /\ index v = index v0) as (Hl' & Hvs' & Hi').
  { rewrite Hv0. cbn. by rewrite Hl, Hvs0. }
  apply PEqual_eq in HPeq.
  assert (uint32 (index v) = Z.to_N (index v)) as Hu32.
  { unfold uint32. rewrite Z.mod_small; [done|]. rewrite Hvs' in Hlen. lia. }
  assert (findPub (agg_verifiers a) (Resp_Index r) = Some (PMul None (longterm v))) as Hfind.
  { rewrite Hr. cbn [Resp_Index]. unfold findPub. rewrite Hvs, Hvs', Hu32.
    destruct (Z.geb_spec (Z.of_N (Z.to_N (index v))) (Z.of_nat (length vs))); [lia|].
    rewrite Z2N.id by lia. rewrite Hi', HP. by rewrite HPeq, Hl'. }
  unfold verifyResponse. rewrite Hsid.
  unfold bytes_Equal. rewrite bool_decide_eq_true_2 by done. cbn [negb].
  rewrite Hfind.
  assert (Response_Hash r = Response_Hash
            (mkResponse
               (Hash (MarshalTo (dealer v) ++ concat (MarshalTo <$> verifiers v)
                      ++ concat (MarshalTo <$> Commitments d)
                      ++ le32 (uint32 (Z.of_N (T d)))))
               (uint32 (index v))
               (is_Ok (VerifyDeal_checks
                         (mkAggregator (dealer v) (verifiers v) (Commitments d) ∅
                            (SessionID d) (Some d) (Z.of_N (T d)) false) d)) []))
    as Hhash by (by rewrite Hr).
  rewrite Hhash. replace (Resp_Signature r) with sig by (by rewrite Hr).
  rewrite (Schnorr_verifies _ _ _ Hsign).
  unfold addResponse. by rewrite Hfind, Hfree.
Qed.

End peers.

(** ** The dealer *)

Section dealer_methods.
Context `{Suite} `{!vss.DealCodec}.
Import vss spec.

(** X23.  [PlaintextDeal] checks its index from above only: it returns the
    deal of a verifier for [0 <= i < len(deals)] and its error for
    [i >= len(deals)], and a negative index panics at [d.deals[i]]. *)
Theorem PlaintextDeal_bounds (d : Dealer) (i : Z) :
  (0 <= i < Z.of_nat (length (deals d)) ->
   exists dl, deals d !! Z.to_nat i = Some dl /\ PlaintextDeal d i = Ok dl) /\
  (Z.of_nat (length (deals d)) <= i ->
   PlaintextDeal d i = Err (errorsNew "dealer: PlaintextDeal given wrong index")) /\
  (i < 0 -> PlaintextDeal d i = Panic).
Proof.
  unfold PlaintextDeal.
  destruct (Z.geb_spec i (Z.of_nat (length (deals d)))) as [Hge|Hlt].
  - split_and!; [lia|done|lia].
  - destruct (Z.ltb_spec i 0) as [Hneg|Hpos].
    + split_and!; [lia|lia|done].
    + split_and!; [|lia|lia]. intros _.
      destruct (lookup_lt_is_Some_2 (deals d) (Z.to_nat i)) as [dl Hdl]; [lia|].
      exists dl. by rewrite Hdl.
Qed.


Lemma verifyResponse_result (a : aggregator) (r : Response) :
  (verifyResponse a r).2 <> Panic /\
  ((verifyResponse a r).2 <> Ok () -> (verifyResponse a r).1 = a) /\
  ((verifyResponse a r).2 = Ok () ->
   is_Some (findPub (agg_verifiers a) (Resp_Index r)) /\
   responses (verifyResponse a r).1 !! Resp_Index r = Some r).
Proof.
  unfold verifyResponse, addResponse. destruct (negb _); [done|].
  destruct (findPub _ _) as [P|] eqn:HP; [|done].
  destruct (VerifySchnorr _ _ _); [done|].
  destruct (responses a !! Resp_Index r) eqn:Hr; [done|]. cbn.
  split_and!; try done. intros _. split; [done|]. apply lookup_insert_eq.
Qed.

End dealer_methods.

Section dealer_channel.
Context `{Suite} `{!vss.DealCodec} `{!vss.Sealing}.
Import vss spec.

Lemma set_d_agg_d_agg (d : Dealer) : set_d_agg d (d_agg d) = d.
Proof. by destruct d. Qed.

(** X25.  [Dealer.ProcessResponse], for a dealer whose aggregator is over
    as many verifiers as it has deals and a signature routine that does not
    panic: it never panics — the index it reads [d.deals] at is good, as the
    code comments.  A response [verifyResponse] refuses gives that error, no
    justification and an unchanged dealer.  An accepted response is stored
    in the dealer's aggregator, which is otherwise as [verifyResponse] left
    it; an approval is then answered by (nil, nil), and a complaint by the
    outcome of signing the hash of the justification that carries the
    dealer's session id, the index of the complaint and the deal of that
    index: that justification with the signature, or the error of the
    signature routine. *)
Theorem Dealer_ProcessResponse_outcome (d : Dealer) (r : Response) (a : aggregator) :
  d_agg d = Some a ->
  length (deals d) = length (agg_verifiers a) ->
  (forall x msg, Schnorr x msg <> Panic) ->
  (Dealer_ProcessResponse d r).2 <> Panic /\
  (forall e, (verifyResponse a r).2 = Err e ->
     Dealer_ProcessResponse d r = (d, Err e)) /\
  ((verifyResponse a r).2 = Ok () ->
   (Dealer_ProcessResponse d r).1 = set_d_agg d (Some (verifyResponse a r).1) /\
   responses (verifyResponse a r).1 !! Resp_Index r = Some r /\
   (Approved r = true -> (Dealer_ProcessResponse d r).2 = Ok None) /\
   (Approved r = false ->
    exists dl, deals d !! N.to_nat (Resp_Index r) = Some dl /\
      let j0 := mkJustification (d_sessionID d) (Resp_Index r) dl [] in
      (forall sig, Schnorr (long d) (Justification_Hash j0) = Ok sig ->
         (Dealer_ProcessResponse d r).2
         = Ok (Some (mkJustification (d_sessionID d) (Resp_Index r) dl sig))) /\
      (forall e, Schnorr (long d) (Justification_Hash j0) = Err e ->
         (Dealer_ProcessResponse d r).2 = Err e))).
Proof.
  intros Ha Hlen Hsch.
  destruct (verifyResponse_result a r) as (Hnp & Hsame & Hok).
  unfold Dealer_ProcessResponse. rewrite Ha.
  destruct (verifyResponse a r) as [a1 verr]. cbn [fst snd] in *.
  destruct verr as [[]|e|]; [|clear Hok|done].
  - destruct (Hok eq_refl) as [Hfind Hstored].
    apply findPub_is_Some in Hfind.
    destruct (lookup_lt_is_Some_2 (deals d) (N.to_nat (Resp_Index r))) as [dl Hdl]; [lia|].
    rewrite Hdl.
    destruct (Approved r) eqn:Hap.
    + split; [done|]. split; [done|]. intros _. by split_and!.
    + destruct (Schnorr _ _) as [sig|e|] eqn:Hsig; [| |exfalso; exact (Hsch _ _ Hsig)].
      * split; [done|]. split; [done|]. intros _.
        split_and!; [done..|]. intros _. exists dl. split; [done|]. cbn zeta.
        rewrite Hsig. split; [by intros ? [= <-]|done].
      * split; [done|]. split; [done|]. intros _.
        split_and!; [done..|]. intros _. exists dl. split; [done|]. cbn zeta.
        rewrite Hsig. split; [done|by intros ? [= <-]].
  - rewrite Hsame by done. rewrite <- Ha, set_d_agg_d_agg.
    split; [done|]. split; [by intros e' [= ->]|done].
Qed.

Lemma EncryptedDeal_Ok_inv (d : Dealer) (i : Z) (rnd : Stream) (e : EncryptedDeal) :
  (Dealer_EncryptedDeal d i rnd).1 = Ok e ->
  0 <= i < Z.of_nat (length (deals d)) /\
  is_Some (findPub (d_verifiers d) (uint32 i)) /\
  (Dealer_EncryptedDeal d i rnd).2 = (SPick rnd).2 /\
  DHKey e = PMul None (SPick rnd).1 /\
  Forall (fun c => c = x00) (Nonce e).
Proof.
  unfold Dealer_EncryptedDeal.
  destruct (findPub (d_verifiers d) (uint32 i)) as [vPub|]; [|done].
  destruct (SPick rnd) as [dhSecret rnd1]. cbn [fst snd].
  assert (forall buff,
    (signature ← Schnorr (long d) buff;
     gcm ← newAEAD (dhExchange dhSecret vPub) (d_hkdfContext d);
     if (i <? 0) || (i >=? Z.of_nat (length (deals d))) then Panic
     else match deals d !! Z.to_nat i with
          | Some dl =>
              let '(dealBuff, err) := Deal_MarshalBinary dl in
              _ ← from_error err;
              Ok (mkEncryptedDeal (PMul None dhSecret) signature
                    (replicate (NonceSize gcm) x00)
                    (Seal gcm (replicate (NonceSize gcm) x00) dealBuff (d_hkdfContext d)))
          | None => Panic
          end) = Ok e ->
    0 <= i < Z.of_nat (length (deals d)) /\ is_Some (Some vPub) /\ rnd1 = rnd1 /\
    DHKey e = PMul None dhSecret /\ Forall (fun c => c = x00) (Nonce e)) as Hbody.
  { intros buff. destruct (Schnorr _ _) as [sig|?|]; [|done..].
    destruct (newAEAD _ _) as [gcm|?|]; [|done..]. cbn.
    destruct (Z.ltb_spec i 0); [done|].
    destruct (Z.geb_spec i (Z.of_nat (length (deals d)))); [done|]. cbn.
    destruct (deals d !! Z.to_nat i) as [dl|]; [|done].
    destruct (Deal_MarshalBinary dl) as [dealBuff [err|]]; [done|]. cbn.
    intros [= <-]. cbn.
    split; [lia|]. split; [by eexists|]. split; [done|]. split; [done|].
    apply Forall_forall. intros c Hc. by apply elem_of_replicate in Hc as [-> _]. }
  destruct (MarshalBinary (PMul None dhSecret)) as [buff|?|]; [apply Hbody..|done].
Qed.

(** X26.  [Dealer.EncryptedDeal] checks [uint32(i)] against the verifiers
    but indexes the deals by [i]: with [uint32(i)] out of range it returns
    its error and draws nothing from the random stream, and it returns an
    encrypted deal only for [0 <= i < len(deals)]; that deal is under a
    fresh ephemeral key [x * B] and a zero nonce. *)
Theorem EncryptedDeal_index (d : Dealer) (i : Z) (rnd : Stream) :
  (findPub (d_verifiers d) (uint32 i) = None ->
   Dealer_EncryptedDeal d i rnd
   = (Err (errorsNew "dealer: wrong index to generate encrypted deal"), rnd)) /\
  (forall e, (Dealer_EncryptedDeal d i rnd).1 = Ok e ->
     0 <= i < Z.of_nat (length (deals d)) /\
     is_Some (findPub (d_verifiers d) (uint32 i)) /\
     (Dealer_EncryptedDeal d i rnd).2 = (SPick rnd).2 /\
     DHKey e = PMul None (SPick rnd).1 /\
     Forall (fun c => c = x00) (Nonce e)).
Proof.
  split; [|apply EncryptedDeal_Ok_inv].
  unfold Dealer_EncryptedDeal. by intros ->.
Qed.

Lemma drawn_next (k : nat) (rnd : Stream) :
  drawn k (SPick rnd).2 = drawn (S k) rnd.
Proof. unfold drawn. by rewrite Nat.iter_succ_r. Qed.

Lemma EncryptedDeals_loop_each (d : Dealer) (n k : nat) (rnd rnd' : Stream)
    (es : list EncryptedDeal) :
  EncryptedDeals_loop d (seq k n) rnd = (Ok es, rnd') ->
  length es = n /\ rnd' = drawn n rnd /\
  forall j e, es !! j = Some e ->
    Dealer_EncryptedDeal d (Z.of_nat (k + j)) (drawn j rnd) = (Ok e, drawn (S j) rnd).
Proof.
  revert k rnd es. induction n as [|n IH]; intros k rnd es;
    cbn [seq EncryptedDeals_loop].
  - intros [= <- <-]. done.
  - destruct (Dealer_EncryptedDeal d (Z.of_nat k) rnd) as [[e| |] rnd1] eqn:He;
      [|done..].
    destruct (EncryptedDeals_loop d (seq (S k) n) rnd1) as [[es'| |] rnd2] eqn:Hrest;
      [|done..].
    cbn [mbind res_mbind res_bind]. intros [= <- <-].
    destruct (IH _ _ _ Hrest) as (Hlen & Hrnd & Hes).
    assert (rnd1 = (SPick rnd).2) as ->.
    { pose proof (EncryptedDeal_Ok_inv d (Z.of_nat k) rnd e) as Hinv.
      rewrite He in Hinv. by destruct (Hinv eq_refl) as (_ & _ & Heq & _). }
    split; [cbn [length]; lia|]. split; [rewrite Hrnd; apply drawn_next|].
    intros [|j] e' He'.
    + injection He' as <-. rewrite Nat.add_0_r. exact He.
    + replace (k + S j)%nat with (S k + j)%nat by lia.
      rewrite <- (drawn_next j rnd), <- (drawn_next (S j) rnd). by apply Hes.
Qed.

(** X27.  When [EncryptedDeals] returns a list, it holds one encrypted deal
    per verifier; the entry of index [i] is exactly what [EncryptedDeal(i)]
    returns on the random stream as the [i] earlier calls left it, each
    having drawn one scalar, and the stream is left after as many draws as
    there are verifiers. *)
Theorem EncryptedDeals_each (d : Dealer) (rnd rnd' : Stream) (es : list EncryptedDeal) :
  EncryptedDeals d rnd = (Ok es, rnd') ->
  length es = length (d_verifiers d) /\
  rnd' = drawn (length (d_verifiers d)) rnd /\
  forall (i : nat) e, es !! i = Some e ->
    Dealer_EncryptedDeal d (Z.of_nat i) (drawn i rnd) = (Ok e, drawn (S i) rnd).
Proof.
  unfold EncryptedDeals. intros Hloop.
  apply EncryptedDeals_loop_each in Hloop as (Hlen & Hrnd & Hes).
  split; [done|]. split; [done|]. intros i e He. by apply (Hes i e).
Qed.

End dealer_channel.

Section channel.
Context `{Suite} `{!vss.DealCodec} `{!vss.Sealing} `{!SchnorrLaws} `{!ChannelLaws}.
Import vss spec.

(** X28.  The verifier reads what the dealer wrote.  Let the dealer's
    public key be [long * B], and let a verifier hold that key as its
    dealer key, the dealer's HKDF context, and the long-term key of the
    public key listed at index [i < 2^32].  Then every encrypted deal
    [EncryptedDeal(i)] returns, its ephemeral key having a binary encoding,
    is decrypted by that verifier to the dealer's deal of index [i],
    provided the deal survives its own encoding and decoding. *)
Theorem EncryptedDeal_decryptDeal (d : Dealer) (v : Verifier) (i : Z) (rnd : Stream)
    (dl : Deal) (e : EncryptedDeal) :
  d_pub d = PMul None (long d) ->
  dealer v = d_pub d ->
  hkdfContext v = d_hkdfContext d ->
  0 <= i < 2 ^ 32 ->
  d_verifiers d !! Z.to_nat i = Some (PMul None (longterm v)) ->
  deals d !! Z.to_nat i = Some dl ->
  Deal_UnmarshalBinary (Deal_MarshalBinary dl).1 = Ok dl ->
  (Dealer_EncryptedDeal d i rnd).1 = Ok e ->
  is_Ok (MarshalBinary (DHKey e)) = true ->
  decryptDeal v e = Ok dl.
Proof.
  intros Hpub Hdealer Hctx Hi Hvi Hdl Hcodec Hres Hmb.
  destruct (EncryptedDeal_Ok_inv d i rnd e Hres) as (_ & _ & _ & Hkey & _).
  unfold Dealer_EncryptedDeal in Hres.
  assert (findPub (d_verifiers d) (uint32 i) = Some (PMul None (longterm v))) as Hfind.
  { unfold findPub, uint32. rewrite Z.mod_small by lia. rewrite Z2N.id by lia.
    apply lookup_lt_Some in Hvi as Hlt.
    destruct (Z.geb_spec i (Z.of_nat (length (d_verifiers d)))); [lia|done]. }
  rewrite Hfind in Hres.
  destruct (SPick rnd) as [dhSecret rnd1]. cbn [fst snd] in *.
  rewrite Hkey in Hmb.
  destruct (MarshalBinary (PMul None dhSecret)) as [buff|?|] eqn:Hbuff; [|done..].
  destruct (Schnorr (long d) buff) as [sig|?|] eqn:Hsig; [|done..].
  cbn [mbind res_mbind res_bind] in Hres.
  destruct (newAEAD (dhExchange dhSecret (PMul None (longterm v))) (d_hkdfContext d))
    as [gcm|?|] eqn:Hgcm; [|done..].
  cbn [mbind res_mbind res_bind] in Hres.
  destruct ((i <? 0) || (i >=? Z.of_nat (length (deals d)))); [done|].
  rewrite Hdl in Hres.
  destruct (Deal_MarshalBinary dl) as [dealBuff [err|]]; [done|].
  cbn in Hres, Hcodec. injection Hres as <-.
  unfold decryptDeal. cbn [DHKey Enc_Signature Nonce Enc_Cipher].
  rewrite Hbuff. cbn [mbind res_mbind res_bind].
  rewrite Hdealer, Hpub, (Schnorr_verifies _ _ _ Hsig). cbn [from_error].
  rewrite dhExchange_sym, Hctx, Hgcm. cbn [mbind res_mbind res_bind].
  by rewrite (Open_Seal _ _ _ _ _ Hgcm).
Qed.

End channel.

Section thresholds.
Context `{Suite} `{!vss.DealCodec}.
Import vss.

(** X29.  The threshold [MinimumT] recommends is one [NewDealer] and
    [VerifyDeal] accept exactly for three verifiers or more (and fewer than
    2^33 - 1): with two verifiers [MinimumT] is 1, below the least threshold
    [validT] admits.  The list is a slice: its length is an [int], below
    2^63. *)
Theorem MinimumT_validT (verifiers : list Point) :
  Z.of_nat (length verifiers) < 2 ^ 63 ->
  validT (MinimumT (Z.of_nat (length verifiers))) verifiers = true <->
  3 <= Z.of_nat (length verifiers) < 2 ^ 33 - 1.
Proof.
  intros Hlen. rewrite validT_spec. unfold MinimumT, wrap64.
  destruct (decide (Z.of_nat (length verifiers) = 2 ^ 63 - 1)) as [Hmax|Hmax].
  - rewrite Hmax.
    change (Z.quot ((2 ^ 63 - 1 + 1 + 2 ^ 63) mod 2 ^ 64 - 2 ^ 63) 2) with (- 2 ^ 62).
    lia.
  - rewrite Z.mod_small by lia.
    replace (Z.of_nat (length verifiers) + 1 + 2 ^ 63 - 2 ^ 63)
      with (Z.of_nat (length verifiers) + 1) by lia.
    rewrite Z.quot_div_nonneg by lia.
    split; intros; Z.div_mod_to_equations; lia.
Qed.

End thresholds.

(** ** The small suite satisfies the other laws *)

Section toy_channel_laws.
Import toy.

Global Instance toy_point_laws : PointLaws (H := suite).
Proof.
  split.
  - exact (Radd_comm Fq_ring).
  - exact (Radd_assoc Fq_ring).
  - exact (Radd_0_l Fq_ring).
  - intros P Q x. exact (Rdistr_l Fq_ring P Q x).
Qed.

Global Instance toy_equality_laws : EqualityLaws (H := suite).
Proof. split. exact (PEqual_eq (H := suite)). Qed.

Global Instance toy_schnorr_laws : SchnorrLaws (H := suite).
Proof.
  split. intros x msg sig [= <-]. cbn. unfold verify.
  rewrite (Rmul_1_l Fq_ring). by rewrite bool_decide_eq_true_2.
Qed.

Global Instance toy_channel_laws : ChannelLaws (H := suite).
Proof.
  split.
  - intros x y. cbn. rewrite !(Rmul_1_l Fq_ring). apply (Rmul_comm Fq_ring).
  - intros pre ctx gcm nonce plaintext [= <-]. cbn. unfold seal, open, marshal.
    cbn [app fst snd]. by rewrite !bool_decide_eq_true_2.
Qed.

End toy_channel_laws.

(** ** The run on the small suite *)

Section run.
Import toy example.

Lemma NewVerifier_v0 : vss.NewVerifier (of_Z 2) dealer_pub verifiers = Ok v0.
Proof. reflexivity. Qed.

Lemma v0_complained_reachable : spec.reachable v0_complained.
Proof.
  exists (of_Z 2), dealer_pub, verifiers, v0. split; [exact NewVerifier_v0|].
  apply rtc_once. apply spec.step_ProcessEncryptedDeal.
Qed.

Lemma agg_complained_reachable : spec.agg_reachable agg_complained.
Proof.
  exists dealer_pub, verifiers, commitments, 2, session.
  apply rtc_once. apply spec.agg_step_addResponse.
Qed.

Lemma x_of_distinct (i j : nat) :
  (i < j)%nat -> Z.of_nat j < 3 -> spec.x_of i <> spec.x_of j.
Proof.
  intros Hij Hj Heq. apply (f_equal val) in Heq.
  assert ((i = 0 /\ j = 1) \/ (i = 0 /\ j = 2) \/ (i = 1 /\ j = 2))%nat
    as [[-> ->] | [[-> ->] | [-> ->]]] by lia;
    vm_compute in Heq; discriminate.
Qed.

Lemma RecoverSecret_NewPriPoly_witness :
  2 <= 2 <= 3 /\
  share.NewPriPoly 0 2 (Some (of_Z 7)) [4] = Ok (f, []) /\
  share.PriPoly_Shares f 3 = Ok shares3 /\
  2 <= Z.of_nat (spec.count_non_nil (spec.masked keep3 shares3)) /\
  share.RecoverSecret 0 (spec.masked keep3 shares3) 2 = Ok (of_Z 7).
Proof.
  assert (2 <= 2 <= 3) as H1 by lia.
  assert (share.NewPriPoly 0 2 (Some (of_Z 7)) [4] = Ok (f, [])) as H2
    by reflexivity.
  assert (share.PriPoly_Shares f 3 = Ok shares3) as H3 by reflexivity.
  assert (2 <= Z.of_nat (spec.count_non_nil (spec.masked keep3 shares3))) as H4
    by (vm_compute; discriminate).
  split; [exact H1|]. split; [exact H2|]. split; [exact H3|]. split; [exact H4|].
  exact (proj1 (RecoverSecret_NewPriPoly 0 2 3 (of_Z 7) [4] [] f shares3 keep3
                  H1 x_of_distinct H2 H3 H4)).
Defined.

Lemma NewDealer_outcome_witness :
  (2 <= 2 <= Z.of_nat (length verifiers) /\ 2 < 2 ^ 32) /\
  vss.NewDealer 0 (of_Z 5) (Some (of_Z 7)) verifiers [4; 9; 6] 2 0 = Ok dealer0 /\
  exists d,
    vss.NewDealer 0 (of_Z 5) (Some (of_Z 7)) verifiers [4; 9; 6] 2 0 = Ok d /\
    vss.d_t d = 2 /\ length (vss.deals d) = length verifiers.
Proof.
  assert (2 <= 2 <= Z.of_nat (length verifiers) /\ 2 < 2 ^ 32) as Ht
    by (cbn; lia).
  split; [exact Ht|]. split; [reflexivity|].
  destruct (proj1 (NewDealer_outcome (H := suite) 0 (of_Z 5) (Some (of_Z 7)) verifiers
                     [4; 9; 6] 2 0) Ht)
    as (d & f0 & g0 & r1 & r2 & Hd & _ & _ & _ & _ & _ & _ & _ & Hdt & _ & _ & _ & Hlen & _).
  exists d. exact (conj Hd (conj Hdt Hlen)).
Defined.

(** C3, the claim refuted on a run: verifier 0 decrypts a deal whose shares
    verify and whose session id is not the recomputed one, and answers with
    an approval instead of an error. *)
Lemma ProcessEncryptedDeal_foreign_sid_approved :
  vss.decryptDeal v0 (encrypt deal0_foreign_sid) = Ok deal0_foreign_sid /\
  share.I (vss.SecShare deal0_foreign_sid) = vss.index v0 /\
  vss.sessionID (vss.dealer v0) (vss.verifiers v0) (vss.Commitments deal0_foreign_sid)
    (Z.of_N (vss.T deal0_foreign_sid)) = Ok session /\
  vss.SessionID deal0_foreign_sid <> session /\
  exists r, (vss.ProcessEncryptedDeal v0 (encrypt deal0_foreign_sid)).2 = Ok r /\
            vss.Approved r = true.
Proof.
  split_and!.
  - reflexivity.
  - reflexivity.
  - reflexivity.
  - vm_compute. discriminate.
  - eexists. split; reflexivity.
Qed.

Lemma ProcessEncryptedDeal_session_id_witness :
  vss.decryptDeal v0 (encrypt deal0_foreign_sid) = Ok deal0_foreign_sid /\
  share.I (vss.SecShare deal0_foreign_sid) = vss.index v0 /\
  (vss.ProcessEncryptedDeal v0 (encrypt deal0_foreign_sid)).2
  = Ok (vss.mkResponse session 0 true
          (marshal (of_Z 2)
           ++ vss.Response_Hash (vss.mkResponse session 0 true []))) /\
  (vss.sid <$> vss.agg (vss.ProcessEncryptedDeal v0 (encrypt deal0_foreign_sid)).1)
  = Some foreign_sid.
Proof.
  assert (vss.decryptDeal v0 (encrypt deal0_foreign_sid) = Ok deal0_foreign_sid) as H1
    by reflexivity.
  assert (share.I (vss.SecShare deal0_foreign_sid) = vss.index v0) as H2 by reflexivity.
  assert (vss.sessionID (vss.dealer v0) (vss.verifiers v0)
            (vss.Commitments deal0_foreign_sid) (Z.of_N (vss.T deal0_foreign_sid))
          = Ok session) as H3 by reflexivity.
  split; [exact H1|]. split; [exact H2|].
  refine (proj2 (ProcessEncryptedDeal_session_id v0 (encrypt deal0_foreign_sid)
                   deal0_foreign_sid session H1 H2 H3) eq_refl _ _ _).
  - reflexivity.
  - eexists. reflexivity.
Defined.

Lemma DealCertified_iff_witness :
  Z.of_nat (spec.approvals (vss.responses agg_approved)) = vss.agg_t agg_approved /\
  spec.complaints (vss.responses agg_approved) = 0%nat /\
  vss.DealCertified (Some agg_approved) = Ok true.
Proof.
  assert (Z.of_nat (spec.approvals (vss.responses agg_approved)) = vss.agg_t agg_approved)
    as H1 by reflexivity.
  assert (spec.complaints (vss.responses agg_approved) = 0%nat) as H2
    by reflexivity.
  split; [exact H1|]. split; [exact H2|].
  apply (proj2 (proj1 (proj2 (proj2 (DealCertified_iff agg_approved))) H1) H2);
    reflexivity.
Defined.

Lemma badDealer_latch_witness :
  spec.reachable v0_complained /\
  vss.agg v0_complained = Some agg_v0 /\
  vss.responses agg_v0 !! vss.Just_Index (justification deal0_bad_share)
    = Some complaint_v0 /\
  vss.Approved complaint_v0 = false /\
  vss.VerifyDeal agg_v0 (vss.Just_Deal (justification deal0_bad_share)) false
    = (agg_v0, Err errShareMismatch) /\
  forall v2,
    rtc spec.step (vss.ProcessJustification v0_complained
                     (justification deal0_bad_share)).1 v2 ->
    vss.Verifier_DealCertified v2 = Ok false.
Proof.
  assert (vss.agg v0_complained = Some agg_v0) as H1 by reflexivity.
  assert (vss.responses agg_v0 !! vss.Just_Index (justification deal0_bad_share)
          = Some complaint_v0) as H2 by reflexivity.
  assert (vss.Approved complaint_v0 = false) as H3 by reflexivity.
  assert (vss.VerifyDeal agg_v0 (vss.Just_Deal (justification deal0_bad_share)) false
          = (agg_v0, Err errShareMismatch)) as H4 by reflexivity.
  split; [exact v0_complained_reachable|].
  split; [exact H1|]. split; [exact H2|]. split; [exact H3|]. split; [exact H4|].
  intros v2 Hv2.
  exact (proj2 (proj2 (badDealer_latch v0_complained (justification deal0_bad_share)
                         agg_v0 agg_v0 complaint_v0 errShareMismatch
                         v0_complained_reachable H1 H2 H3 H4) v2 Hv2)).
Defined.

Lemma Commit_Check_witness :
  share.Check (share.Commit f (Some (mkPointRef _ 0 (vss.deriveH verifiers))))
    (share.PriPoly_Eval f 1) = true.
Proof.
  exact (proj1 (Commit_Check f (Some (mkPointRef _ 0 (vss.deriveH verifiers))) 1)).
Defined.

Lemma duplicate_response_rejected_witness :
  vss.responses agg_complained !! vss.Resp_Index (vss.mkResponse session 0 true [])
    = Some complaint0 /\
  (exists e, vss.addResponse agg_complained (vss.mkResponse session 0 true [])
             = (agg_complained, Err e)) /\
  (exists e, vss.verifyResponse agg_complained (vss.mkResponse session 0 true [])
             = (agg_complained, Err e)).
Proof.
  assert (vss.responses agg_complained
            !! vss.Resp_Index (vss.mkResponse session 0 true []) = Some complaint0) as H1
    by reflexivity.
  split; [exact H1|].
  exact (duplicate_response_rejected agg_complained (vss.mkResponse session 0 true [])
           complaint0 H1).
Defined.

Lemma justification_flips_complaint_witness :
  spec.agg_reachable agg_complained /\
  vss.responses agg_complained !! vss.Just_Index (justification deal0) = Some complaint0 /\
  vss.VerifyDeal agg_complained (vss.Just_Deal (justification deal0)) false
    = ((vss.VerifyDeal agg_complained deal0 false).1, Ok ()) /\
  exists a2,
    vss.verifyJustification agg_complained (justification deal0) = (a2, Ok ()) /\
    vss.responses a2 !! vss.Just_Index (justification deal0)
      = Some (vss.approve complaint0) /\
    vss.Approved (vss.approve complaint0) = true /\
    vss.badDealer a2 = vss.badDealer agg_complained.
Proof.
  assert (vss.responses agg_complained !! vss.Just_Index (justification deal0)
          = Some complaint0) as H1 by reflexivity.
  assert (vss.VerifyDeal agg_complained (vss.Just_Deal (justification deal0)) false
          = ((vss.VerifyDeal agg_complained deal0 false).1, Ok ())) as H2
    by reflexivity.
  split; [exact agg_complained_reachable|]. split; [exact H1|]. split; [exact H2|].
  exact (proj1 (justification_flips_complaint agg_complained (justification deal0)
                  agg_complained_reachable) complaint0 _ H1 eq_refl H2).
Defined.

(** C9, the claim refuted at the threshold 0: on the one-share list
    [RecoverSecret] returns the value of that share, 3, and the interpolation
    from the first 0 entries is the empty sum, 0. *)
Lemma RecoverSecret_threshold_zero_counterexample :
  0 <= Z.of_nat (spec.count_non_nil [Some (share.mkPriShare 0 (of_Z 3))]) /\
  share.RecoverSecret 0 [Some (share.mkPriShare 0 (of_Z 3))] 0
  <> Ok (spec.interpolate_at_zero
           (spec.collected (Z.to_nat 0) [Some (share.mkPriShare 0 (of_Z 3))])).
Proof.
  split; [lia|]. intros Heq.
  apply (f_equal (fun r : res Fq => match r with Ok x => val x | _ => -1 end)) in Heq.
  vm_compute in Heq. discriminate.
Qed.

Lemma RecoverSecret_threshold_witness :
  1 <= 2 <= Z.of_nat (spec.count_non_nil (spec.masked keep3 shares3)) /\
  share.RecoverSecret 0 (spec.masked keep3 shares3) 2
  = Ok (spec.interpolate_at_zero (spec.collected (Z.to_nat 2) (spec.masked keep3 shares3))).
Proof.
  assert (1 <= 2 <= Z.of_nat (spec.count_non_nil (spec.masked keep3 shares3))) as H1
    by (split; vm_compute; discriminate).
  split; [exact H1|].
  exact (proj2 (RecoverSecret_threshold 0 (spec.masked keep3 shares3) 2) H1).
Defined.

Lemma DealCertified_nil_aggregator_witness :
  vss.agg v0 = None /\ vss.Verifier_DealCertified v0 = Ok false.
Proof.
  split; [reflexivity|]. exact (DealCertified_nil_aggregator v0 eq_refl).
Defined.

End run.

(** ** More of the run on the small suite *)

Section run_more.
Import toy example.

Lemma v0_reachable : spec.reachable v0.
Proof.
  exists (of_Z 2), dealer_pub, verifiers, v0. split; [exact NewVerifier_v0|done].
Qed.

Lemma PriPoly_Add_Eval_witness :
  share.PriPoly_Add f g = Ok f_plus_g /\
  share.V (share.PriPoly_Eval f_plus_g 1)
  = add (share.V (share.PriPoly_Eval f 1)) (share.V (share.PriPoly_Eval g 1)).
Proof.
  assert (share.PriPoly_Add f g = Ok f_plus_g) as H1 by reflexivity.
  split; [exact H1|].
  exact (proj2 (proj2 (proj2 (proj2 (PriPoly_Add_Eval f g) f_plus_g H1)) 1)).
Defined.

Lemma PubPoly_Add_Commit_witness :
  share.PriPoly_Add f g = Ok f_plus_g /\
  share.PubPoly_Add (share.Commit f None) (share.Commit g None)
  = Ok (share.Commit f_plus_g None).
Proof.
  assert (share.PriPoly_Add f g = Ok f_plus_g) as H1 by reflexivity.
  split; [exact H1|].
  exact (PubPoly_Add_Commit f g f_plus_g None H1).
Defined.

Lemma PriPoly_Equal_prefix_witness :
  share.coeffs f_const `prefix_of` share.coeffs f /\
  share.PriPoly_Equal f_const f = Ok true /\
  share.PriPoly_Equal f f_const = Panic.
Proof.
  assert (share.coeffs f_const `prefix_of` share.coeffs f) as H1
    by (by exists [of_Z 4]).
  split; [exact H1|]. split.
  - exact (proj2 (proj1 (PriPoly_Equal_prefix f_const f)) (conj eq_refl H1)).
  - apply (proj2 (proj2 (PriPoly_Equal_prefix f f_const))).
    split; [reflexivity|]. by exists (of_Z 4), [].
Defined.

Lemma PubPoly_Equal_prefix_witness :
  share.commits (share.Commit f_const None) `prefix_of` share.commits (share.Commit f None) /\
  share.PubPoly_Equal (share.Commit f_const None) (share.Commit f None) = Ok true.
Proof.
  assert (share.commits (share.Commit f_const None)
            `prefix_of` share.commits (share.Commit f None)) as H1
    by (by exists [mul (of_Z 1) (of_Z 4)]).
  split; [exact H1|].
  exact (proj2 (proj1 (PubPoly_Equal_prefix (share.Commit f_const None)
                         (share.Commit f None))) (conj eq_refl H1)).
Defined.

Lemma PubPoly_Add_Eval_witness :
  share.PubPoly_Add (share.Commit f None) (share.Commit g None)
  = Ok (share.Commit f_plus_g None) /\
  share.pub_V (share.PubPoly_Eval (share.Commit f_plus_g None) 1)
  = add (share.pub_V (share.PubPoly_Eval (share.Commit f None) 1))
      (share.pub_V (share.PubPoly_Eval (share.Commit g None) 1)).
Proof.
  assert (share.PubPoly_Add (share.Commit f None) (share.Commit g None)
          = Ok (share.Commit f_plus_g None)) as H1 by reflexivity.
  split; [exact H1|].
  exact (proj2 (proj2 (proj2 (proj2 (PubPoly_Add_Eval (share.Commit f None)
                                       (share.Commit g None)) _ H1)) 1)).
Defined.

Lemma RecoverCommit_RecoverSecret_witness :
  Forall2 (spec.commits_to None) (spec.masked_pub keep3 pub_shares3)
    (spec.masked keep3 shares3) /\
  share.RecoverCommit 0 (spec.masked_pub keep3 pub_shares3) 2
  = (s ← share.RecoverSecret 0 (spec.masked keep3 shares3) 2; Ok (PMul None s)).
Proof.
  assert (Forall2 (spec.commits_to None) (spec.masked_pub keep3 pub_shares3)
            (spec.masked keep3 shares3)) as H1
    by (repeat constructor; reflexivity).
  split; [exact H1|].
  exact (RecoverCommit_RecoverSecret 0 None _ _ 2 H1).
Defined.

Lemma RecoverSecret_positional_witness :
  Forall2 spec.same_values (spec.masked keep3 shares3)
    (spec.masked keep3 shares3_unlabelled) /\
  share.RecoverSecret 0 (spec.masked keep3 shares3) 2
  = share.RecoverSecret 0 (spec.masked keep3 shares3_unlabelled) 2.
Proof.
  assert (Forall2 spec.same_values (spec.masked keep3 shares3)
            (spec.masked keep3 shares3_unlabelled)) as H1
    by (repeat constructor; reflexivity).
  split; [exact H1|].
  exact (RecoverSecret_positional 0 _ _ 2 H1).
Defined.

Lemma RecoverSecret_larger_threshold_witness :
  share.GetSecret f = Ok (of_Z 7) /\
  share.PriPoly_Threshold f <= 3 /\
  share.PriPoly_Shares f 3 = Ok shares3 /\
  3 <= Z.of_nat (spec.count_non_nil (spec.masked [true; true; true] shares3)) /\
  share.RecoverSecret 0 (spec.masked [true; true; true] shares3) 3 = Ok (of_Z 7).
Proof.
  assert (share.GetSecret f = Ok (of_Z 7)) as H1 by reflexivity.
  assert (1 <= 3) as H2 by lia.
  assert (share.PriPoly_Threshold f <= 3) as H3 by (vm_compute; discriminate).
  assert (share.PriPoly_Shares f 3 = Ok shares3) as H4 by reflexivity.
  assert (3 <= Z.of_nat (spec.count_non_nil (spec.masked [true; true; true] shares3)))
    as H5 by (vm_compute; discriminate).
  split; [exact H1|]. split; [exact H3|]. split; [exact H4|]. split; [exact H5|].
  exact (RecoverSecret_larger_threshold 0 f (of_Z 7) 3 3 shares3 [true; true; true]
           H1 H2 H3 x_of_distinct H4 H5).
Defined.

Lemma RecoverCommit_Commit_witness :
  share.GetSecret f = Ok (of_Z 7) /\
  share.PriPoly_Threshold f <= 2 /\
  share.PubPoly_Shares (share.Commit f None) 3 = Ok pub_shares3 /\
  2 <= Z.of_nat (spec.count_non_nil_pub (spec.masked_pub keep3 pub_shares3)) /\
  share.RecoverCommit 0 (spec.masked_pub keep3 pub_shares3) 2
  = Ok (PMul None (of_Z 7)).
Proof.
  assert (share.GetSecret f = Ok (of_Z 7)) as H1 by reflexivity.
  assert (1 <= 2) as H2 by lia.
  assert (share.PriPoly_Threshold f <= 2) as H3 by (vm_compute; discriminate).
  assert (share.PubPoly_Shares (share.Commit f None) 3 = Ok pub_shares3) as H4
    by reflexivity.
  assert (2 <= Z.of_nat (spec.count_non_nil_pub (spec.masked_pub keep3 pub_shares3)))
    as H5 by (vm_compute; discriminate).
  split; [exact H1|]. split; [exact H3|]. split; [exact H4|]. split; [exact H5|].
  exact (proj1 (RecoverCommit_Commit 0 f (of_Z 7) None 2 3 pub_shares3 keep3
                  H1 H2 H3 x_of_distinct H4 H5)).
Defined.

Lemma xCoords_exact_witness :
  share.xCoords 2 (Z.of_nat (length (spec.masked keep3 shares3)))
    (share.isNotNil (spec.masked keep3 shares3)) = Ok x3 /\
  length x3 = length (spec.masked keep3 shares3) /\
  Z.of_nat (length (interp.dense x3)) = 2.
Proof.
  assert (1 <= 2) as H1 by lia.
  assert (share.xCoords 2 (Z.of_nat (length (spec.masked keep3 shares3)))
            (share.isNotNil (spec.masked keep3 shares3)) = Ok x3) as H2 by reflexivity.
  split; [exact H2|].
  pose proof (xCoords_exact 2 (spec.masked keep3 shares3) x3 H1 H2) as H3.
  exact (conj (proj1 H3) (proj1 (proj2 H3))).
Defined.

Lemma agg_justified_rtc : rtc spec.agg_step agg_complained agg_justified.
Proof. apply rtc_once, spec.agg_step_verifyJustification. Qed.

Lemma approvals_never_withdrawn_witness :
  rtc spec.agg_step agg_complained agg_justified /\
  (spec.approvals (vss.responses agg_complained)
   <= spec.approvals (vss.responses agg_justified))%nat.
Proof.
  split; [exact agg_justified_rtc|].
  exact (proj1 (proj2 (approvals_never_withdrawn agg_complained agg_justified
                         agg_justified_rtc))).
Defined.

Lemma stored_responses_bounded_witness :
  spec.agg_reachable agg_complained /\
  (spec.approvals (vss.responses agg_complained)
   + spec.complaints (vss.responses agg_complained)
   <= length (vss.agg_verifiers agg_complained))%nat.
Proof.
  split; [exact agg_complained_reachable|].
  exact (proj2 (stored_responses_bounded agg_complained agg_complained_reachable)).
Defined.

Lemma agg_both_reachable : spec.agg_reachable agg_both.
Proof.
  exists dealer_pub, verifiers, commitments, 2, session.
  eapply rtc_l; [apply spec.agg_step_verifyResponse|].
  apply rtc_once, spec.agg_step_verifyResponse.
Qed.

Lemma majority_threshold_certifies_witness :
  spec.agg_reachable agg_both /\
  Z.of_nat (length (vss.agg_verifiers agg_both)) < 2 * vss.agg_t agg_both /\
  vss.EnoughApprovals (Some agg_both) = Ok true /\
  vss.DealCertified (Some agg_both) = Ok (negb (vss.badDealer agg_both)).
Proof.
  assert (Z.of_nat (length (vss.agg_verifiers agg_both)) < 2 * vss.agg_t agg_both) as H1
    by reflexivity.
  assert (vss.EnoughApprovals (Some agg_both) = Ok true) as H2 by reflexivity.
  split; [exact agg_both_reachable|]. split; [exact H1|]. split; [exact H2|].
  exact (majority_threshold_certifies agg_both agg_both_reachable H1 H2).
Defined.

Lemma aggregator_configuration_fixed_witness :
  rtc spec.agg_step agg_complained agg_justified /\
  vss.agg_verifiers agg_justified = vss.agg_verifiers agg_complained /\
  vss.agg_t agg_justified = vss.agg_t agg_complained.
Proof.
  split; [exact agg_justified_rtc|].
  pose proof (aggregator_configuration_fixed agg_complained agg_justified
                agg_justified_rtc) as H1.
  exact (conj (proj1 (proj2 H1)) (proj1 (proj2 (proj2 H1)))).
Defined.

Lemma ProcessEncryptedDeal_once_witness :
  spec.reachable v0_complained /\
  is_Some (vss.agg v0_complained) /\
  (vss.ProcessEncryptedDeal v0_complained (encrypt deal0)).1 = v0_complained.
Proof.
  assert (is_Some (vss.agg v0_complained)) as H1 by (by exists agg_v0).
  split; [exact v0_complained_reachable|]. split; [exact H1|].
  exact (proj1 (ProcessEncryptedDeal_once v0_complained (encrypt deal0)
                  v0_complained_reachable H1)).
Defined.

Lemma ProcessEncryptedDeal_records_witness :
  spec.reachable v0 /\
  vss.ProcessEncryptedDeal v0 (encrypt deal0) = (v0_approved, Ok (approval 0 (of_Z 2))) /\
  vss.agg v0 = None.
Proof.
  assert (vss.ProcessEncryptedDeal v0 (encrypt deal0)
          = (v0_approved, Ok (approval 0 (of_Z 2)))) as H1 by reflexivity.
  split; [exact v0_reachable|]. split; [exact H1|].
  exact (proj1 (ProcessEncryptedDeal_records v0 v0_approved (encrypt deal0)
                  (approval 0 (of_Z 2)) v0_reachable H1)).
Defined.

Lemma Verifier_Deal_certified_witness :
  spec.reachable v0_complained /\
  vss.agg v0_complained = Some agg_v0 /\
  exists d c,
    vss.deal agg_v0 = Some d /\ vss.Verifier_DealCertified v0_complained = Ok c /\
    vss.Verifier_Deal v0_complained = Ok (if c then Some d else None).
Proof.
  assert (vss.agg v0_complained = Some agg_v0) as H1 by reflexivity.
  split; [exact v0_complained_reachable|]. split; [exact H1|].
  exact (Verifier_Deal_certified v0_complained agg_v0 v0_complained_reachable H1).
Defined.

Lemma fresh_verifier_panics_witness :
  vss.NewVerifier (of_Z 2) dealer_pub verifiers = Ok v0 /\
  vss.Verifier_ProcessResponse v0 complaint0 = (v0, Panic) /\
  vss.Verifier_SessionID v0 = Panic.
Proof.
  split; [exact NewVerifier_v0|].
  pose proof (fresh_verifier_panics (of_Z 2) dealer_pub verifiers v0 complaint0
                (justification deal0) NewVerifier_v0) as H1.
  exact (conj (proj1 H1) (proj2 (proj2 (proj2 (proj2 H1))))).
Defined.

Lemma response_accepted_by_peers_witness :
  spec.reachable v0 /\
  Z.of_nat (length (vss.verifiers v0)) <= 2 ^ 32 /\
  vss.ProcessEncryptedDeal v0 (encrypt deal0) = (v0_approved, Ok (approval 0 (of_Z 2))) /\
  vss.verifyResponse agg_new (approval 0 (of_Z 2))
  = (vss.set_responses agg_new
       (<[vss.Resp_Index (approval 0 (of_Z 2)) := approval 0 (of_Z 2)]>
          (vss.responses agg_new)), Ok ()).
Proof.
  assert (Z.of_nat (length (vss.verifiers v0)) <= 2 ^ 32) as H1
    by (vm_compute; discriminate).
  assert (vss.ProcessEncryptedDeal v0 (encrypt deal0)
          = (v0_approved, Ok (approval 0 (of_Z 2)))) as H2 by reflexivity.
  split; [exact v0_reachable|]. split; [exact H1|]. split; [exact H2|].
  exact (response_accepted_by_peers v0 v0_approved (encrypt deal0) (approval 0 (of_Z 2))
           agg_new v0_reachable H1 H2 eq_refl eq_refl eq_refl).
Defined.

Lemma toy_Schnorr_no_panic (x : Fq) (msg : bytes) : Schnorr x msg <> Panic.
Proof. done. Qed.

Lemma Dealer_ProcessResponse_outcome_witness :
  vss.d_agg dealer0 = Some agg_new /\
  length (vss.deals dealer0) = length (vss.agg_verifiers agg_new) /\
  (vss.verifyResponse agg_new complaint0_signed).2 = Ok () /\
  vss.Approved complaint0_signed = false /\
  exists dl, vss.deals dealer0 !! N.to_nat (vss.Resp_Index complaint0_signed) = Some dl /\
    let j0 := vss.mkJustification (vss.d_sessionID dealer0)
                (vss.Resp_Index complaint0_signed) dl [] in
    (forall sig, Schnorr (vss.long dealer0) (vss.Justification_Hash j0) = Ok sig ->
       (vss.Dealer_ProcessResponse dealer0 complaint0_signed).2
       = Ok (Some (vss.mkJustification (vss.d_sessionID dealer0)
                     (vss.Resp_Index complaint0_signed) dl sig))) /\
    (forall e, Schnorr (vss.long dealer0) (vss.Justification_Hash j0) = Err e ->
       (vss.Dealer_ProcessResponse dealer0 complaint0_signed).2 = Err e).
Proof.
  assert (vss.d_agg dealer0 = Some agg_new) as H1 by reflexivity.
  assert (length (vss.deals dealer0) = length (vss.agg_verifiers agg_new)) as H2
    by reflexivity.
  assert ((vss.verifyResponse agg_new complaint0_signed).2 = Ok ()) as H3 by reflexivity.
  assert (vss.Approved complaint0_signed = false) as H4 by reflexivity.
  split; [exact H1|]. split; [exact H2|]. split; [exact H3|]. split; [exact H4|].
  exact (proj2 (proj2 (proj2 (proj2 (proj2 (Dealer_ProcessResponse_outcome dealer0
                                              complaint0_signed agg_new H1 H2
                                              toy_Schnorr_no_panic)) H3))) H4).
Defined.

Lemma EncryptedDeals_each_witness :
  vss.EncryptedDeals dealer0 [4; 8] = (Ok encrypted_deals, []) /\
  length encrypted_deals = length (vss.d_verifiers dealer0) /\
  forall (i : nat) e, encrypted_deals !! i = Some e ->
    vss.Dealer_EncryptedDeal dealer0 (Z.of_nat i) (spec.drawn i [4; 8])
    = (Ok e, spec.drawn (S i) [4; 8]).
Proof.
  assert (vss.EncryptedDeals dealer0 [4; 8] = (Ok encrypted_deals, [])) as H1
    by reflexivity.
  split; [exact H1|].
  pose proof (EncryptedDeals_each dealer0 [4; 8] [] encrypted_deals H1) as H2.
  exact (conj (proj1 H2) (proj2 (proj2 H2))).
Defined.

Lemma EncryptedDeal_decryptDeal_witness :
  vss.d_pub dealer0 = PMul None (vss.long dealer0) /\
  vss.dealer v0 = vss.d_pub dealer0 /\
  vss.hkdfContext v0 = vss.d_hkdfContext dealer0 /\
  vss.d_verifiers dealer0 !! Z.to_nat 0 = Some (PMul None (vss.longterm v0)) /\
  vss.deals dealer0 !! Z.to_nat 0 = Some deal0 /\
  vss.Deal_UnmarshalBinary (vss.Deal_MarshalBinary deal0).1 = Ok deal0 /\
  (vss.Dealer_EncryptedDeal dealer0 0 [4]).1 = Ok (encrypt deal0) /\
  vss.decryptDeal v0 (encrypt deal0) = Ok deal0.
Proof.
  assert (vss.d_pub dealer0 = PMul None (vss.long dealer0)) as H1 by reflexivity.
  assert (vss.dealer v0 = vss.d_pub dealer0) as H2 by reflexivity.
  assert (vss.hkdfContext v0 = vss.d_hkdfContext dealer0) as H3 by reflexivity.
  assert (0 <= 0 < 2 ^ 32) as H4 by (split; [lia|reflexivity]).
  assert (vss.d_verifiers dealer0 !! Z.to_nat 0 = Some (PMul None (vss.longterm v0)))
    as H5 by reflexivity.
  assert (vss.deals dealer0 !! Z.to_nat 0 = Some deal0) as H6 by reflexivity.
  assert (vss.Deal_UnmarshalBinary (vss.Deal_MarshalBinary deal0).1 = Ok deal0) as H7
    by reflexivity.
  assert ((vss.Dealer_EncryptedDeal dealer0 0 [4]).1 = Ok (encrypt deal0)) as H8
    by reflexivity.
  split; [exact H1|]. split; [exact H2|]. split; [exact H3|]. split; [exact H5|].
  split; [exact H6|]. split; [exact H7|]. split; [exact H8|].
  exact (EncryptedDeal_decryptDeal dealer0 v0 0 [4] deal0 (encrypt deal0)
           H1 H2 H3 H4 H5 H6 H7 H8 eq_refl).
Defined.

Lemma MinimumT_validT_witness :
  Z.of_nat (length [of_Z 2; of_Z 3; of_Z 5]) < 2 ^ 63 /\
  vss.validT (vss.MinimumT (Z.of_nat (length [of_Z 2; of_Z 3; of_Z 5])))
    [of_Z 2; of_Z 3; of_Z 5] = true.
Proof.
  assert (Z.of_nat (length [of_Z 2; of_Z 3; of_Z 5]) < 2 ^ 63) as H1 by reflexivity.
  split; [exact H1|].
  apply (proj2 (MinimumT_validT (H := suite) [of_Z 2; of_Z 3; of_Z 5] H1)).
  cbn [length]. lia.
Defined.

End run_more.
